(** * ol/interaction/Rotate: the rotation transform engine

    A shallow embedding of [src/ol/interaction/Rotate.js]: the azimuth
    arithmetic ([getAzimut], the angle of [handleDragEvent]), the pivot
    computation ([getCenterOfExtent], [refreshFeaturesPivotes]), the
    hit test [featuresAtPixel_], the cursor of [handleMoveEvent], the
    constructor, and the press / drag / release handlers together with
    the snapshot cache [cartodi.feature_original].

    The arithmetic comes twice: over exact numbers, where the identities
    between angles are stated, and, in the module [Overflow], with the
    overflow of binary64 to an infinity, where the range of the results
    is stated.

    The handlers are functions in a state and exception monad over a
    [World]: the fields of the interaction, the two dictionaries of
    [cartodi], a heap of feature objects addressed by reference (so that
    a feature may occur twice in a collection, or be the pivot marker),
    the class list of the viewport and the log of dispatched events.
    Listeners of the dispatched events are not part of the model.  A
    geometry is a value owned by the feature that holds it, as the data
    model of the specification has it; the geometry operations of the
    host are the methods of the class [GeometryOps]. *)

From Stdlib Require Import Reals Lra ZArith String DecimalString.
From stdpp Require Import gmap strings list.

(** ** JavaScript numbers

    A JavaScript number is modelled as a real number or one of the three
    special values of IEEE 754.  The operations below are exact: they
    neither round nor overflow (the operations of [Overflow] further
    down do overflow), and zero carries no sign (a zero divisor acts as
    [+0]). *)

Inductive number : Type :=
| Num (r : R)
| PInf
| NInf
| NaN.

Inductive sign : Type := Positive | Zero | Negative.

Definition Rsign (r : R) : sign :=
  if Rlt_dec 0 r then Positive else if Rlt_dec r 0 then Negative else Zero.

Definition Number_add (a b : number) : number :=
  match a, b with
  | NaN, _ | _, NaN => NaN
  | Num x, Num y => Num (x + y)
  | PInf, NInf | NInf, PInf => NaN
  | PInf, _ | _, PInf => PInf
  | NInf, _ | _, NInf => NInf
  end.

Definition Number_sub (a b : number) : number :=
  match a, b with
  | NaN, _ | _, NaN => NaN
  | Num x, Num y => Num (x - y)
  | PInf, PInf | NInf, NInf => NaN
  | PInf, _ | _, NInf => PInf
  | NInf, _ | _, PInf => NInf
  end.

(** The infinity of the given sign; [Zero] stands for the invalid
    operation, which yields [NaN]. *)
Definition infinity (s : sign) : number :=
  match s with Positive => PInf | Negative => NInf | Zero => NaN end.

Definition sign_mul (s t : sign) : sign :=
  match s, t with
  | Zero, _ | _, Zero => Zero
  | Positive, Positive | Negative, Negative => Positive
  | _, _ => Negative
  end.

Definition Number_mul (a b : number) : number :=
  match a, b with
  | NaN, _ | _, NaN => NaN
  | Num x, Num y => Num (x * y)
  | Num x, PInf | PInf, Num x => infinity (Rsign x)
  | Num x, NInf | NInf, Num x => infinity (sign_mul Negative (Rsign x))
  | PInf, PInf | NInf, NInf => PInf
  | PInf, NInf | NInf, PInf => NInf
  end.

Definition Number_div (a b : number) : number :=
  match a, b with
  | NaN, _ | _, NaN => NaN
  | Num x, Num y =>
      match Rsign y with
      | Zero => infinity (Rsign x)
      | _ => Num (x / y)
      end
  | Num _, _ => Num 0
  | PInf, Num y => match Rsign y with Negative => NInf | _ => PInf end
  | NInf, Num y => match Rsign y with Negative => PInf | _ => NInf end
  | _, _ => NaN
  end.

(** [a > b]; every comparison with [NaN] is false. *)
Definition Number_gt (a b : number) : bool :=
  match a, b with
  | NaN, _ | _, NaN => false
  | Num x, Num y => if Rlt_dec y x then true else false
  | PInf, PInf | NInf, _ | _, PInf => false
  | PInf, _ | _, NInf => true
  end.

Definition Number_lt (a b : number) : bool := Number_gt b a.

Definition Math_PI : number := Num PI.

Definition Math_atan (a : number) : number :=
  match a with
  | Num r => Num (atan r)
  | PInf => Num (PI / 2)
  | NInf => Num (- (PI / 2))
  | NaN => NaN
  end.

Definition Math_cos (a : number) : number :=
  match a with Num r => Num (cos r) | _ => NaN end.

Definition Math_sin (a : number) : number :=
  match a with Num r => Num (sin r) | _ => NaN end.

Declare Scope js_scope.
Delimit Scope js_scope with js.
Bind Scope js_scope with number.
Infix "+" := Number_add : js_scope.
Infix "-" := Number_sub : js_scope.
Infix "*" := Number_mul : js_scope.
Infix "/" := Number_div : js_scope.
Infix ">?" := Number_gt (at level 70, no associativity) : js_scope.
Infix "<?" := Number_lt (at level 70, no associativity) : js_scope.

(** A coordinate is the array [[x, y]]. *)
Definition Coordinate : Type := (number * number)%type.

(** An extent is the array [[minX, minY, maxX, maxY]]. *)
Definition Extent : Type := (number * number * number * number)%type.

(** ** Azimuth arithmetic *)

(** [getAzimut(coordinate1, coordinate2)], lines 606-637. *)
Definition getAzimut (coordinate1 coordinate2 : Coordinate) : number :=
  let x1 := fst coordinate1 in
  let y1 := snd coordinate1 in
  let x2 := fst coordinate2 in
  let y2 := snd coordinate2 in
  let dx := (x2 - x1)%js in
  let dy := (y2 - y1)%js in
  let Az2 := Math_atan (dx / dy)%js in
  let azimut :=
    if (dx >? Num 0)%js && (dy >? Num 0)%js then Az2
    else if (dx >? Num 0)%js && (dy <? Num 0)%js then (Az2 + Math_PI)%js
    else if (dx <? Num 0)%js && (dy <? Num 0)%js then (Az2 + Math_PI)%js
    else if (dx <? Num 0)%js && (dy >? Num 0)%js
         then (Az2 + Num 2 * Math_PI)%js
    else Num 0 in
  let azimutAng := (azimut * Num 180 / Math_PI)%js in
  azimutAng.

(** The angle handed to [geometria.rotate] by [handleDragEvent],
    lines 367-368. *)
Definition angulo_en_radiane (angulo_inicial angulo : number) : number :=
  let angulo_final := ((angulo_inicial - angulo) * Num (-1))%js in
  (angulo_final * Math_PI / Num (-180))%js.

(** [getCenterOfExtent(Extent)], lines 536-540. *)
Definition getCenterOfExtent (E : Extent) : Coordinate :=
  let '(E0, E1, E2, E3) := E in
  let X := (E0 + (E2 - E0) / Num 2)%js in
  let Y := (E1 + (E3 - E1) / Num 2)%js in
  (X, Y).

(** ** The range of binary64

    An arithmetic operation on doubles gives the exact result, rounded.
    An exact result whose absolute value is at least [2^1024 - 2^970]
    (the largest double and half a unit in its last place) rounds to an
    infinity.  The operations of [Overflow] overflow in this way; within
    the range they are exact, for rounding to the nearest double is not
    modelled here either. *)

Definition overflow_threshold : R := IZR (2 ^ 1024 - 2 ^ 970).

Definition overflow (a : number) : number :=
  match a with
  | Num r =>
      if Rle_dec overflow_threshold r then PInf
      else if Rle_dec r (- overflow_threshold)%R then NInf
      else Num r
  | _ => a
  end.

(** An exact result that binary64 cannot hold. *)
Definition overflows (r : R) : Prop :=
  (overflow_threshold <= Rabs r)%R.

Module Overflow.

Definition add (a b : number) : number := overflow (Number_add a b).

Definition sub (a b : number) : number := overflow (Number_sub a b).

Definition mul (a b : number) : number := overflow (Number_mul a b).

Definition div (a b : number) : number := overflow (Number_div a b).

Declare Scope range_scope.
Delimit Scope range_scope with range.
Arguments add (a b)%_range.
Arguments sub (a b)%_range.
Arguments mul (a b)%_range.
Arguments div (a b)%_range.
Infix "+" := add : range_scope.
Infix "-" := sub : range_scope.
Infix "*" := mul : range_scope.
Infix "/" := div : range_scope.
Infix ">?" := Number_gt (at level 70, no associativity) : range_scope.
Infix "<?" := Number_lt (at level 70, no associativity) : range_scope.

(** [getAzimut(coordinate1, coordinate2)], lines 606-637. *)
Definition getAzimut (coordinate1 coordinate2 : Coordinate) : number :=
  let x1 := fst coordinate1 in
  let y1 := snd coordinate1 in
  let x2 := fst coordinate2 in
  let y2 := snd coordinate2 in
  let dx := (x2 - x1)%range in
  let dy := (y2 - y1)%range in
  let Az2 := Math_atan (dx / dy)%range in
  let azimut :=
    if (dx >? Num 0)%range && (dy >? Num 0)%range then Az2
    else if (dx >? Num 0)%range && (dy <? Num 0)%range
         then (Az2 + Math_PI)%range
    else if (dx <? Num 0)%range && (dy <? Num 0)%range
         then (Az2 + Math_PI)%range
    else if (dx <? Num 0)%range && (dy >? Num 0)%range
         then (Az2 + Num 2 * Math_PI)%range
    else Num 0 in
  let azimutAng := (azimut * Num 180 / Math_PI)%range in
  azimutAng.

(** The angle handed to [geometria.rotate] by [handleDragEvent],
    lines 367-368. *)
Definition angulo_en_radiane (angulo_inicial angulo : number) : number :=
  let angulo_final := ((angulo_inicial - angulo) * Num (-1))%range in
  (angulo_final * Math_PI / Num (-180))%range.

(** [getCenterOfExtent(Extent)], lines 536-540. *)
Definition getCenterOfExtent (E : Extent) : Coordinate :=
  let '(E0, E1, E2, E3) := E in
  let X := (E0 + (E2 - E0) / Num 2)%range in
  let Y := (E1 + (E3 - E1) / Num 2)%range in
  (X, Y).

End Overflow.

(** [2^1023], a double near [9e307]: the difference of it and its
    opposite is [2^1024], which no double holds. *)
Definition huge : R := IZR (2 ^ 1023).

(** A number that is not negative, and one that is not positive. *)
Definition not_negative (a : number) : Prop :=
  match a with Num r => (0 <= r)%R | PInf => True | _ => False end.

Definition not_positive (a : number) : Prop :=
  match a with Num r => (r <= 0)%R | NInf => True | _ => False end.

(** The difference of two coordinates: its sign is that of the exact
    difference, and it is an infinity exactly when that overflows. *)
Inductive difference (d : R) : number -> Prop :=
| difference_exact : ~ overflows d -> difference d (Num d)
| difference_PInf : (overflow_threshold <= d)%R -> difference d PInf
| difference_NInf : (d <= - overflow_threshold)%R -> difference d NInf.

(** ** Features and geometries *)

(** [Feature.getId()] is a string, a number or [undefined].  Numeric
    identifiers are integers; an identifier that is no integer has no
    counterpart here. *)
Inductive FeatureId : Type :=
| IdUndefined
| IdString (s : string)
| IdNumber (n : Z).

(** An identifier that JavaScript prints in plain decimal, digit for
    digit, when it serves as a property key: a string, [undefined], or
    an integer below [2^53] in absolute value.  Beyond that bound not
    every integer is a double, and from [10^21] on a number is printed
    with an exponent. *)
Definition plain_id (id : FeatureId) : Prop :=
  match id with
  | IdNumber n => (Z.abs n < 2 ^ 53)%Z
  | _ => True
  end.

Definition PIVOTE_1_ID : string := "PIVOTE_1_ID".

(** The property key of [obj[id]]: the identifier converted to a string,
    for a plain identifier. *)
Definition property_key (id : FeatureId) : string :=
  match id with
  | IdUndefined => "undefined"
  | IdString s => s
  | IdNumber n => NilZero.string_of_int (Z.to_int n)
  end.

(** [id == 'PIVOTE_1_ID'] (line 384); [id !== 'PIVOTE_1_ID'] (line 317)
    is its negation: a number or [undefined] never equals the string. *)
Definition is_PIVOTE_1_ID (id : FeatureId) : bool :=
  match id with
  | IdString s => bool_decide (s = PIVOTE_1_ID)
  | _ => false
  end.

(** [llaves.includes(id)]: [Array.prototype.includes] compares without
    conversion, and the keys of an object are strings. *)
Definition Array_includes (llaves : list string) (id : FeatureId) : bool :=
  match id with
  | IdString s => bool_decide (s ∈ llaves)
  | _ => false
  end.

(** The operations of the geometry collaborators that the interaction
    calls.  A geometry is a value owned by one feature: [rotate] mutates in
    place, which is a replacement of the owner's geometry, and [clone] is
    the identity on values. *)
Class GeometryOps (Geometry : Type) : Type := {
  (** [geometry.rotate(angle, anchor)] *)
  Geometry_rotate : number -> Coordinate -> Geometry -> Geometry;
  (** [new Point(coordinates)] *)
  Point : Coordinate -> Geometry;
  (** [geometry.getCoordinates()] of a point *)
  getCoordinates : Geometry -> Coordinate;
  (** [source.getExtent()] of a fresh [VectorSource] holding features with
      the given geometries *)
  VectorSource_getExtent : list (option Geometry) -> Extent
}.

(** References to feature objects. *)
Definition addr : Type := nat.

Definition Layer : Type := nat.

(** What [map.forEachFeatureAtPixel] hands to its callback. *)
Inductive FeatureLike : Type :=
| RenderFeature
| FeatureRef (a : addr).

Inductive RotateEventType : Type := ROTATESTART | ROTATING | ROTATEEND.

(** The value of the undeclared property [this.feature_]. *)
Inductive nullish : Type := js_undefined | js_null.

Section Engine.

Context {Geometry : Type} `{GeometryOps Geometry}.

Record Feature : Type := mkFeature {
  getId : FeatureId;
  getGeometry : option Geometry
}.

(** Modelled from the spec: [Feature.clone()] (ol/Feature.js is not under
    src/) gives an independently owned deep copy of the geometry; the
    identifier of the clone is never read and is left unset. *)
Definition Feature_clone (f : Feature) : Feature :=
  {| getId := IdUndefined; getGeometry := getGeometry f |}.

(** [feature.setGeometry(geometry)]. *)
Definition Feature_setGeometry (g : Geometry) (f : Feature) : Feature :=
  {| getId := getId f; getGeometry := Some g |}.

(** A pointer event as the handlers see it: [event.originalEvent] (is it
    truthy), [event.coordinate], and the features that
    [event.map.forEachFeatureAtPixel(event.pixel, ...)] visits, with their
    layers, in the order of the host. *)
Record MapBrowserEvent : Type := mkEvent {
  originalEvent : bool;
  coordinate : Coordinate;
  atPixel : list (FeatureLike * Layer)
}.

Record RotateEvent : Type := mkRotateEvent {
  type : RotateEventType;
  features : list (option addr);
  event_coordinate : Coordinate;
  event_startCoordinate : option Coordinate;
  mapBrowserEvent : MapBrowserEvent
}.

(** The fields of the interaction object. *)
Record Rotate : Type := mkRotate {
  lastCoordinate_ : option Coordinate;
  startCoordinate_ : option Coordinate;
  features_ : option (list addr);
  layerFilter_ : Layer -> bool;
  filter_ : addr -> Layer -> bool;
  condition_ : MapBrowserEvent -> bool;
  lastFeature_ : option addr;
  pivote_1 : addr;
  coordinate_ : option Coordinate;
  feature_ : nullish;
  first_ : bool
}.

(** The interaction together with the objects it shares with its host:
    the two dictionaries of [cartodi], the feature objects, the features
    of the pivot source ([None] when the option was not given), the class
    list of the viewport, and the events dispatched so far. *)
Record World : Type := mkWorld {
  this : Rotate;
  feature_original : gmap string Feature;
  predioEdicionSelected : gmap string addr;
  heap : gmap addr Feature;
  source_cartodi_pivote_ : option (list addr);
  classList : list string;
  dispatched : list RotateEvent
}.

Definition set_lastCoordinate_ (v : option Coordinate) (r : Rotate) : Rotate :=
  mkRotate v (startCoordinate_ r) (features_ r) (layerFilter_ r) (filter_ r)
    (condition_ r) (lastFeature_ r) (pivote_1 r) (coordinate_ r) (feature_ r)
    (first_ r).

Definition set_startCoordinate_ (v : option Coordinate) (r : Rotate) : Rotate :=
  mkRotate (lastCoordinate_ r) v (features_ r) (layerFilter_ r) (filter_ r)
    (condition_ r) (lastFeature_ r) (pivote_1 r) (coordinate_ r) (feature_ r)
    (first_ r).

Definition set_lastFeature_ (v : option addr) (r : Rotate) : Rotate :=
  mkRotate (lastCoordinate_ r) (startCoordinate_ r) (features_ r)
    (layerFilter_ r) (filter_ r) (condition_ r) v (pivote_1 r)
    (coordinate_ r) (feature_ r) (first_ r).

Definition set_coordinate_ (v : option Coordinate) (r : Rotate) : Rotate :=
  mkRotate (lastCoordinate_ r) (startCoordinate_ r) (features_ r)
    (layerFilter_ r) (filter_ r) (condition_ r) (lastFeature_ r)
    (pivote_1 r) v (feature_ r) (first_ r).

Definition set_feature_ (v : nullish) (r : Rotate) : Rotate :=
  mkRotate (lastCoordinate_ r) (startCoordinate_ r) (features_ r)
    (layerFilter_ r) (filter_ r) (condition_ r) (lastFeature_ r)
    (pivote_1 r) (coordinate_ r) v (first_ r).

Definition set_first_ (v : bool) (r : Rotate) : Rotate :=
  mkRotate (lastCoordinate_ r) (startCoordinate_ r) (features_ r)
    (layerFilter_ r) (filter_ r) (condition_ r) (lastFeature_ r)
    (pivote_1 r) (coordinate_ r) (feature_ r) v.

Definition with_this (f : Rotate -> Rotate) (w : World) : World :=
  mkWorld (f (this w)) (feature_original w) (predioEdicionSelected w)
    (heap w) (source_cartodi_pivote_ w) (classList w) (dispatched w).

Definition with_feature_original
    (f : gmap string Feature -> gmap string Feature) (w : World) : World :=
  mkWorld (this w) (f (feature_original w)) (predioEdicionSelected w)
    (heap w) (source_cartodi_pivote_ w) (classList w) (dispatched w).

Definition with_predioEdicionSelected
    (f : gmap string addr -> gmap string addr) (w : World) : World :=
  mkWorld (this w) (feature_original w) (f (predioEdicionSelected w))
    (heap w) (source_cartodi_pivote_ w) (classList w) (dispatched w).

Definition with_heap
    (f : gmap addr Feature -> gmap addr Feature) (w : World) : World :=
  mkWorld (this w) (feature_original w) (predioEdicionSelected w)
    (f (heap w)) (source_cartodi_pivote_ w) (classList w) (dispatched w).

Definition with_source (f : option (list addr) -> option (list addr))
    (w : World) : World :=
  mkWorld (this w) (feature_original w) (predioEdicionSelected w)
    (heap w) (f (source_cartodi_pivote_ w)) (classList w) (dispatched w).

Definition with_classList (f : list string -> list string) (w : World)
    : World :=
  mkWorld (this w) (feature_original w) (predioEdicionSelected w)
    (heap w) (source_cartodi_pivote_ w) (f (classList w)) (dispatched w).

Definition with_dispatched (f : list RotateEvent -> list RotateEvent)
    (w : World) : World :=
  mkWorld (this w) (feature_original w) (predioEdicionSelected w)
    (heap w) (source_cartodi_pivote_ w) (classList w) (f (dispatched w)).

(** ** Handlers run in a state and exception monad

    A handler either returns a value or throws: a [TypeError] (a method
    called on [null] or [undefined]), or the error of a failed [assert]
    of the host; each leaves a world behind. *)

Inductive result (A : Type) : Type :=
| Ok (a : A) (w : World)
| TypeError (w : World)
| AssertionError (w : World).

Arguments Ok {A} a w.
Arguments TypeError {A} w.
Arguments AssertionError {A} w.

Definition M (A : Type) : Type := World -> result A.

Definition ret {A} (a : A) : M A := fun w => Ok a w.

Definition bind {A B} (m : M A) (k : A -> M B) : M B :=
  fun w => match m w with
           | Ok a w' => k a w'
           | TypeError w' => TypeError w'
           | AssertionError w' => AssertionError w'
           end.

Definition throw {A} : M A := fun w => TypeError w.

(** [assert(assertion, errorMessage)] of ol/asserts.js. *)
Definition assert (assertion : bool) : M unit :=
  fun w => if assertion then Ok tt w else AssertionError w.

Definition get : M World := fun w => Ok w w.

Definition modify (f : World -> World) : M unit := fun w => Ok tt (f w).

(** The world a handler leaves behind, whatever the outcome. *)
Definition final_world {A} (r : result A) : World :=
  match r with Ok _ w | TypeError w | AssertionError w => w end.

End Engine.

Arguments Feature Geometry : clear implicits.
Arguments World Geometry : clear implicits.
Arguments result Geometry A : clear implicits.
Arguments M Geometry A : clear implicits.
Arguments Ok {Geometry A} a w.
Arguments TypeError {Geometry A} w.
Arguments AssertionError {Geometry A} w.

Notation "'let*' x := m 'in' k" := (bind m (fun x => k))
  (at level 10, x name, m at level 100, k at level 200).
Notation "m ;; k" := (bind m (fun _ => k))
  (at level 100, k at level 200, right associativity).

Section Handlers.

Context {Geometry : Type} `{GeometryOps Geometry}.

Abbreviation M := (M Geometry).
Abbreviation World := (World Geometry).
Abbreviation Feature := (Feature Geometry).

(** [for (const x in array) body]: the indices in ascending order;
    [continue] is the normal end of [body]. *)
Fixpoint for_in {A} (array : list A) (body : A -> M unit) : M unit :=
  match array with
  | [] => ret tt
  | x :: rest => body x ;; for_in rest body
  end.

(** Reading the feature object behind a reference.  References held by
    the program always resolve; one outside the heap is treated like a
    reference to nothing. *)
Definition read (a : addr) : M Feature :=
  fun w => match heap w !! a with
           | Some f => Ok f w
           | None => TypeError w
           end.

(** [o.method()] on a value that may be [undefined]. *)
Definition defined {A} (o : option A) : M A :=
  match o with Some a => ret a | None => throw end.

(** The truth value of an object reference that may be [null]. *)
Definition truthy {A} (o : option A) : bool :=
  match o with Some _ => true | None => false end.

(** [this.features_ || new Collection([this.lastFeature_])], then
    [features.getArray()]. *)
Definition features_getArray (r : Rotate) : list (option addr) :=
  match features_ r with
  | Some collection => Some <$> collection
  | None => [lastFeature_ r]
  end.

(** [this.dispatchEvent(event)]: the event joins the log. *)
Definition dispatchEvent (e : RotateEvent) : M unit :=
  modify (with_dispatched (fun log => log ++ [e])).

(** [element.classList.remove(tokens)] and [element.classList.add(token)]. *)
Definition classList_remove (tokens : list string) : M unit :=
  modify (with_classList
            (fun l => filter (fun c => bool_decide (c ∈ tokens) = false) l)).

Definition classList_add (token : string) : M unit :=
  modify (with_classList
            (fun l => if bool_decide (token ∈ l) then l else l ++ [token])).

(** The callback of [featuresAtPixel_], lines 465-473. *)
Definition featuresAtPixel_callback (r : Rotate) (feature : FeatureLike)
    (layer : Layer) : option addr :=
  match feature with
  | RenderFeature => None
  | FeatureRef a =>
      if negb (filter_ r a layer) then None
      else match features_ r with
           | Some collection =>
               if bool_decide (a ∈ collection) then Some a else None
           | None => Some a
           end
  end.

(** [map.forEachFeatureAtPixel]: the first truthy result of the callback
    over the features of the layers accepted by [layerFilter]. *)
Fixpoint forEachFeatureAtPixel (candidates : list (FeatureLike * Layer))
    (layerFilter : Layer -> bool)
    (callback : FeatureLike -> Layer -> option addr) : option addr :=
  match candidates with
  | [] => None
  | (feature, layer) :: rest =>
      if layerFilter layer then
        match callback feature layer with
        | Some a => Some a
        | None => forEachFeatureAtPixel rest layerFilter callback
        end
      else forEachFeatureAtPixel rest layerFilter callback
  end.

(** [featuresAtPixel_(pixel, map)], lines 462-479. *)
Definition featuresAtPixel_ (r : Rotate) (event : MapBrowserEvent)
    : option addr :=
  forEachFeatureAtPixel (atPixel event) (layerFilter_ r)
    (featuresAtPixel_callback r).

(** [handleMoveEvent(event)], lines 440-451. *)
Definition handleMoveEvent (event : MapBrowserEvent) : M unit :=
  let* w := get in
  if truthy (featuresAtPixel_ (this w) event) then
    classList_remove
      [if truthy (lastCoordinate_ (this w)) then "ol-grab"
       else "ol-grabbing"] ;;
    classList_add
      (if truthy (lastCoordinate_ (this w)) then "ol-grabbing"
       else "ol-grab")
  else
    classList_remove ["ol-grab"; "ol-grabbing"].

(** [handleDownEvent(event)], lines 277-302. *)
Definition handleDownEvent (event : MapBrowserEvent) : M bool :=
  let* w := get in
  if negb (originalEvent event) || negb (condition_ (this w) event) then
    ret false
  else
    modify (with_this (set_coordinate_ (Some (coordinate event)))) ;;
    modify (with_this
              (fun r => set_lastFeature_ (featuresAtPixel_ r event) r)) ;;
    let* w := get in
    if negb (truthy (lastCoordinate_ (this w)))
       && truthy (lastFeature_ (this w)) then
      modify (with_this (set_startCoordinate_ (Some (coordinate event)))) ;;
      modify (with_this (set_lastCoordinate_ (Some (coordinate event)))) ;;
      handleMoveEvent event ;;
      let* w := get in
      let features := features_getArray (this w) in
      dispatchEvent
        (mkRotateEvent ROTATESTART features (coordinate event)
           (startCoordinate_ (this w)) event) ;;
      ret true
    else ret false.

(** The body of the loop of [handleUpEvent], lines 316-319. *)
Definition handleUpEvent_body (x : option addr) : M unit :=
  let* a := defined x in
  let* feature := read a in
  let id := getId feature in
  if negb (is_PIVOTE_1_ID id) then
    let* feature := read a in
    modify (with_feature_original
              (insert (property_key id) (Feature_clone feature)))
  else ret tt.

(** [handleUpEvent(event)], lines 310-341. *)
Definition handleUpEvent (event : MapBrowserEvent) : M bool :=
  modify (with_this (set_coordinate_ None)) ;;
  modify (with_this (set_feature_ js_null)) ;;
  let* w := get in
  let features := features_getArray (this w) in
  let featuresEdit := features in
  for_in featuresEdit handleUpEvent_body ;;
  let* w := get in
  if truthy (lastCoordinate_ (this w)) then
    modify (with_this (set_lastCoordinate_ None)) ;;
    handleMoveEvent event ;;
    let* w := get in
    dispatchEvent
      (mkRotateEvent ROTATEEND features (coordinate event)
         (startCoordinate_ (this w)) event) ;;
    modify (with_this (set_startCoordinate_ None)) ;;
    ret true
  else ret false.

(** [Object.keys(this.cartodi.feature_original)]. *)
Definition Object_keys {A} (o : gmap string A) : list string :=
  (map_to_list o).*1.

(** The body of the loop of [handleDragEvent], lines 383-406. *)
Definition handleDragEvent_body (llaves : list string)
    (angulo_en_radiane : number) (centroide : Coordinate)
    (x : option addr) : M unit :=
  let* a := defined x in
  let* feature := read a in
  let id := getId feature in
  if is_PIVOTE_1_ID id then ret tt
  else
    (if Array_includes llaves id then
       let* w := get in
       let* original := defined (feature_original w !! property_key id) in
       let* geometry := defined (getGeometry original) in
       modify (with_heap (alter (Feature_setGeometry geometry) a))
     else
       let* feature := read a in
       modify (with_feature_original
                 (insert (property_key id) (Feature_clone feature)))) ;;
    let* feature := read a in
    let geometria := getGeometry feature in
    modify (with_predioEdicionSelected (insert (property_key id) a)) ;;
    let* geometria := defined geometria in
    let geometria := Geometry_rotate angulo_en_radiane centroide geometria in
    modify (with_heap (alter (Feature_setGeometry geometria) a)).

(** [handleDragEvent(event)], lines 348-433. *)
Definition handleDragEvent (event : MapBrowserEvent) : M unit :=
  let* w := get in
  if truthy (lastCoordinate_ (this w)) then
    let newCoordinate := coordinate event in
    let* pivote := read (pivote_1 (this w)) in
    let* punto := defined (getGeometry pivote) in
    let centroide := getCoordinates punto in
    let* coordinate_0 := defined (coordinate_ (this w)) in
    let angulo_inicial := getAzimut centroide coordinate_0 in
    let angulo := getAzimut centroide newCoordinate in
    let angulo_en_radiane := angulo_en_radiane angulo_inicial angulo in
    let features := features_getArray (this w) in
    let featuresEdit := features in
    let llaves := Object_keys (feature_original w) in
    for_in featuresEdit
      (handleDragEvent_body llaves angulo_en_radiane centroide) ;;
    modify (with_this (set_lastCoordinate_ (Some newCoordinate))) ;;
    let* w := get in
    dispatchEvent
      (mkRotateEvent ROTATING features newCoordinate
         (startCoordinate_ (this w)) event)
  else ret tt.

(** *** The vector sources of the host *)

(** [id.toString()] for [id !== undefined]. *)
Definition id_key (id : FeatureId) : option string :=
  match id with
  | IdUndefined => None
  | _ => Some (property_key id)
  end.

(** Modelled from the spec: the pivot comes from "the bounding extents
    of all input geometries" of a fresh source, and the marker is
    "re-added to an external marker layer on each refresh"; what a
    source takes in is that of ol/source/Vector.js, which is not under
    src/.  A source is the list of the features it holds, in the order
    in which it took them in; it keeps no collection of them
    ([featuresCollection_] is [null], as in a source built without a
    collection).  The keys of [source.idIndex_] are the identifiers, as
    strings, of the features that it holds and that have one. *)
Definition idIndex_ (h : gmap addr Feature) (source : list addr)
    : list string :=
  omap (fun b => f ← h !! b; id_key (getId f)) source.

(** Modelled from the spec: [source.addToIndex_(featureKey, feature)]
    of ol/source/Vector.js, that is, whether the feature is valid, to be
    taken in.  A feature whose identifier is in the index is not, and
    is left out silently; for a valid feature that the source holds
    already the [assert] fails. *)
Definition addToIndex_ (source : list addr) (a : addr) (feature : Feature)
    : M bool :=
  let* w := get in
  let valid :=
    match id_key (getId feature) with
    | Some key => negb (bool_decide (key ∈ idIndex_ (heap w) source))
    | None => true
    end in
  (if valid then assert (negb (bool_decide (a ∈ source))) else ret tt) ;;
  ret valid.

(** Modelled from the spec: [source.addFeatures(array)] of
    ol/source/Vector.js, giving the source afterwards.  [getUid] of an
    element that is [null] or [undefined] throws. *)
Fixpoint VectorSource_addFeatures (source : list addr)
    (array : list (option addr)) : M (list addr) :=
  match array with
  | [] => ret source
  | x :: rest =>
      let* a := defined x in
      let* feature := read a in
      let* valid := addToIndex_ source a feature in
      VectorSource_addFeatures (if valid then source ++ [a] else source) rest
  end.

(** Modelled from the spec: [source.addFeature(feature)] of
    ol/source/Vector.js, giving the source afterwards. *)
Definition VectorSource_addFeature (source : list addr) (a : addr)
    : M (list addr) :=
  let* feature := read a in
  let* valid := addToIndex_ source a feature in
  ret (if valid then source ++ [a] else source).

(** The geometries of the features that a source holds. *)
Definition source_geometries (h : gmap addr Feature) (source : list addr)
    : list (option Geometry) :=
  (fun a => f ← h !! a; getGeometry f) <$> source.

(** [refreshFeaturesPivotes()], lines 541-563. *)
Definition refreshFeaturesPivotes : M unit :=
  let* w := get in
  let features := features_getArray (this w) in
  let* newsource := VectorSource_addFeatures [] features in
  let extent :=
    VectorSource_getExtent (source_geometries (heap w) newsource) in
  let centro := getCenterOfExtent extent in
  let punto1 := Point centro in
  modify (with_heap
            (<[pivote_1 (this w) :=
                 mkFeature (IdString PIVOTE_1_ID) (Some punto1)]>)) ;;
  let* pivote1 := defined (source_cartodi_pivote_ w) in
  let* pivote1 := VectorSource_addFeature pivote1 (pivote_1 (this w)) in
  modify (with_source (fun _ => Some pivote1)) ;;
  let* w := get in
  if first_ (this w) then modify (with_this (set_first_ false))
  else ret tt.

(** [preserves P m]: whatever the outcome of [m], a world that satisfies
    [P] is left in a state that satisfies [P]. *)
Definition preserves {A} (P : World -> Prop) (m : M A) : Prop :=
  forall w, P w -> P (final_world (m w)).

(** [m] fails no [assert], whatever the world. *)
Definition asserts_nothing {A} (m : M A) : Prop :=
  forall w w', m w <> AssertionError w'.

(** What a drag update leaves alone, for a feature [f] at [a] that
    carries the identifier of the pivot marker. *)
Definition PIVOTE_1_ID_untouched (a : addr) (f : Feature)
    (c : option Feature) (d : option addr) (w : World) : Prop :=
  heap w !! a = Some f /\
  feature_original w !! PIVOTE_1_ID = c /\
  predioEdicionSelected w !! PIVOTE_1_ID = d.

(** What a release leaves alone. *)
Definition not_committed (c : option Feature) (d : gmap addr Feature)
    (w : World) : Prop :=
  feature_original w !! PIVOTE_1_ID = c /\ heap w = d.

(** The geometry that the loop of a drag update rotates for a feature
    with the string identifier [s]. *)
Definition rotated_geometry (llaves : list string) (w : World) (s : string)
    (f : Feature) : option Geometry :=
  if bool_decide (s ∈ llaves)
  then original ← feature_original w !! s; getGeometry original
  else getGeometry f.

(** An element of the active array that the loop of a drag update can
    process: a feature with a string identifier which is the pivot marker
    or has a geometry to rotate. *)
Definition processable (llaves : list string) (w : World)
    (x : option addr) : Prop :=
  exists a f s,
    x = Some a /\ heap w !! a = Some f /\ getId f = IdString s /\
    (s = PIVOTE_1_ID \/ is_Some (rotated_geometry llaves w s f)).

(** What the loop of a drag update keeps of the world [w0] it started
    in: the baselines under the keys it read, the identifiers of the
    features, and a geometry on every feature that had one. *)
Definition loop_invariant (llaves : list string) (w0 w : World) : Prop :=
  (forall s, s ∈ llaves -> feature_original w !! s = feature_original w0 !! s)
  /\ (forall a, getId <$> heap w !! a = getId <$> heap w0 !! a)
  /\ (forall a f0,
         heap w0 !! a = Some f0 -> is_Some (getGeometry f0) ->
         exists f, heap w !! a = Some f /\ is_Some (getGeometry f))
  /\ (forall s original,
         s ∉ llaves -> feature_original w !! s = Some original ->
         is_Some (getGeometry original)).

(** A session in which a drag update can run: it is open, the pivot
    marker is a point known by its identifier, and every feature of the
    active array can be processed. *)
Definition session (w : World) : Prop :=
  is_Some (lastCoordinate_ (this w)) /\
  is_Some (coordinate_ (this w)) /\
  (exists p, heap w !! pivote_1 (this w) = Some p /\
             getId p = IdString PIVOTE_1_ID /\ is_Some (getGeometry p)) /\
  Forall (processable (Object_keys (feature_original w)) w)
    (features_getArray (this w)).

(** The angle of the drag update to the coordinate of [event]. *)
Definition drag_angle (w : World) (event : MapBrowserEvent)
    : option (number * Coordinate) :=
  pivote ← heap w !! pivote_1 (this w);
  punto ← getGeometry pivote;
  coordinate_0 ← coordinate_ (this w);
  let centroide := getCoordinates punto in
  Some (angulo_en_radiane (getAzimut centroide coordinate_0)
          (getAzimut centroide (coordinate event)),
        centroide).

(** The fields of the interaction and the events dispatched so far. *)
Definition interaction_is (r : Rotate) (d : list RotateEvent) (w : World)
    : Prop :=
  this w = r /\ dispatched w = d.

End Handlers.

(** ** A concrete geometry

    Flat lists of coordinates, used by the examples below. *)

Definition Math_min (a b : number) : number :=
  match a, b with
  | NaN, _ | _, NaN => NaN
  | _, _ => if (a <? b)%js then a else b
  end.

Definition Math_max (a b : number) : number :=
  match a, b with
  | NaN, _ | _, NaN => NaN
  | _, _ => if (a >? b)%js then a else b
  end.

Definition FlatGeometry : Type := list Coordinate.

(** Modelled from the spec: "rotate in place by angle θ about pivot P"
    (ol/geom/flat/transform.js is not under src/), for one coordinate. *)
Definition rotate_coordinate (angle : number) (anchor c : Coordinate)
    : Coordinate :=
  let cos := Math_cos angle in
  let sin := Math_sin angle in
  let anchorX := fst anchor in
  let anchorY := snd anchor in
  let deltaX := (fst c - anchorX)%js in
  let deltaY := (snd c - anchorY)%js in
  ((anchorX + deltaX * cos - deltaY * sin)%js,
   (anchorY + deltaX * sin + deltaY * cos)%js).

(** Modelled from the spec: "union the bounding extents of all input
    geometries" (ol/extent.js and ol/source/Vector.js are not under src/);
    features without a geometry do not count. *)
Definition extendCoordinate (extent : Extent) (c : Coordinate) : Extent :=
  let '(minX, minY, maxX, maxY) := extent in
  (Math_min minX (fst c), Math_min minY (snd c),
   Math_max maxX (fst c), Math_max maxY (snd c)).

Definition createEmpty : Extent := (PInf, PInf, NInf, NInf).

Definition flat_getExtent (geometries : list (option FlatGeometry))
    : Extent :=
  fold_left
    (fun extent g =>
       match g with
       | Some cs => fold_left extendCoordinate cs extent
       | None => extent
       end)
    geometries createEmpty.

#[export] Instance FlatGeometryOps : GeometryOps FlatGeometry := {
  Geometry_rotate angle anchor cs := rotate_coordinate angle anchor <$> cs;
  Point c := [c];
  getCoordinates cs := hd (NaN, NaN) cs;
  VectorSource_getExtent := flat_getExtent
}.

(** ** Example worlds *)

Definition always {A} (_ : A) : bool := true.

(** An interaction with the options [features] and [pivote] given; the
    collection holds feature 1, the pivot marker is feature 0. *)
Definition idle_rotate : Rotate :=
  {| lastCoordinate_ := None;
     startCoordinate_ := None;
     features_ := Some [1%nat];
     layerFilter_ := always;
     filter_ := fun _ => always;
     condition_ := always;
     lastFeature_ := None;
     pivote_1 := 0%nat;
     coordinate_ := None;
     feature_ := js_undefined;
     first_ := false |}.

Definition pivote_at (c : Coordinate) : Feature FlatGeometry :=
  mkFeature (IdString PIVOTE_1_ID) (Some (Point c)).

Definition square : FlatGeometry :=
  [(Num 0, Num 0); (Num 2, Num 0); (Num 2, Num 2); (Num 0, Num 2)].

Definition moved_square : FlatGeometry :=
  [(Num 4, Num 0); (Num 6, Num 0); (Num 6, Num 2); (Num 4, Num 2)].

(** No session is open; feature "a" has been moved since its baseline was
    stored, and a press that hit nothing has left its coordinate behind. *)
Definition idle_world : World FlatGeometry :=
  {| this := set_coordinate_ (Some (Num 9, Num 9)) idle_rotate;
     feature_original :=
       {[ "a"%string := mkFeature IdUndefined (Some square) ]};
     predioEdicionSelected := ∅;
     heap := {[ 0%nat := pivote_at (Num 1, Num 1);
                1%nat := mkFeature (IdString "a") (Some moved_square) ]};
     source_cartodi_pivote_ := Some [0%nat];
     classList := [];
     dispatched := [] |}.

Definition release_event : MapBrowserEvent :=
  {| originalEvent := true; coordinate := (Num 9, Num 9); atPixel := [] |}.

(** A session opened by a press at (2, 2) on feature "a", the interaction
    having been built without the [features] option; the pivot marker
    sits at the centre (1, 1) of the square. *)
Definition dragging_rotate : Rotate :=
  {| lastCoordinate_ := Some (Num 2, Num 2);
     startCoordinate_ := Some (Num 2, Num 2);
     features_ := None;
     layerFilter_ := always;
     filter_ := fun _ => always;
     condition_ := always;
     lastFeature_ := Some 1%nat;
     pivote_1 := 0%nat;
     coordinate_ := Some (Num 2, Num 2);
     feature_ := js_undefined;
     first_ := false |}.

Definition dragging_world : World FlatGeometry :=
  {| this := dragging_rotate;
     feature_original := ∅;
     predioEdicionSelected := ∅;
     heap := {[ 0%nat := pivote_at (Num 1, Num 1);
                1%nat := mkFeature (IdString "a") (Some square) ]};
     source_cartodi_pivote_ := Some [0%nat];
     classList := ["ol-grabbing"%string];
     dispatched := [] |}.

(** A second press, at (2, 0), where no feature lies. *)
Definition second_press : MapBrowserEvent :=
  {| originalEvent := true; coordinate := (Num 2, Num 0); atPixel := [] |}.

Definition drag_to (c : Coordinate) : MapBrowserEvent :=
  {| originalEvent := true; coordinate := c; atPixel := [] |}.

(** A session over a collection that holds the pivot marker itself
    (feature 0), feature "a" and a feature of the caller (feature 2) that
    happens to be called PIVOTE_1_ID. *)
Definition crowded_world : World FlatGeometry :=
  {| this :=
       mkRotate (Some (Num 2, Num 2)) (Some (Num 2, Num 2))
         (Some [0%nat; 1%nat; 2%nat]) always (fun _ => always) always
         (Some 1%nat) 0%nat (Some (Num 2, Num 2)) js_undefined false;
     feature_original := ∅;
     predioEdicionSelected := ∅;
     heap := {[ 0%nat := pivote_at (Num 1, Num 1);
                1%nat := mkFeature (IdString "a") (Some square);
                2%nat := mkFeature (IdString PIVOTE_1_ID)
                           (Some moved_square) ]};
     source_cartodi_pivote_ := Some [0%nat];
     classList := ["ol-grabbing"%string];
     dispatched := [] |}.

(** A feature with the numeric identifier 5: a segment through the
    origin, where its pivot marker sits.  The session was opened by a
    press at (1, 1), at azimuth 45; (1, -1) lies at azimuth 135. *)
Definition segment : FlatGeometry := [(Num 1, Num 0); (Num (-1), Num 0)].

(** The segment after a quarter turn, clockwise. *)
Definition turned_segment : FlatGeometry :=
  [(Num 0, Num (-1)); (Num 0, Num 1)].

Definition numeric_rotate (last : Coordinate) : Rotate :=
  {| lastCoordinate_ := Some last;
     startCoordinate_ := Some (Num 1, Num 1);
     features_ := Some [1%nat];
     layerFilter_ := always;
     filter_ := fun _ => always;
     condition_ := always;
     lastFeature_ := Some 1%nat;
     pivote_1 := 0%nat;
     coordinate_ := Some (Num 1, Num 1);
     feature_ := js_undefined;
     first_ := false |}.

Definition rotating_to (c : Coordinate) : RotateEvent :=
  mkRotateEvent ROTATING [Some 1%nat] c (Some (Num 1, Num 1)) (drag_to c).

Definition numeric_world : World FlatGeometry :=
  {| this := numeric_rotate (Num 1, Num 1);
     feature_original := ∅;
     predioEdicionSelected := ∅;
     heap := {[ 0%nat := pivote_at (Num 0, Num 0);
                1%nat := mkFeature (IdNumber 5) (Some segment) ]};
     source_cartodi_pivote_ := Some [0%nat];
     classList := ["ol-grabbing"%string];
     dispatched := [] |}.

(** The world after a first drag update, to the press coordinate. *)
Definition numeric_world_first : World FlatGeometry :=
  {| this := numeric_rotate (Num 1, Num 1);
     feature_original :=
       {[ "5"%string := mkFeature IdUndefined (Some segment) ]};
     predioEdicionSelected := {[ "5"%string := 1%nat ]};
     heap := {[ 0%nat := pivote_at (Num 0, Num 0);
                1%nat := mkFeature (IdNumber 5) (Some segment) ]};
     source_cartodi_pivote_ := Some [0%nat];
     classList := ["ol-grabbing"%string];
     dispatched := [rotating_to (Num 1, Num 1)] |}.

(** Then after a drag update to (1, -1). *)
Definition numeric_world_second : World FlatGeometry :=
  {| this := numeric_rotate (Num 1, Num (-1));
     feature_original :=
       {[ "5"%string := mkFeature IdUndefined (Some segment) ]};
     predioEdicionSelected := {[ "5"%string := 1%nat ]};
     heap := {[ 0%nat := pivote_at (Num 0, Num 0);
                1%nat := mkFeature (IdNumber 5) (Some turned_segment) ]};
     source_cartodi_pivote_ := Some [0%nat];
     classList := ["ol-grabbing"%string];
     dispatched := [rotating_to (Num 1, Num 1); rotating_to (Num 1, Num (-1))] |}.

(** Then after a drag update back to the press coordinate. *)
Definition numeric_world_third : World FlatGeometry :=
  {| this := numeric_rotate (Num 1, Num 1);
     feature_original :=
       {[ "5"%string := mkFeature IdUndefined (Some turned_segment) ]};
     predioEdicionSelected := {[ "5"%string := 1%nat ]};
     heap := {[ 0%nat := pivote_at (Num 0, Num 0);
                1%nat := mkFeature (IdNumber 5) (Some turned_segment) ]};
     source_cartodi_pivote_ := Some [0%nat];
     classList := ["ol-grabbing"%string];
     dispatched := [rotating_to (Num 1, Num 1); rotating_to (Num 1, Num (-1));
                    rotating_to (Num 1, Num 1)] |}.

(** The crowded session once a baseline of "a" is in the cache while its
    present geometry is another. *)
Definition cached_world : World FlatGeometry :=
  with_heap (<[1%nat := mkFeature (IdString "a") (Some moved_square)]>)
    (with_feature_original
       (<["a"%string := mkFeature IdUndefined (Some square)]>)
       crowded_world).

(** A freshly constructed interaction without the [features] option,
    before any press. *)
Definition fresh_world : World FlatGeometry :=
  {| this := mkRotate None None None always (fun _ => always) always None
               0%nat None js_undefined true;
     feature_original := ∅;
     predioEdicionSelected := ∅;
     heap := {[ 0%nat := mkFeature IdUndefined None ]};
     source_cartodi_pivote_ := Some [];
     classList := [];
     dispatched := [] |}.

(** ** Hit testing *)

(** A candidate under the pointer that [featuresAtPixel_] lets through
    as the feature [a]: a feature (no render feature) on a layer that
    [layerFilter_] accepts, that [filter_] accepts, and that belongs to
    the collection when there is one. *)
Definition rotable (r : Rotate) (candidate : FeatureLike * Layer) (a : addr)
    : Prop :=
  candidate.1 = FeatureRef a /\
  layerFilter_ r candidate.2 = true /\
  filter_ r a candidate.2 = true /\
  (forall collection, features_ r = Some collection -> a ∈ collection).

(** No feature under the pointer passes. *)
Definition none_rotable (r : Rotate) (candidates : list (FeatureLike * Layer))
    : Prop :=
  Forall (fun candidate => forall a, ~ rotable r candidate a) candidates.

(** A press at [c], where the feature [a] lies on layer 0 below a
    render feature. *)
Definition press_on (a : addr) (c : Coordinate) : MapBrowserEvent :=
  {| originalEvent := true;
     coordinate := c;
     atPixel := [(RenderFeature, 0%nat); (FeatureRef a, 0%nat)] |}.

(** ** What the loops meet *)

Section Outcomes.

Context {Geometry : Type} `{GeometryOps Geometry}.

(** Every element of the array is a reference to a feature. *)
Definition all_features (w : World Geometry) (array : list (option addr))
    : Prop :=
  Forall (fun x => exists a, x = Some a /\ is_Some (heap w !! a)) array.


(** The features of the array that carry no identifier, in the order
    of the array. *)
Definition without_identifier (w : World Geometry)
    (array : list (option addr)) : list addr :=
  omap
    (fun x =>
       a ← x; f ← heap w !! a;
       match getId f with IdUndefined => Some a | _ => None end)
    array.

(** The source holds a feature that carries the identifier of the pivot
    marker. *)
Definition holds_PIVOTE_1_ID (w : World Geometry) (source : list addr)
    : Prop :=
  exists b f,
    b ∈ source /\ heap w !! b = Some f /\ getId f = IdString PIVOTE_1_ID.

(** Every feature of the array carries a plain identifier. *)
Definition plain_ids (w : World Geometry) (array : list (option addr))
    : Prop :=
  forall a f, Some a ∈ array -> heap w !! a = Some f -> plain_id (getId f).

(** The array holds a feature [f] that a release stores under the
    key [s]. *)
Definition commits (w : World Geometry) (array : list (option addr))
    (s : string) (f : Feature Geometry) : Prop :=
  exists a,
    Some a ∈ array /\ heap w !! a = Some f /\
    is_PIVOTE_1_ID (getId f) = false /\ property_key (getId f) = s.

(** The cache after the loop of a release that started in [w]: under
    every key either what was there, no feature of the array being
    stored under it, or the clone of a feature of the array that is. *)
Definition committed (w : World Geometry) (array : list (option addr))
    (cache : gmap string (Feature Geometry)) : Prop :=
  forall s,
    (cache !! s = feature_original w !! s /\
     forall f, ~ commits w array s f) \/
    (exists f, commits w array s f /\ cache !! s = Some (Feature_clone f)).

(** What the loop of a drag update that started in [w0] keeps: the
    fields of the interaction, the events, the cursor and the pivot
    source; the features outside the active array; the identifier of
    every feature; and the keys of the two dictionaries. *)
Definition drag_frame (w0 w : World Geometry) : Prop :=
  this w = this w0 /\
  dispatched w = dispatched w0 /\
  classList w = classList w0 /\
  source_cartodi_pivote_ w = source_cartodi_pivote_ w0 /\
  (forall b, Some b ∉ features_getArray (this w0) ->
             heap w !! b = heap w0 !! b) /\
  (forall a, getId <$> heap w !! a = getId <$> heap w0 !! a) /\
  (forall s, is_Some (feature_original w0 !! s) ->
             is_Some (feature_original w !! s)) /\
  (forall s, is_Some (predioEdicionSelected w0 !! s) ->
             is_Some (predioEdicionSelected w !! s)).

End Outcomes.

(** ** Construction *)

(** The [layers] option: a function, or an array of layers. *)
Inductive LayersOption : Type :=
| LayersFunction (layerFilter : Layer -> bool)
| LayersArray (layers : list Layer).

(** The options that the constructor reads.  [hitTolerance] belongs to
    the hit detection of the host, which [atPixel] stands for, and
    [cartodi] is the object with the two dictionaries of the world. *)
Record Options : Type := mkOptions {
  options_condition : option (MapBrowserEvent -> bool);
  options_features : option (list addr);
  options_layers : option LayersOption;
  options_filter : option (addr -> Layer -> bool);
  options_pivote : option (list addr)
}.

(** Modelled from the spec: "always true" ([TRUE] of ol/functions.js is
    not under src/). *)
Definition TRUE {A} (_ : A) : bool := true.

(** The fields that [new Rotate(options)] sets, lines 141-269, given the
    reference to the feature created for [pivote_1]. *)
Definition Rotate_fields (options : Options) (pivote : addr) : Rotate :=
  let features_ := options_features options in
  let layerFilter :=
    match options_layers options with
    | Some layers =>
        if negb (truthy features_) then
          match layers with
          | LayersFunction layerFilter => layerFilter
          | LayersArray layers => fun layer => bool_decide (layer ∈ layers)
          end
        else TRUE
    | None => TRUE
    end in
  {| lastCoordinate_ := None;
     startCoordinate_ := None;
     features_ := features_;
     layerFilter_ := layerFilter;
     filter_ :=
       match options_filter options with
       | Some filter => if negb (truthy features_) then filter
                        else fun _ => TRUE
       | None => fun _ => TRUE
       end;
     condition_ :=
       match options_condition options with
       | Some condition => condition
       | None => always
       end;
     lastFeature_ := None;
     pivote_1 := pivote;
     coordinate_ := None;
     feature_ := js_undefined;
     first_ := true |}.

Section Construction.

Context {Geometry : Type} `{GeometryOps Geometry}.


End Construction.


(** Options with a collection, and with layers and a filter that accept
    nothing. *)
Definition collection_and_filters : Options :=
  {| options_condition := None;
     options_features := Some [1%nat];
     options_layers := Some (LayersArray []);
     options_filter := Some (fun _ _ => false);
     options_pivote := Some [] |}.


(** * Properties *)

(** ** Numbers *)

Local Open Scope R_scope.

Lemma Number_gt_Num x y : (Num x >? Num y)%js = true <-> y < x.
Proof. simpl. destruct (Rlt_dec y x); split; intros; (congruence || lra). Qed.

Lemma Number_gt_true x y : y < x -> (Num x >? Num y)%js = true.
Proof. apply Number_gt_Num. Qed.

Lemma Number_gt_false x y : x <= y -> (Num x >? Num y)%js = false.
Proof. intros Hxy. simpl. destruct (Rlt_dec y x); [lra | reflexivity]. Qed.

Lemma Number_lt_true x y : x < y -> (Num x <? Num y)%js = true.
Proof. apply Number_gt_true. Qed.

Lemma Number_lt_false x y : y <= x -> (Num x <? Num y)%js = false.
Proof. apply Number_gt_false. Qed.

Lemma Number_div_Num x y : y <> 0 -> (Num x / Num y)%js = Num (x / y).
Proof.
  intros Hy. simpl. unfold Rsign.
  destruct (Rlt_dec 0 y); [reflexivity |].
  destruct (Rlt_dec y 0); [reflexivity | lra].
Qed.

(** The conversion to degrees at the end of [getAzimut]. *)
Lemma to_degrees a : (Num a * Num 180 / Math_PI)%js = Num (a * 180 / PI).
Proof. unfold Math_PI. simpl Number_mul. apply Number_div_Num, PI_neq0. Qed.

(** ** Azimuth *)

(** The four branches of [getAzimut] and its fall-through. *)
Lemma getAzimut_first x1 y1 x2 y2 :
  0 < x2 - x1 -> 0 < y2 - y1 ->
  getAzimut (Num x1, Num y1) (Num x2, Num y2)
  = Num (atan ((x2 - x1) / (y2 - y1)) * 180 / PI).
Proof.
  intros Hdx Hdy. unfold getAzimut. cbn [fst snd Number_sub].
  rewrite !Number_gt_true by assumption. cbn [andb].
  rewrite Number_div_Num by lra. cbn [Math_atan]. apply to_degrees.
Qed.

Lemma getAzimut_fourth x1 y1 x2 y2 :
  0 < x2 - x1 -> y2 - y1 < 0 ->
  getAzimut (Num x1, Num y1) (Num x2, Num y2)
  = Num ((atan ((x2 - x1) / (y2 - y1)) + PI) * 180 / PI).
Proof.
  intros Hdx Hdy. unfold getAzimut. cbn [fst snd Number_sub].
  rewrite Number_gt_true by assumption.
  rewrite Number_gt_false by lra. rewrite Number_lt_true by assumption.
  cbn [andb]. rewrite Number_div_Num by lra.
  cbn [Math_atan Math_PI Number_add]. apply to_degrees.
Qed.

Lemma getAzimut_third x1 y1 x2 y2 :
  x2 - x1 < 0 -> y2 - y1 < 0 ->
  getAzimut (Num x1, Num y1) (Num x2, Num y2)
  = Num ((atan ((x2 - x1) / (y2 - y1)) + PI) * 180 / PI).
Proof.
  intros Hdx Hdy. unfold getAzimut. cbn [fst snd Number_sub].
  rewrite (Number_gt_false (x2 - x1)) by lra.
  rewrite !Number_lt_true by assumption.
  cbn [andb]. rewrite Number_div_Num by lra.
  cbn [Math_atan Math_PI Number_add]. apply to_degrees.
Qed.

Lemma getAzimut_second x1 y1 x2 y2 :
  x2 - x1 < 0 -> 0 < y2 - y1 ->
  getAzimut (Num x1, Num y1) (Num x2, Num y2)
  = Num ((atan ((x2 - x1) / (y2 - y1)) + 2 * PI) * 180 / PI).
Proof.
  intros Hdx Hdy. unfold getAzimut. cbn [fst snd Number_sub].
  rewrite (Number_gt_false (x2 - x1)) by lra.
  rewrite (Number_lt_true (x2 - x1)) by assumption.
  rewrite (Number_lt_false (y2 - y1)) by lra.
  rewrite (Number_gt_true (y2 - y1)) by assumption.
  cbn [andb]. rewrite Number_div_Num by lra.
  cbn [Math_atan Math_PI Number_add Number_mul]. apply to_degrees.
Qed.

Lemma getAzimut_axis x1 y1 x2 y2 :
  x2 - x1 = 0 \/ y2 - y1 = 0 ->
  getAzimut (Num x1, Num y1) (Num x2, Num y2) = Num 0.
Proof.
  intros Haxis. unfold getAzimut. cbn [fst snd Number_sub].
  assert (Hno : forall b1 b2 b3 b4 : bool,
             b1 && b2 = false -> b1 && b3 = false ->
             b4 && b3 = false -> b4 && b2 = false ->
             forall u v t : number,
               (if b1 && b2 then u else if b1 && b3 then v
                else if b4 && b3 then v else if b4 && b2 then t
                else Num 0) = Num 0).
  { intros b1 b2 b3 b4 -> -> -> ->. reflexivity. }
  rewrite Hno.
  - rewrite to_degrees. f_equal. unfold Rdiv. ring.
  - destruct Haxis as [-> | ->];
      [rewrite (Number_gt_false 0 0) by lra; reflexivity
      |rewrite (Number_gt_false 0 0) by lra; apply andb_false_r].
  - destruct Haxis as [-> | ->];
      [rewrite (Number_gt_false 0 0) by lra; reflexivity
      |rewrite (Number_lt_false 0 0) by lra; apply andb_false_r].
  - destruct Haxis as [-> | ->];
      [rewrite (Number_lt_false 0 0) by lra; reflexivity
      |rewrite (Number_lt_false 0 0) by lra; apply andb_false_r].
  - destruct Haxis as [-> | ->];
      [rewrite (Number_lt_false 0 0) by lra; reflexivity
      |rewrite (Number_gt_false 0 0) by lra; apply andb_false_r].
Qed.

(** The two azimuths used in the examples. *)
Lemma getAzimut_45 : getAzimut (Num 0, Num 0) (Num 1, Num 1) = Num 45.
Proof.
  rewrite getAzimut_first by lra. f_equal.
  replace ((1 - 0) / (1 - 0)) with 1 by (field; lra).
  rewrite atan_1. field. apply PI_neq0.
Qed.

Lemma getAzimut_135 : getAzimut (Num 0, Num 0) (Num 1, Num (-1)) = Num 135.
Proof.
  rewrite getAzimut_fourth by lra. f_equal.
  replace ((1 - 0) / (-1 - 0)) with (Ropp 1) by (field; lra).
  rewrite atan_opp, atan_1. field. apply PI_neq0.
Qed.

(** The angle of [handleDragEvent] as the two statements compute it. *)
Lemma angulo_en_radiane_Num (s c : R) :
  angulo_en_radiane (Num s) (Num c) = Num ((s - c) * -1 * PI / -180).
Proof.
  unfold angulo_en_radiane, Math_PI. cbn [Number_sub Number_mul].
  apply Number_div_Num. lra.
Qed.

(** C1 (amended).  For every start azimuth [s] and current azimuth [c] in
    degrees, the angle that [handleDragEvent] hands to [geometria.rotate]
    is [(s - c) * PI / 180] radians: the difference is negated once by
    [* -1] and once more by [/ -180]. *)
Theorem angulo_en_radiane_value (s c : R) :
  angulo_en_radiane (Num s) (Num c) = Num ((s - c) * PI / 180).
Proof. rewrite angulo_en_radiane_Num. f_equal. field. Qed.

(** C1 as stated fails: from start azimuth 90 to current azimuth 0 the
    angle is not [-(90 - 0) * PI / 180]. *)
Lemma angulo_en_radiane_not_negated :
  angulo_en_radiane (Num 90) (Num 0) <> Num (- (90 - 0) * PI / 180).
Proof.
  rewrite angulo_en_radiane_Num. intros Heq. injection Heq as Heq.
  pose proof PI_RGT_0. lra.
Qed.

(** C4 (the code at the failing inputs).  A target due east, due south or
    due west of the origin gets azimuth 0, as a target due north does:
    no branch of [getAzimut] takes a vector on an axis. *)
Theorem getAzimut_on_axis_is_0 :
  getAzimut (Num 0, Num 0) (Num 0, Num 1) = Num 0 /\
  getAzimut (Num 0, Num 0) (Num 1, Num 0) = Num 0 /\
  getAzimut (Num 0, Num 0) (Num 0, Num (-1)) = Num 0 /\
  getAzimut (Num 0, Num 0) (Num (-1), Num 0) = Num 0.
Proof. repeat split; apply getAzimut_axis; lra. Qed.

(** ** Within the range of binary64 *)

Lemma overflow_threshold_large : 100000 < overflow_threshold.
Proof. unfold overflow_threshold. apply IZR_lt. reflexivity. Qed.

Lemma overflow_Num r : ~ overflows r -> overflow (Num r) = Num r.
Proof.
  unfold overflows, overflow. intros Hr.
  destruct (Rle_dec overflow_threshold r) as [Hle | _].
  - exfalso. apply Hr. rewrite Rabs_right; [exact Hle |].
    pose proof overflow_threshold_large. lra.
  - destruct (Rle_dec r (- overflow_threshold)) as [Hle | _]; [| reflexivity].
    exfalso. apply Hr. rewrite Rabs_left; [lra |].
    pose proof overflow_threshold_large. lra.
Qed.

Lemma overflow_small r : Rabs r <= 100000 -> overflow (Num r) = Num r.
Proof.
  intros Hr. apply overflow_Num. unfold overflows.
  pose proof overflow_threshold_large. lra.
Qed.

Lemma overflow_PInf r : overflow_threshold <= r -> overflow (Num r) = PInf.
Proof.
  intros Hr. unfold overflow.
  destruct (Rle_dec overflow_threshold r); [reflexivity | contradiction].
Qed.

Lemma overflow_NInf r : r <= - overflow_threshold -> overflow (Num r) = NInf.
Proof.
  intros Hr. unfold overflow. pose proof overflow_threshold_large.
  destruct (Rle_dec overflow_threshold r); [lra |].
  destruct (Rle_dec r (- overflow_threshold)); [reflexivity | contradiction].
Qed.

Lemma overflow_not_negative r : 0 <= r -> not_negative (overflow (Num r)).
Proof.
  intros Hr. unfold overflow. pose proof overflow_threshold_large.
  destruct (Rle_dec overflow_threshold r); [exact I |].
  destruct (Rle_dec r (- overflow_threshold)); [lra | exact Hr].
Qed.

Lemma overflow_not_positive r : r <= 0 -> not_positive (overflow (Num r)).
Proof.
  intros Hr. unfold overflow. pose proof overflow_threshold_large.
  destruct (Rle_dec overflow_threshold r); [lra |].
  destruct (Rle_dec r (- overflow_threshold)); [exact I | exact Hr].
Qed.

Lemma Math_atan_not_negative a :
  not_negative a ->
  exists alpha, Math_atan a = Num alpha /\ 0 <= alpha <= PI / 2.
Proof.
  destruct a as [r | | |]; simpl; intros Ha; try contradiction.
  - exists (atan r). split; [reflexivity |].
    pose proof (atan_bound r) as [_ Hup]. split; [| lra].
    destruct Ha as [Hr | <-]; [| rewrite atan_0; lra].
    pose proof (atan_increasing 0 r Hr) as Hlow. rewrite atan_0 in Hlow. lra.
  - exists (PI / 2). split; [reflexivity |]. pose proof PI_RGT_0. lra.
Qed.

Lemma Math_atan_not_positive a :
  not_positive a ->
  exists alpha, Math_atan a = Num alpha /\ - (PI / 2) <= alpha <= 0.
Proof.
  destruct a as [r | | |]; simpl; intros Ha; try contradiction.
  - exists (atan r). split; [reflexivity |].
    pose proof (atan_bound r) as [Hlow _]. split; [lra |].
    destruct Ha as [Hr | ->]; [| rewrite atan_0; lra].
    pose proof (atan_increasing r 0 Hr) as Hup. rewrite atan_0 in Hup. lra.
  - exists (- (PI / 2)). split; [reflexivity |]. pose proof PI_RGT_0. lra.
Qed.

Lemma Overflow_sub_difference x1 x2 :
  difference (x2 - x1) (Overflow.sub (Num x2) (Num x1)).
Proof.
  unfold Overflow.sub. cbn [Number_sub].
  destruct (Rle_dec overflow_threshold (x2 - x1)) as [Hp | Hp].
  { rewrite overflow_PInf by exact Hp. constructor. exact Hp. }
  destruct (Rle_dec (x2 - x1) (- overflow_threshold)) as [Hn | Hn].
  { rewrite overflow_NInf by exact Hn. constructor. exact Hn. }
  rewrite overflow_Num; [constructor |]; unfold overflows;
    intros Ha; unfold Rabs in Ha; destruct (Rcase_abs (x2 - x1)); lra.
Qed.

Lemma difference_gt d D :
  difference d D -> Number_gt D (Num 0) = (if Rlt_dec 0 d then true else false).
Proof.
  pose proof overflow_threshold_large.
  intros [Hd | Hd | Hd]; simpl; destruct (Rlt_dec 0 d); try reflexivity; lra.
Qed.

Lemma difference_lt d D :
  difference d D -> Number_lt D (Num 0) = (if Rlt_dec d 0 then true else false).
Proof.
  pose proof overflow_threshold_large.
  intros [Hd | Hd | Hd]; simpl; destruct (Rlt_dec d 0); try reflexivity; lra.
Qed.

Lemma difference_infinite d D :
  difference d D -> (D = PInf \/ D = NInf) <-> overflows d.
Proof.
  pose proof overflow_threshold_large.
  intros [Hd | Hd | Hd].
  - split; [intros [[=] | [=]] | intros Ho; contradiction].
  - split; [| auto]. intros _. unfold overflows. rewrite Rabs_right; lra.
  - split; [| auto]. intros _. unfold overflows. rewrite Rabs_left; lra.
Qed.

(** The quotient of two differences that are not zero and not both
    infinite has the sign of the exact quotient. *)
Lemma Overflow_div_sign dx dy DX DY :
  difference dx DX -> difference dy DY ->
  dx <> 0 -> dy <> 0 ->
  ~ (overflows dx /\ overflows dy) ->
  (0 < dx / dy -> not_negative (Overflow.div DX DY)) /\
  (dx / dy < 0 -> not_positive (Overflow.div DX DY)).
Proof.
  pose proof overflow_threshold_large as Hlarge.
  intros HDX HDY Hdx Hdy Hboth. unfold Overflow.div.
  assert (Hsign : forall u v : R, v <> 0 ->
            (0 < u / v <-> (0 < u /\ 0 < v) \/ (u < 0 /\ v < 0)) /\
            (u / v < 0 <-> (0 < u /\ v < 0) \/ (u < 0 /\ 0 < v))).
  { intros u v Hv.
    destruct (Rtotal_order u 0) as [Hu | [-> | Hu]];
      (destruct (Rtotal_order v 0) as [Hv' | [Hv' | Hv']];
       [| contradiction |]).
    - assert (0 < u / v)
        by (replace (u / v) with (- u / - v) by (field; lra);
            apply Rdiv_lt_0_compat; lra).
      split; split; intros; lra.
    - assert (u / v < 0) by (apply Rdiv_neg_pos; lra).
      split; split; intros; lra.
    - replace (0 / v) with 0 by (field; lra). intuition lra.
    - replace (0 / v) with 0 by (field; lra). intuition lra.
    - assert (u / v < 0) by (apply Rdiv_pos_neg; lra).
      split; split; intros; lra.
    - assert (0 < u / v) by (apply Rdiv_lt_0_compat; lra).
      split; split; intros; lra. }
  destruct (Hsign dx dy Hdy) as [Hpos Hneg].
  assert (Hzero : not_negative (overflow (Num 0)) /\
                  not_positive (overflow (Num 0)))
    by (split; [apply overflow_not_negative | apply overflow_not_positive];
        lra).
  destruct HDX as [Hx | Hx | Hx]; destruct HDY as [Hy | Hy | Hy];
    try (exfalso; apply Hboth; unfold overflows, Rabs;
         destruct (Rcase_abs dx); destruct (Rcase_abs dy); lra).
  - rewrite Number_div_Num by exact Hdy.
    split; intros Ht;
      [apply overflow_not_negative | apply overflow_not_positive]; lra.
  - cbn [Number_div]. tauto.
  - cbn [Number_div]. tauto.
  - cbn [Number_div]. unfold Rsign.
    destruct (Rlt_dec 0 dy); [| destruct (Rlt_dec dy 0)]; cbn;
      split; intros Ht; try exact I;
      apply Hpos in Ht || apply Hneg in Ht; intuition lra.
  - cbn [Number_div]. unfold Rsign.
    destruct (Rlt_dec 0 dy); [| destruct (Rlt_dec dy 0)]; cbn;
      split; intros Ht; try exact I;
      apply Hpos in Ht || apply Hneg in Ht; intuition lra.
Qed.

(** The conversion to degrees at the end of [getAzimut], for an angle of
    a few radians. *)
Lemma Overflow_to_degrees a :
  Rabs a <= 10 ->
  Overflow.div (Overflow.mul (Num a) (Num 180)) Math_PI
  = Num (a * 180 / PI).
Proof.
  intros Ha. pose proof PI2_3_2 as HPI. pose proof PI_4 as HPI4.
  assert (Habs : forall r, Rabs r <= 10 -> -10 <= r <= 10)
    by (intros r Hr; unfold Rabs in Hr; destruct (Rcase_abs r); lra).
  apply Habs in Ha.
  unfold Overflow.mul, Overflow.div, Math_PI. cbn [Number_mul].
  rewrite overflow_small by (apply Rabs_le; lra).
  rewrite Number_div_Num by lra.
  apply overflow_small. apply Rabs_le.
  assert (Hinv : 0 < / PI <= 1).
  { split; [apply Rinv_0_lt_compat; lra |].
    rewrite <- Rinv_1. apply Rinv_le_contravar; lra. }
  unfold Rdiv. split; nra.
Qed.

Lemma Overflow_two_PI : Overflow.mul (Num 2) Math_PI = Num (2 * PI).
Proof.
  unfold Overflow.mul, Math_PI. cbn [Number_mul].
  apply overflow_small. pose proof PI_4. pose proof PI_RGT_0.
  apply Rabs_le. lra.
Qed.

Lemma Overflow_add_PI t :
  Rabs t <= 5 -> Overflow.add (Num t) Math_PI = Num (t + PI).
Proof.
  intros Ht. unfold Overflow.add, Math_PI. cbn [Number_add].
  apply overflow_small. pose proof PI_4. pose proof PI_RGT_0.
  pose proof (Rabs_triang t PI). rewrite (Rabs_right PI) in * by lra. lra.
Qed.

Lemma Overflow_add_two_PI t :
  Rabs t <= 5 ->
  Overflow.add (Num t) (Overflow.mul (Num 2) Math_PI) = Num (t + 2 * PI).
Proof.
  intros Ht. rewrite Overflow_two_PI.
  unfold Overflow.add. cbn [Number_add].
  apply overflow_small. pose proof PI_4. pose proof PI_RGT_0.
  pose proof (Rabs_triang t (2 * PI)).
  rewrite (Rabs_right (2 * PI)) in * by lra. lra.
Qed.

Lemma Rabs_le_5 r : -5 <= r <= 5 -> Rabs r <= 5.
Proof. intros Hr. apply Rabs_le. lra. Qed.

Lemma Rabs_le_10 r : -10 <= r <= 10 -> Rabs r <= 10.
Proof. intros Hr. apply Rabs_le. lra. Qed.

(** The azimuth of a target on an axis, or exactly at the origin. *)
Lemma Overflow_getAzimut_axis x1 y1 x2 y2 :
  x2 - x1 = 0 \/ y2 - y1 = 0 ->
  Overflow.getAzimut (Num x1, Num y1) (Num x2, Num y2) = Num 0.
Proof.
  intros Haxis. unfold Overflow.getAzimut. cbn [fst snd].
  pose proof (Overflow_sub_difference x1 x2) as HDX.
  pose proof (Overflow_sub_difference y1 y2) as HDY.
  rewrite (difference_gt _ _ HDX), (difference_lt _ _ HDX),
    (difference_gt _ _ HDY), (difference_lt _ _ HDY).
  assert (Hzero : Overflow.div (Overflow.mul (Num 0) (Num 180)) Math_PI
                  = Num 0).
  { rewrite Overflow_to_degrees by (apply Rabs_le_10; lra).
    f_equal. unfold Rdiv. ring. }
  destruct Haxis as [Hx | Hy].
  - destruct (Rlt_dec 0 (x2 - x1)); [lra |].
    destruct (Rlt_dec (x2 - x1) 0); [lra |]. cbn [andb]. exact Hzero.
  - destruct (Rlt_dec 0 (y2 - y1)); [lra |].
    destruct (Rlt_dec (y2 - y1) 0); [lra |].
    rewrite !andb_false_r. exact Hzero.
Qed.

(** The azimuth off the axes when the two differences do not both
    overflow: the arctangent is a number [t] of the sign of [dx / dy],
    at most a quarter turn, and the azimuth is what the branch for the
    signs of [dx] and [dy] makes of it. *)
Lemma Overflow_getAzimut_off_axes x1 y1 x2 y2 :
  x2 - x1 <> 0 -> y2 - y1 <> 0 ->
  ~ (overflows (x2 - x1) /\ overflows (y2 - y1)) ->
  exists t,
    Math_atan (Overflow.div (Overflow.sub (Num x2) (Num x1))
                 (Overflow.sub (Num y2) (Num y1)))
    = Num t /\
    (0 < x2 - x1 -> 0 < y2 - y1 ->
     0 <= t <= PI / 2 /\
     Overflow.getAzimut (Num x1, Num y1) (Num x2, Num y2)
     = Num (t * 180 / PI)) /\
    (0 < x2 - x1 -> y2 - y1 < 0 ->
     - (PI / 2) <= t <= 0 /\
     Overflow.getAzimut (Num x1, Num y1) (Num x2, Num y2)
     = Num ((t + PI) * 180 / PI)) /\
    (x2 - x1 < 0 -> y2 - y1 < 0 ->
     0 <= t <= PI / 2 /\
     Overflow.getAzimut (Num x1, Num y1) (Num x2, Num y2)
     = Num ((t + PI) * 180 / PI)) /\
    (x2 - x1 < 0 -> 0 < y2 - y1 ->
     - (PI / 2) <= t <= 0 /\
     Overflow.getAzimut (Num x1, Num y1) (Num x2, Num y2)
     = Num ((t + 2 * PI) * 180 / PI)).
Proof.
  intros Hdx Hdy Hboth.
  pose proof PI2_3_2 as HPI. pose proof PI_4 as HPI4.
  pose proof (Overflow_sub_difference x1 x2) as HDX.
  pose proof (Overflow_sub_difference y1 y2) as HDY.
  destruct (Overflow_div_sign _ _ _ _ HDX HDY Hdx Hdy Hboth) as [Hpos Hneg].
  unfold Overflow.getAzimut. cbn [fst snd].
  rewrite (difference_gt _ _ HDX), (difference_lt _ _ HDX),
    (difference_gt _ _ HDY), (difference_lt _ _ HDY).
  set (T := Overflow.div (Overflow.sub (Num x2) (Num x1))
              (Overflow.sub (Num y2) (Num y1))) in *.
  clearbody T. clear HDX HDY.
  assert (Hquotient : 0 < (x2 - x1) / (y2 - y1) \/ (x2 - x1) / (y2 - y1) < 0).
  { destruct (Rtotal_order ((x2 - x1) / (y2 - y1)) 0) as [Ht | [Ht | Ht]];
      [auto | | auto].
    exfalso. apply Hdx.
    replace (x2 - x1) with ((x2 - x1) / (y2 - y1) * (y2 - y1))
      by (field; exact Hdy).
    rewrite Ht. ring. }
  assert (Hsame : 0 < (x2 - x1) / (y2 - y1) ->
                  (0 < x2 - x1 /\ 0 < y2 - y1) \/ (x2 - x1 < 0 /\ y2 - y1 < 0)).
  { intros Ht.
    destruct (Rtotal_order (x2 - x1) 0) as [Hx | [Hx | Hx]]; [| lra |];
      (destruct (Rtotal_order (y2 - y1) 0) as [Hy | [Hy | Hy]]; [| lra |]);
      auto; exfalso.
    - assert ((x2 - x1) / (y2 - y1) < 0) by (apply Rdiv_neg_pos; lra). lra.
    - assert ((x2 - x1) / (y2 - y1) < 0) by (apply Rdiv_pos_neg; lra). lra. }
  assert (Hother : (x2 - x1) / (y2 - y1) < 0 ->
                   (0 < x2 - x1 /\ y2 - y1 < 0) \/ (x2 - x1 < 0 /\ 0 < y2 - y1)).
  { intros Ht.
    destruct (Rtotal_order (x2 - x1) 0) as [Hx | [Hx | Hx]]; [| lra |];
      (destruct (Rtotal_order (y2 - y1) 0) as [Hy | [Hy | Hy]]; [| lra |]);
      auto; exfalso.
    - assert (0 < (x2 - x1) / (y2 - y1)).
      { replace ((x2 - x1) / (y2 - y1)) with (- (x2 - x1) / - (y2 - y1))
          by (field; lra).
        apply Rdiv_lt_0_compat; lra. }
      lra.
    - assert (0 < (x2 - x1) / (y2 - y1))
        by (apply Rdiv_lt_0_compat; lra).
      lra. }
  destruct Hquotient as [Ht | Ht].
  - destruct (Math_atan_not_negative T (Hpos Ht)) as (t & -> & Hbound).
    exists t. split; [reflexivity |].
    destruct (Hsame Ht) as [[Hx Hy] | [Hx Hy]].
    + destruct (Rlt_dec 0 (x2 - x1)); [| lra].
      destruct (Rlt_dec 0 (y2 - y1)); [| lra]. cbn [andb].
      rewrite Overflow_to_degrees by (apply Rabs_le_10; lra).
      repeat split; intros; lra.
    + destruct (Rlt_dec 0 (x2 - x1)); [lra |].
      destruct (Rlt_dec (x2 - x1) 0); [| lra].
      destruct (Rlt_dec (y2 - y1) 0); [| lra]. cbn [andb].
      rewrite Overflow_add_PI by (apply Rabs_le_5; lra).
      rewrite Overflow_to_degrees by (apply Rabs_le_10; lra).
      repeat split; intros; lra.
  - destruct (Math_atan_not_positive T (Hneg Ht)) as (t & -> & Hbound).
    exists t. split; [reflexivity |].
    destruct (Hother Ht) as [[Hx Hy] | [Hx Hy]].
    + destruct (Rlt_dec 0 (x2 - x1)); [| lra].
      destruct (Rlt_dec 0 (y2 - y1)); [lra |].
      destruct (Rlt_dec (y2 - y1) 0); [| lra]. cbn [andb].
      rewrite Overflow_add_PI by (apply Rabs_le_5; lra).
      rewrite Overflow_to_degrees by (apply Rabs_le_10; lra).
      repeat split; intros; lra.
    + destruct (Rlt_dec 0 (x2 - x1)); [lra |].
      destruct (Rlt_dec (x2 - x1) 0); [| lra].
      destruct (Rlt_dec (y2 - y1) 0); [lra |].
      destruct (Rlt_dec 0 (y2 - y1)); [| lra]. cbn [andb].
      rewrite Overflow_add_two_PI by (apply Rabs_le_5; lra).
      rewrite Overflow_to_degrees by (apply Rabs_le_10; lra).
      repeat split; intros; lra.
Qed.

(** When both differences overflow the quotient is that of two
    infinities, and the azimuth is no number. *)
Lemma Overflow_getAzimut_NaN x1 y1 x2 y2 :
  overflows (x2 - x1) -> overflows (y2 - y1) ->
  Overflow.getAzimut (Num x1, Num y1) (Num x2, Num y2) = NaN.
Proof.
  intros Hx Hy. pose proof overflow_threshold_large as Hlarge.
  pose proof (Overflow_sub_difference x1 x2) as HDX.
  pose proof (Overflow_sub_difference y1 y2) as HDY.
  unfold Overflow.getAzimut. cbn [fst snd].
  rewrite (difference_gt _ _ HDX), (difference_lt _ _ HDX),
    (difference_gt _ _ HDY), (difference_lt _ _ HDY).
  apply (difference_infinite _ _ HDX) in Hx as Hx'.
  apply (difference_infinite _ _ HDY) in Hy as Hy'.
  assert (HT : Math_atan (Overflow.div (Overflow.sub (Num x2) (Num x1))
                            (Overflow.sub (Num y2) (Num y1))) = NaN)
    by (destruct Hx' as [-> | ->]; destruct Hy' as [-> | ->]; reflexivity).
  rewrite HT.
  assert (Hsign : forall d, overflows d -> 0 < d \/ d < 0).
  { intros d Hd. unfold overflows, Rabs in Hd.
    destruct (Rcase_abs d); lra. }
  destruct (Hsign _ Hx) as [Hsx | Hsx]; destruct (Hsign _ Hy) as [Hsy | Hsy];
    repeat match goal with
           | |- context [Rlt_dec ?a ?b] => destruct (Rlt_dec a b); try lra
           end;
    reflexivity.
Qed.

Lemma huge_overflows : overflows (huge - - huge).
Proof.
  unfold overflows, huge, overflow_threshold.
  rewrite <- opp_IZR, <- minus_IZR.
  rewrite Rabs_right by (apply Rle_ge, IZR_le; vm_compute; discriminate).
  apply IZR_le. vm_compute. discriminate.
Qed.

Lemma huge_positive : 0 < huge.
Proof. unfold huge. apply IZR_lt. reflexivity. Qed.

(** The arctangent of [getAzimut] where no operation before it
    overflows. *)
Lemma Overflow_quotient x1 y1 x2 y2 :
  ~ overflows (x2 - x1) -> ~ overflows (y2 - y1) -> y2 - y1 <> 0 ->
  ~ overflows ((x2 - x1) / (y2 - y1)) ->
  Math_atan (Overflow.div (Overflow.sub (Num x2) (Num x1))
               (Overflow.sub (Num y2) (Num y1)))
  = Num (atan ((x2 - x1) / (y2 - y1))).
Proof.
  intros Hx Hy Hy0 Hq. unfold Overflow.sub, Overflow.div.
  cbn [Number_sub]. rewrite !overflow_Num by assumption.
  rewrite Number_div_Num by assumption.
  rewrite overflow_Num by assumption. reflexivity.
Qed.

Lemma small_in_range r : Rabs r <= 100000 -> ~ overflows r.
Proof.
  intros Hr Ho. unfold overflows in Ho.
  pose proof overflow_threshold_large. lra.
Qed.

(** The four diagonal examples. *)
Lemma Overflow_getAzimut_diagonal (x y : R) :
  (x = 1 \/ x = -1) -> (y = 1 \/ y = -1) ->
  exists t,
    Overflow.getAzimut (Num 0, Num 0) (Num x, Num y) = Num t /\
    (x = 1 -> y = 1 -> t = 45) /\ (x = 1 -> y = -1 -> t = 135) /\
    (x = -1 -> y = -1 -> t = 225) /\ (x = -1 -> y = 1 -> t = 315).
Proof.
  intros Hx Hy.
  assert (Hsmall : forall r, -2 <= r <= 2 -> ~ overflows r).
  { intros r Hr. apply small_in_range, Rabs_le. lra. }
  assert (Hdx : ~ overflows (x - 0)) by (apply Hsmall; lra).
  assert (Hdy : ~ overflows (y - 0)) by (apply Hsmall; lra).
  assert (Hq : (x - 0) / (y - 0) = 1 \/ (x - 0) / (y - 0) = -1).
  { destruct Hx as [-> | ->], Hy as [-> | ->];
      [left | right | right | left]; field. }
  assert (Hqo : ~ overflows ((x - 0) / (y - 0))).
  { apply Hsmall. lra. }
  destruct (Overflow_getAzimut_off_axes 0 0 x y) as (t & Ht & H1 & H4 & H3 & H2);
    [lra | lra | tauto |].
  rewrite Overflow_quotient in Ht by (assumption || lra).
  injection Ht as <-.
  assert (Hm : atan (-1) = - (PI / 4)).
  { replace (-1) with (- (1)) by ring. rewrite atan_opp, atan_1. lra. }
  pose proof PI_neq0 as HPI.
  destruct Hx as [-> | ->], Hy as [-> | ->].
  - destruct H1 as [_ ->]; [lra | lra |]. eexists. split; [reflexivity |].
    repeat split; intros; try lra.
    replace ((1 - 0) / (1 - 0)) with 1 by (field; lra).
    rewrite atan_1. field. exact HPI.
  - destruct H4 as [_ ->]; [lra | lra |]. eexists. split; [reflexivity |].
    repeat split; intros; try lra.
    replace ((1 - 0) / (-1 - 0)) with (-1) by (field; lra).
    rewrite Hm. field. exact HPI.
  - destruct H2 as [_ ->]; [lra | lra |]. eexists. split; [reflexivity |].
    repeat split; intros; try lra.
    replace ((-1 - 0) / (1 - 0)) with (-1) by (field; lra).
    rewrite Hm. field. exact HPI.
  - destruct H3 as [_ ->]; [lra | lra |]. eexists. split; [reflexivity |].
    repeat split; intros; try lra.
    replace ((-1 - 0) / (-1 - 0)) with 1 by (field; lra).
    rewrite atan_1. field. exact HPI.
Qed.

(** The sector of each branch, boundaries included. *)
Lemma degrees_sector t lo hi :
  lo * PI / 180 <= t <= hi * PI / 180 -> lo <= t * 180 / PI <= hi.
Proof.
  intros Ht. pose proof PI_RGT_0 as HPI.
  assert (Hinv : 0 < / PI) by (apply Rinv_0_lt_compat; exact HPI).
  assert (Hone : PI * / PI = 1) by (apply Rinv_r; lra).
  assert (Hlo : lo = lo * PI * / PI) by (rewrite Rmult_assoc, Hone; ring).
  assert (Hhi : hi = hi * PI * / PI) by (rewrite Rmult_assoc, Hone; ring).
  unfold Rdiv in *. split.
  - rewrite Hlo. apply Rmult_le_compat_r; lra.
  - rewrite Hhi. apply Rmult_le_compat_r; lra.
Qed.

(** Where the two differences do not both overflow the azimuth is a
    number from 0 to 360. *)
Lemma Overflow_getAzimut_Num x1 y1 x2 y2 :
  ~ (overflows (x2 - x1) /\ overflows (y2 - y1)) ->
  exists a, Overflow.getAzimut (Num x1, Num y1) (Num x2, Num y2) = Num a /\
            0 <= a <= 360.
Proof.
  intros Hboth.
  destruct (Req_dec (x2 - x1) 0) as [Hx | Hx];
    [exists 0; split; [apply Overflow_getAzimut_axis; auto | lra] |].
  destruct (Req_dec (y2 - y1) 0) as [Hy | Hy];
    [exists 0; split; [apply Overflow_getAzimut_axis; auto | lra] |].
  destruct (Overflow_getAzimut_off_axes x1 y1 x2 y2 Hx Hy Hboth)
    as (t & _ & H1 & H4 & H3 & H2).
  pose proof PI_RGT_0 as HPI.
  destruct (Rtotal_order (x2 - x1) 0) as [Hx' | [Hx' | Hx']]; [| lra |];
    (destruct (Rtotal_order (y2 - y1) 0) as [Hy' | [Hy' | Hy']]; [| lra |]).
  - destruct (H3 Hx' Hy') as [Ht ->]. eexists. split; [reflexivity |].
    apply degrees_sector. lra.
  - destruct (H2 Hx' Hy') as [Ht ->]. eexists. split; [reflexivity |].
    apply degrees_sector. lra.
  - destruct (H4 Hx' Hy') as [Ht ->]. eexists. split; [reflexivity |].
    apply degrees_sector. lra.
  - destruct (H1 Hx' Hy') as [Ht ->]. eexists. split; [reflexivity |].
    apply degrees_sector. lra.
Qed.

(** The angle of [handleDragEvent] from two azimuths in degrees. *)
Lemma Overflow_angulo_en_radiane_Num (s c : R) :
  0 <= s <= 360 -> 0 <= c <= 360 ->
  Overflow.angulo_en_radiane (Num s) (Num c)
  = Num ((s - c) * -1 * PI / -180).
Proof.
  intros Hs Hc. pose proof PI_4 as HPI4. pose proof PI_RGT_0 as HPI.
  unfold Overflow.angulo_en_radiane, Overflow.sub, Overflow.mul,
    Overflow.div, Math_PI.
  cbn [Number_sub].
  rewrite overflow_small by (apply Rabs_le; lra).
  cbn [Number_mul].
  rewrite overflow_small by (apply Rabs_le; lra).
  cbn [Number_mul].
  rewrite overflow_small by (apply Rabs_le; nra).
  rewrite Number_div_Num by lra.
  apply overflow_small. apply Rabs_le.
  unfold Rdiv.
  replace (/ -180) with (- / 180) by (field; lra).
  nra.
Qed.

(** C5, as the code has it: off the axes, and unless both differences
    overflow, [getAzimut] returns a number of degrees in the quarter turn
    that the signs of [dx] and [dy] determine, boundaries included:
    the arctangent of [dx / dy] converted to degrees when both are
    positive, the arctangent plus [PI] when [dy] is negative, the
    arctangent plus [2 * PI] when [dx] is negative and [dy] positive.
    The four diagonal directions give 45, 135, 225 and 315. *)
Theorem getAzimut_sectors :
  (forall x1 y1 x2 y2 : R,
      x2 - x1 <> 0 -> y2 - y1 <> 0 ->
      ~ (overflows (x2 - x1) /\ overflows (y2 - y1)) ->
      let Az2 :=
        Math_atan (Overflow.div (Overflow.sub (Num x2) (Num x1))
                     (Overflow.sub (Num y2) (Num y1))) in
      let degrees azimut :=
        Overflow.div (Overflow.mul azimut (Num 180)) Math_PI in
      exists a : R,
        Overflow.getAzimut (Num x1, Num y1) (Num x2, Num y2) = Num a /\
        (0 < x2 - x1 -> 0 < y2 - y1 ->
         Num a = degrees Az2 /\ 0 <= a <= 90) /\
        (0 < x2 - x1 -> y2 - y1 < 0 ->
         Num a = degrees (Overflow.add Az2 Math_PI) /\ 90 <= a <= 180) /\
        (x2 - x1 < 0 -> y2 - y1 < 0 ->
         Num a = degrees (Overflow.add Az2 Math_PI) /\ 180 <= a <= 270) /\
        (x2 - x1 < 0 -> 0 < y2 - y1 ->
         Num a
         = degrees (Overflow.add Az2 (Overflow.mul (Num 2) Math_PI)) /\
         270 <= a <= 360)) /\
  Overflow.getAzimut (Num 0, Num 0) (Num 1, Num 1) = Num 45 /\
  Overflow.getAzimut (Num 0, Num 0) (Num 1, Num (-1)) = Num 135 /\
  Overflow.getAzimut (Num 0, Num 0) (Num (-1), Num (-1)) = Num 225 /\
  Overflow.getAzimut (Num 0, Num 0) (Num (-1), Num 1) = Num 315.
Proof.
  split.
  - intros x1 y1 x2 y2 Hdx Hdy Hboth Az2 degrees.
    destruct (Overflow_getAzimut_off_axes x1 y1 x2 y2 Hdx Hdy Hboth)
      as (t & Ht & H1 & H4 & H3 & H2).
    pose proof PI_RGT_0 as HPI. pose proof PI_4 as HPI4.
    subst Az2 degrees. cbv beta. rewrite Ht.
    assert (Hbound : - (PI / 2) <= t <= PI / 2).
    { destruct (Rtotal_order (x2 - x1) 0) as [Hx | [Hx | Hx]]; [| lra |];
        (destruct (Rtotal_order (y2 - y1) 0) as [Hy | [Hy | Hy]]; [| lra |]).
      - destruct (H3 Hx Hy) as [Hb _]. lra.
      - destruct (H2 Hx Hy) as [Hb _]. lra.
      - destruct (H4 Hx Hy) as [Hb _]. lra.
      - destruct (H1 Hx Hy) as [Hb _]. lra. }
    rewrite Overflow_add_PI, Overflow_add_two_PI by (apply Rabs_le_5; lra).
    rewrite !Overflow_to_degrees by (apply Rabs_le_10; lra).
    destruct (Rtotal_order (x2 - x1) 0) as [Hx | [Hx | Hx]]; [| lra |];
      (destruct (Rtotal_order (y2 - y1) 0) as [Hy | [Hy | Hy]]; [| lra |]).
    + destruct (H3 Hx Hy) as [Hb ->].
      assert (Hsector : 180 <= (t + PI) * 180 / PI <= 270)
        by (apply degrees_sector; lra).
      eexists. split; [reflexivity |]. repeat split; intros; lra.
    + destruct (H2 Hx Hy) as [Hb ->].
      assert (Hsector : 270 <= (t + 2 * PI) * 180 / PI <= 360)
        by (apply degrees_sector; lra).
      eexists. split; [reflexivity |]. repeat split; intros; lra.
    + destruct (H4 Hx Hy) as [Hb ->].
      assert (Hsector : 90 <= (t + PI) * 180 / PI <= 180)
        by (apply degrees_sector; lra).
      eexists. split; [reflexivity |]. repeat split; intros; lra.
    + destruct (H1 Hx Hy) as [Hb ->].
      assert (Hsector : 0 <= t * 180 / PI <= 90)
        by (apply degrees_sector; lra).
      eexists. split; [reflexivity |]. repeat split; intros; lra.
  - destruct (Overflow_getAzimut_diagonal 1 1) as (a1 & -> & -> & _);
      [auto | auto | | reflexivity | reflexivity].
    destruct (Overflow_getAzimut_diagonal 1 (-1)) as (a2 & -> & _ & -> & _);
      [auto | auto | | reflexivity | reflexivity].
    destruct (Overflow_getAzimut_diagonal (-1) (-1))
      as (a3 & -> & _ & _ & -> & _);
      [auto | auto | | reflexivity | reflexivity].
    destruct (Overflow_getAzimut_diagonal (-1) 1)
      as (a4 & -> & _ & _ & _ & ->);
      [auto | auto | | reflexivity | reflexivity].
    repeat split.
Qed.

Lemma getAzimut_sectors_witness :
  Overflow.getAzimut (Num 2, Num 3) (Num 5, Num 7)
  = Overflow.div
      (Overflow.mul
         (Math_atan (Overflow.div (Overflow.sub (Num 5) (Num 2))
                       (Overflow.sub (Num 7) (Num 3))))
         (Num 180))
      Math_PI.
Proof.
  assert (Hsmall : ~ overflows (5 - 2)).
  { apply small_in_range, Rabs_le. lra. }
  destruct (proj1 getAzimut_sectors 2 3 5 7) as (a & -> & [-> _] & _);
    [lra | lra | tauto | lra | lra | reflexivity].
Defined.

(** A boundary of a sector is reached: from the origin to
    [(2^700, 2^-700)] both differences are positive, their quotient
    overflows, and the azimuth is 90. *)
Lemma Overflow_getAzimut_boundary :
  Overflow.getAzimut (Num 0, Num 0) (Num (IZR (2 ^ 700)), Num (/ IZR (2 ^ 700)))
  = Num 90.
Proof.
  set (X := IZR (2 ^ 700)).
  assert (HX : 100000 < X) by (apply IZR_lt; reflexivity).
  assert (Hinv : 0 < / X) by (apply Rinv_0_lt_compat; lra).
  assert (Hsmall : / X < 1).
  { rewrite <- Rinv_1. apply Rinv_lt_contravar; lra. }
  assert (HXin : ~ overflows (X - 0)).
  { unfold overflows, overflow_threshold. rewrite Rminus_0_r.
    rewrite Rabs_right by lra. apply Rlt_not_le. apply IZR_lt. reflexivity. }
  assert (HYin : ~ overflows (/ X - 0)).
  { apply small_in_range, Rabs_le. lra. }
  assert (Hquotient : overflow_threshold <= (X - 0) / (/ X - 0)).
  { replace ((X - 0) / (/ X - 0)) with (X * X) by (field; lra).
    unfold X, overflow_threshold. rewrite <- mult_IZR.
    apply IZR_le. vm_compute. discriminate. }
  destruct (Overflow_getAzimut_off_axes 0 0 X (/ X))
    as (t & Ht & H1 & _); [lra | lra | tauto |].
  destruct H1 as [_ ->]; [lra | lra |].
  unfold Overflow.sub, Overflow.div in Ht. cbn [Number_sub] in Ht.
  rewrite !overflow_Num in Ht by assumption.
  rewrite Number_div_Num in Ht by lra.
  rewrite (overflow_PInf _ Hquotient) in Ht.
  injection Ht as <-. f_equal. field. apply PI_neq0.
Qed.

(** C5, counterexample: from [(-2^1023, -2^1023)] to [(2^1023, 2^1023)]
    both differences are positive, and the result is no number. *)
Lemma getAzimut_sector_overflow :
  0 < huge - - huge /\
  Overflow.getAzimut (Num (- huge), Num (- huge)) (Num huge, Num huge)
  = NaN.
Proof.
  pose proof huge_positive. split; [lra |].
  apply Overflow_getAzimut_NaN; apply huge_overflows.
Qed.

(** C8, as the code has it: [getAzimut] returns [NaN] exactly when both
    differences overflow, and a number otherwise; for two equal
    coordinates it returns 0; and the angle that [handleDragEvent]
    computes from two azimuths that are numbers is a number. *)
Theorem getAzimut_defined_unless_overflow (x1 y1 x2 y2 x3 y3 : R) :
  (Overflow.getAzimut (Num x1, Num y1) (Num x2, Num y2) = NaN
   <-> overflows (x2 - x1) /\ overflows (y2 - y1)) /\
  (~ (overflows (x2 - x1) /\ overflows (y2 - y1)) ->
   exists a : R,
     Overflow.getAzimut (Num x1, Num y1) (Num x2, Num y2) = Num a) /\
  Overflow.getAzimut (Num x1, Num y1) (Num x1, Num y1) = Num 0 /\
  (~ (overflows (x2 - x1) /\ overflows (y2 - y1)) ->
   ~ (overflows (x3 - x1) /\ overflows (y3 - y1)) ->
   exists angle : R,
     Overflow.angulo_en_radiane
       (Overflow.getAzimut (Num x1, Num y1) (Num x2, Num y2))
       (Overflow.getAzimut (Num x1, Num y1) (Num x3, Num y3))
     = Num angle).
Proof.
  split; [split |]; [| | split; [| split]].
  - intros HNaN.
    destruct (Rle_dec overflow_threshold (Rabs (x2 - x1))) as [Hx | Hx];
      [destruct (Rle_dec overflow_threshold (Rabs (y2 - y1))) as [Hy | Hy];
       [split; assumption |] |].
    all: assert (Hboth : ~ (overflows (x2 - x1) /\ overflows (y2 - y1)))
      by (unfold overflows; tauto).
    all: destruct (Overflow_getAzimut_Num x1 y1 x2 y2 Hboth) as (a & Ha & _).
    all: congruence.
  - intros [Hx Hy]. apply Overflow_getAzimut_NaN; assumption.
  - intros Hboth.
    destruct (Overflow_getAzimut_Num x1 y1 x2 y2 Hboth) as (a & Ha & _).
    exists a. exact Ha.
  - apply Overflow_getAzimut_axis. left. ring.
  - intros H2 H3.
    destruct (Overflow_getAzimut_Num x1 y1 x2 y2 H2) as (s & -> & Hs).
    destruct (Overflow_getAzimut_Num x1 y1 x3 y3 H3) as (c & -> & Hc).
    eexists. apply Overflow_angulo_en_radiane_Num; assumption.
Qed.

(** C8, counterexample: the two coordinates are numbers, and the azimuth
    is not; it reaches the angle of the rotation as it is. *)
Lemma getAzimut_NaN_reaches_rotation :
  Overflow.getAzimut (Num (- huge), Num (- huge)) (Num huge, Num huge)
  = NaN /\
  Overflow.angulo_en_radiane (Num 45)
    (Overflow.getAzimut (Num (- huge), Num (- huge)) (Num huge, Num huge))
  = NaN.
Proof.
  assert (HNaN : Overflow.getAzimut (Num (- huge), Num (- huge))
                   (Num huge, Num huge) = NaN)
    by (apply Overflow_getAzimut_NaN; apply huge_overflows).
  rewrite HNaN. split; reflexivity.
Qed.

(** ** The centre of an extent *)

Lemma Overflow_getCenterOfExtent_unfold (E0 E1 E2 E3 : number) :
  Overflow.getCenterOfExtent (E0, E1, E2, E3)
  = (Overflow.add E0 (Overflow.div (Overflow.sub E2 E0) (Num 2)),
     Overflow.add E1 (Overflow.div (Overflow.sub E3 E1) (Num 2))).
Proof. reflexivity. Qed.

Lemma Overflow_midpoint (lo hi : R) :
  ~ overflows (hi - lo) -> ~ overflows (lo + (hi - lo) / 2) ->
  Overflow.add (Num lo) (Overflow.div (Overflow.sub (Num hi) (Num lo)) (Num 2))
  = Num (lo + (hi - lo) / 2).
Proof.
  intros Hw Hm. unfold Overflow.add, Overflow.div, Overflow.sub.
  cbn [Number_sub]. rewrite (overflow_Num _ Hw).
  rewrite Number_div_Num by lra.
  rewrite overflow_Num.
  - cbn [Number_add]. apply overflow_Num, Hm.
  - intros Ho. apply Hw. unfold overflows in *.
    pose proof overflow_threshold_large.
    unfold Rabs in *. destruct (Rcase_abs ((hi - lo) / 2));
      destruct (Rcase_abs (hi - lo)); lra.
Qed.

(** The centre of an extent whose width and height binary64 holds, and
    whose midpoint it holds. *)
Lemma Overflow_getCenterOfExtent_Num (minX minY maxX maxY : R) :
  ~ overflows (maxX - minX) -> ~ overflows (maxY - minY) ->
  ~ overflows (minX + (maxX - minX) / 2) ->
  ~ overflows (minY + (maxY - minY) / 2) ->
  Overflow.getCenterOfExtent (Num minX, Num minY, Num maxX, Num maxY)
  = (Num (minX + (maxX - minX) / 2), Num (minY + (maxY - minY) / 2)).
Proof.
  intros Hw Hh Hx Hy. rewrite Overflow_getCenterOfExtent_unfold.
  rewrite !Overflow_midpoint by assumption. reflexivity.
Qed.

(** Between two doubles in order whose difference binary64 holds, the
    midpoint is in range. *)
Lemma midpoint_in_range (lo hi : R) :
  lo <= hi -> ~ overflows lo -> ~ overflows hi ->
  ~ overflows (lo + (hi - lo) / 2) /\ lo <= lo + (hi - lo) / 2 <= hi.
Proof.
  intros Hle Hlo Hhi. split; [| lra].
  unfold overflows, Rabs in *.
  destruct (Rcase_abs lo), (Rcase_abs hi),
    (Rcase_abs (lo + (hi - lo) / 2)); lra.
Qed.

(** The extent of the world-wide overflow: the width of
    [[-2^1023, 0, 2^1023, 2]] is [2^1024]. *)
Lemma Overflow_getCenterOfExtent_overflow :
  Overflow.getCenterOfExtent (Num (- huge), Num 0, Num huge, Num 2)
  = (PInf, Num (0 + (2 - 0) / 2)).
Proof.
  rewrite Overflow_getCenterOfExtent_unfold. f_equal.
  - pose proof huge_overflows as Hw.
    pose proof (Overflow_sub_difference (- huge) huge) as Hd.
    assert (Hinf : Overflow.sub (Num huge) (Num (- huge)) = PInf).
    { pose proof huge_positive. pose proof overflow_threshold_large.
      destruct Hd as [Hno | Hup | Hdown]; [tauto | reflexivity | lra]. }
    rewrite Hinf. unfold Overflow.div. cbn [Number_div]. unfold Rsign.
    destruct (Rlt_dec 0 2); [reflexivity | lra].
  - apply Overflow_midpoint; apply small_in_range, Rabs_le; lra.
Qed.

(** ** Reasoning about handlers *)

Section HandlerProperties.

Context {Geometry : Type} `{GeometryOps Geometry}.

Implicit Types (w : World Geometry) (f : Feature Geometry) (a : addr).

Lemma preserves_bind {A B} P (m : M Geometry A) (k : A -> M Geometry B) :
  preserves P m -> (forall x, preserves P (k x)) -> preserves P (bind m k).
Proof.
  intros Hm Hk w HP. unfold bind. specialize (Hm w HP).
  destruct (m w) as [x w' | w' | w']; simpl in *; [apply Hk | |]; assumption.
Qed.

Lemma preserves_for_in {A} P (array : list A) (body : A -> M Geometry unit) :
  (forall x, preserves P (body x)) -> preserves P (for_in array body).
Proof.
  intros Hbody. induction array as [| x rest IH]; simpl.
  - intros w HP. exact HP.
  - apply preserves_bind; auto.
Qed.

Lemma preserves_pure {A} P (m : M Geometry A) :
  (forall w, final_world (m w) = w) -> preserves P m.
Proof. intros Hm w HP. rewrite Hm. exact HP. Qed.

Lemma preserves_modify P (g : World Geometry -> World Geometry) :
  (forall w, P w -> P (g w)) -> preserves P (modify g).
Proof. intros Hg w HP. simpl. auto. Qed.

Lemma asserts_nothing_bind {A B} (m : M Geometry A) (k : A -> M Geometry B) :
  asserts_nothing m -> (forall x, asserts_nothing (k x)) ->
  asserts_nothing (bind m k).
Proof.
  intros Hm Hk w w'. unfold bind. specialize (Hm w).
  destruct (m w) as [x w1 | w1 | w1];
    [apply Hk | discriminate | exfalso; eapply Hm; reflexivity].
Qed.

Lemma asserts_nothing_for_in {A} (array : list A)
    (body : A -> M Geometry unit) :
  (forall x, asserts_nothing (body x)) -> asserts_nothing (for_in array body).
Proof.
  intros Hbody. induction array as [| x rest IH]; simpl.
  - intros w w'. discriminate.
  - apply asserts_nothing_bind; auto.
Qed.

Lemma asserts_nothing_read a : asserts_nothing (read (Geometry := Geometry) a).
Proof. intros w w'. unfold read. destruct (heap w !! a); discriminate. Qed.

Lemma asserts_nothing_defined {A} (o : option A) :
  asserts_nothing (defined (Geometry := Geometry) o).
Proof. intros w w'. destruct o; discriminate. Qed.

Lemma asserts_nothing_modify (g : World Geometry -> World Geometry) :
  asserts_nothing (modify g).
Proof. intros w w'. discriminate. Qed.

Lemma asserts_nothing_get : asserts_nothing (get (Geometry := Geometry)).
Proof. intros w w'. discriminate. Qed.

Lemma asserts_nothing_ret {A} (a : A) :
  asserts_nothing (ret (Geometry := Geometry) a).
Proof. intros w w'. discriminate. Qed.

Lemma final_world_read a w : final_world (read a w) = w.
Proof. unfold read. destruct (heap w !! a); reflexivity. Qed.

Lemma final_world_defined {A} (o : option A) w :
  final_world (defined (Geometry := Geometry) o w) = w.
Proof. destruct o; reflexivity. Qed.

(** No number and no absent identifier has the property key of the pivot
    marker. *)
Lemma property_key_not_PIVOTE_1_ID id :
  is_PIVOTE_1_ID id = false -> property_key id <> PIVOTE_1_ID.
Proof.
  destruct id as [| s | n]; simpl.
  - discriminate.
  - intros Hs. apply bool_decide_eq_false in Hs. exact Hs.
  - intros _. destruct (Z.to_int n) as [d | d]; destruct d; discriminate.
Qed.

End HandlerProperties.

(** One step through a handler body: split a sequence, pass over a step
    that only reads, or take both sides of a conditional. *)
Ltac preserves_step :=
  lazymatch goal with
  | |- preserves _ (bind _ _) => apply preserves_bind; [| intros ?]
  | |- preserves _ (if ?b then _ else _) => destruct b
  | |- preserves _ (read _) =>
      apply preserves_pure; intros ?; apply final_world_read
  | |- preserves _ (defined _) =>
      apply preserves_pure; intros ?; apply final_world_defined
  | |- preserves _ get => apply preserves_pure; reflexivity
  | |- preserves _ (ret _) => apply preserves_pure; reflexivity
  end.

(** One step through a handler body that calls no [assert]. *)
Ltac asserts_nothing_step :=
  lazymatch goal with
  | |- asserts_nothing (bind _ _) => apply asserts_nothing_bind; [| intros ?]
  | |- asserts_nothing (if ?b then _ else _) => destruct b
  | |- asserts_nothing (read _) => apply asserts_nothing_read
  | |- asserts_nothing (defined _) => apply asserts_nothing_defined
  | |- asserts_nothing (modify _) => apply asserts_nothing_modify
  | |- asserts_nothing get => apply asserts_nothing_get
  | |- asserts_nothing (ret _) => apply asserts_nothing_ret
  end.

(** ** Vector sources *)

Section VectorSource.

Context {Geometry : Type} `{GeometryOps Geometry}.

Implicit Types (w : World Geometry) (f : Feature Geometry) (a : addr)
  (source : list addr) (array : list (option addr)).

(** The outcomes of [addToIndex_]. *)
Lemma addToIndex__outcome source a f w :
  addToIndex_ source a f w
  = match id_key (getId f) with
    | Some key =>
        if bool_decide (key ∈ idIndex_ (heap w) source) then Ok false w
        else if bool_decide (a ∈ source) then AssertionError w
             else Ok true w
    | None =>
        if bool_decide (a ∈ source) then AssertionError w else Ok true w
    end.
Proof.
  unfold addToIndex_, bind, get, assert, ret.
  destruct (id_key (getId f)); repeat case_bool_decide; reflexivity.
Qed.

(** The index holds the identifier of every feature of the source. *)
Lemma elem_of_idIndex_ (h : gmap addr (Feature Geometry)) source key :
  key ∈ idIndex_ h source <->
  exists b f, b ∈ source /\ h !! b = Some f /\ id_key (getId f) = Some key.
Proof.
  unfold idIndex_. rewrite list_elem_of_omap. split.
  - intros (b & Hb & Hkey).
    destruct (h !! b) as [f |] eqn:Hf; [| discriminate]. eauto.
  - intros (b & f & Hb & Hf & Hkey). exists b. split; [exact Hb |].
    rewrite Hf. exact Hkey.
Qed.

Lemma VectorSource_addFeatures_cons source a f rest w :
  heap w !! a = Some f ->
  VectorSource_addFeatures source (Some a :: rest) w
  = (let* valid := addToIndex_ source a f in
     VectorSource_addFeatures (if valid then source ++ [a] else source) rest)
      w.
Proof.
  intros Ha. cbn [VectorSource_addFeatures]. unfold bind at 1, defined, ret.
  unfold bind at 1, read. rewrite Ha. reflexivity.
Qed.

Lemma VectorSource_addFeatures_throws source x rest w :
  ~ (exists a, x = Some a /\ is_Some (heap w !! a)) ->
  VectorSource_addFeatures source (x :: rest) w = TypeError w.
Proof.
  intros Hno. cbn [VectorSource_addFeatures]. unfold bind at 1, defined.
  destruct x as [a |]; [| reflexivity].
  unfold ret. unfold bind at 1, read.
  destruct (heap w !! a) as [f |] eqn:Ha; [| reflexivity].
  exfalso. apply Hno. exists a. rewrite Ha. eauto.
Qed.

(** Filling a source changes nothing else. *)
Lemma final_world_VectorSource_addFeatures array :
  forall source w, final_world (VectorSource_addFeatures source array w) = w.
Proof.
  induction array as [| x rest IH]; intros source w; [reflexivity |].
  destruct x as [a |];
    [| rewrite VectorSource_addFeatures_throws; [reflexivity |];
       intros (a & [=] & _)].
  destruct (heap w !! a) as [f |] eqn:Ha.
  2: { rewrite VectorSource_addFeatures_throws; [reflexivity |].
       intros (a' & [= <-] & Hsome). rewrite Ha in Hsome.
       eapply is_Some_None, Hsome. }
  rewrite (VectorSource_addFeatures_cons _ _ _ _ _ Ha). unfold bind.
  rewrite addToIndex__outcome.
  destruct (id_key (getId f)); repeat case_bool_decide;
    first [reflexivity | apply IH].
Qed.

Lemma VectorSource_addFeatures_world source array newsource w w' :
  VectorSource_addFeatures source array w = Ok newsource w' -> w' = w.
Proof.
  intros Hadd.
  pose proof (final_world_VectorSource_addFeatures array source w) as Hw.
  rewrite Hadd in Hw. exact Hw.
Qed.

Lemma elem_of_without_identifier w array a :
  a ∈ without_identifier w array <->
  Some a ∈ array /\
  exists f, heap w !! a = Some f /\ getId f = IdUndefined.
Proof.
  unfold without_identifier. rewrite list_elem_of_omap. split.
  - intros ([b |] & Hx & Hsome); [| discriminate]. cbn in Hsome.
    destruct (heap w !! b) as [f |] eqn:Hf; [| discriminate]. cbn in Hsome.
    destruct (getId f) eqn:Hid; try discriminate.
    injection Hsome as <-. eauto.
  - intros (Hx & f & Hf & Hid). exists (Some a). split; [exact Hx |].
    cbn. rewrite Hf. cbn. rewrite Hid. reflexivity.
Qed.

Lemma without_identifier_cons w a f rest :
  heap w !! a = Some f ->
  without_identifier w (Some a :: rest)
  = match getId f with
    | IdUndefined => a :: without_identifier w rest
    | _ => without_identifier w rest
    end.
Proof.
  intros Hf. unfold without_identifier. cbn. rewrite Hf. cbn.
  destruct (getId f); reflexivity.
Qed.

Lemma id_key_None (id : FeatureId) : id_key id = None <-> id = IdUndefined.
Proof. destruct id; split; (discriminate || reflexivity). Qed.

(** What filling a source comes to.  It returns when every element of
    the array is a feature and no feature without identifier is taken in
    twice; the source then holds what it held and features of the array.
    It throws a [TypeError] at an element that is no feature, and fails
    the [assert] at a feature without identifier that it holds. *)
Lemma VectorSource_addFeatures_outcome array :
  forall source w,
    match VectorSource_addFeatures source array w with
    | Ok newsource _ =>
        all_features w array /\
        NoDup (without_identifier w array) /\
        (forall a, a ∈ without_identifier w array -> a ∉ source) /\
        (forall b, b ∈ source -> b ∈ newsource) /\
        (forall b, b ∈ newsource -> b ∈ source \/ Some b ∈ array)
    | TypeError _ => ~ all_features w array
    | AssertionError _ =>
        all_features w array ->
        ~ (NoDup (without_identifier w array) /\
           forall a, a ∈ without_identifier w array -> a ∉ source)
    end.
Proof.
  induction array as [| x rest IH]; intros source w.
  { cbn. split; [constructor |]. split; [constructor |].
    split; [intros a Ha; inversion Ha |]. split; auto. }
  assert (Hthrows :
    ~ (exists a, x = Some a /\ is_Some (heap w !! a)) ->
    ~ all_features w (x :: rest)).
  { intros Hno Hall. apply Forall_cons in Hall as [Hx _]. contradiction. }
  destruct x as [a |].
  2: { rewrite VectorSource_addFeatures_throws; [apply Hthrows |];
         intros (a & [=] & _). }
  destruct (heap w !! a) as [f |] eqn:Ha.
  2: { assert (Hno : ~ (exists a', Some a = Some a' /\ is_Some (heap w !! a'))).
       { intros (a' & [= <-] & Hsome). rewrite Ha in Hsome.
         eapply is_Some_None, Hsome. }
       rewrite VectorSource_addFeatures_throws; [apply Hthrows |]; exact Hno. }
  assert (Hx : exists a', Some a = Some a' /\ is_Some (heap w !! a'))
    by (exists a; rewrite Ha; eauto).
  rewrite (VectorSource_addFeatures_cons _ _ _ _ _ Ha). unfold bind.
  rewrite addToIndex__outcome, (without_identifier_cons _ _ _ _ Ha).
  destruct (id_key (getId f)) as [key |] eqn:Hkey.
  - assert (Hid : getId f <> IdUndefined).
    { intros Hid. apply id_key_None in Hid. congruence. }
    assert (Hother : forall a', a' ∈ without_identifier w rest -> a' <> a).
    { intros a' Ha' ->. apply elem_of_without_identifier in Ha'
        as (_ & f' & Hf' & Hid'). congruence. }
    assert (Hlist : match getId f with
                    | IdUndefined => a :: without_identifier w rest
                    | _ => without_identifier w rest
                    end = without_identifier w rest)
      by (destruct (getId f); [contradiction | reflexivity | reflexivity]).
    rewrite Hlist. clear Hlist.
    case_bool_decide as Hin.
    + specialize (IH source w).
      destruct (VectorSource_addFeatures source rest w)
        as [newsource w' | w' | w'].
      * destruct IH as (Hall & Hnodup & Hout & Hkeep & Hfrom).
        split; [constructor; assumption |]. split; [exact Hnodup |].
        split; [exact Hout |]. split; [exact Hkeep |].
        intros b Hb. destruct (Hfrom b Hb); [auto |].
        right. apply elem_of_cons. auto.
      * intros Hall. apply Forall_cons in Hall as [_ Hall]. contradiction.
      * intros Hall. apply Forall_cons in Hall as [_ Hall]. auto.
    + case_bool_decide as Hheld.
      { exfalso. apply Hin. apply elem_of_idIndex_. eauto. }
      specialize (IH (source ++ [a]) w).
      destruct (VectorSource_addFeatures (source ++ [a]) rest w)
        as [newsource w' | w' | w'].
      * destruct IH as (Hall & Hnodup & Hout & Hkeep & Hfrom).
        split; [constructor; assumption |]. split; [exact Hnodup |].
        split.
        { intros a' Ha' Hs. apply (Hout a' Ha'), elem_of_app. auto. }
        split.
        { intros b Hb. apply Hkeep, elem_of_app. auto. }
        intros b Hb. destruct (Hfrom b Hb) as [Hs | Hr].
        -- apply elem_of_app in Hs as [Hs | ->%list_elem_of_singleton];
             [auto |]. right. apply elem_of_cons. auto.
        -- right. apply elem_of_cons. auto.
      * intros Hall. apply Forall_cons in Hall as [_ Hall]. contradiction.
      * intros Hall [Hnodup Hout]. apply Forall_cons in Hall as [_ Hall].
        apply (IH Hall). split; [exact Hnodup |].
        intros a' Ha' Hs.
        apply elem_of_app in Hs as [Hs | ->%list_elem_of_singleton].
        -- exact (Hout a' Ha' Hs).
        -- exact (Hother a Ha' eq_refl).
  - apply id_key_None in Hkey. rewrite Hkey.
    case_bool_decide as Hheld.
    + intros _ [_ Hout]. apply (Hout a); [apply elem_of_cons; auto | exact Hheld].
    + specialize (IH (source ++ [a]) w).
      destruct (VectorSource_addFeatures (source ++ [a]) rest w)
        as [newsource w' | w' | w'].
      * destruct IH as (Hall & Hnodup & Hout & Hkeep & Hfrom).
        split; [constructor; assumption |].
        split.
        { constructor; [| exact Hnodup].
          intros Ha'. apply (Hout a Ha'), elem_of_app. right.
          apply list_elem_of_singleton. reflexivity. }
        split.
        { intros a' Ha' Hs. apply elem_of_cons in Ha' as [-> | Ha'];
            [contradiction |].
          apply (Hout a' Ha'), elem_of_app. auto. }
        split.
        { intros b Hb. apply Hkeep, elem_of_app. auto. }
        intros b Hb. destruct (Hfrom b Hb) as [Hs | Hr].
        -- apply elem_of_app in Hs as [Hs | ->%list_elem_of_singleton];
             [auto |]. right. apply elem_of_cons. auto.
        -- right. apply elem_of_cons. auto.
      * intros Hall. apply Forall_cons in Hall as [_ Hall]. contradiction.
      * intros Hall [Hnodup Hout]. apply Forall_cons in Hall as [_ Hall].
        apply NoDup_cons in Hnodup as [Hfresh Hnodup].
        apply (IH Hall). split; [exact Hnodup |].
        intros a' Ha' Hs.
        apply elem_of_app in Hs as [Hs | ->%list_elem_of_singleton].
        -- apply (Hout a'); [apply elem_of_cons; auto | exact Hs].
        -- contradiction.
Qed.

(** Filling a fresh source returns exactly when every element of the
    array is a feature and no feature without identifier occurs
    twice. *)
Lemma VectorSource_addFeatures_returns array w :
  (exists newsource,
      VectorSource_addFeatures [] array w = Ok newsource w) <->
  all_features w array /\ NoDup (without_identifier w array).
Proof.
  pose proof (VectorSource_addFeatures_outcome array [] w) as Hout.
  pose proof (final_world_VectorSource_addFeatures array [] w) as Hw.
  destruct (VectorSource_addFeatures [] array w) as [newsource w' | w' | w'];
    cbn in Hw; subst w'.
  - destruct Hout as (Hall & Hnodup & _). split; eauto.
  - split; [intros (? & [=]) | intros [Hall _]; contradiction].
  - split; [intros (? & [=]) |]. intros [Hall Hnodup]. exfalso.
    apply (Hout Hall). split; [exact Hnodup |].
    intros a _ Ha. inversion Ha.
Qed.


(** The outcome depends on the features of the source and of the array
    alone. *)
Lemma idIndex__frame (h h' : gmap addr (Feature Geometry)) source :
  (forall b, b ∈ source -> h' !! b = h !! b) ->
  idIndex_ h' source = idIndex_ h source.
Proof.
  intros Hsame. unfold idIndex_. induction source as [| b rest IH];
    [reflexivity |].
  cbn. rewrite (Hsame b) by (apply elem_of_cons; auto).
  rewrite IH by (intros c Hc; apply Hsame, elem_of_cons; auto).
  reflexivity.
Qed.

Lemma VectorSource_addFeatures_frame array :
  forall source newsource w w',
    (forall b, b ∈ source \/ Some b ∈ array -> heap w' !! b = heap w !! b) ->
    VectorSource_addFeatures source array w = Ok newsource w ->
    VectorSource_addFeatures source array w' = Ok newsource w'.
Proof.
  induction array as [| x rest IH]; intros source newsource w w' Hsame Hadd.
  { cbn in *. unfold ret in *. congruence. }
  destruct x as [a |].
  2: { rewrite VectorSource_addFeatures_throws in Hadd; [discriminate |].
       intros (a & [=] & _). }
  destruct (heap w !! a) as [f |] eqn:Ha.
  2: { rewrite VectorSource_addFeatures_throws in Hadd; [discriminate |].
       intros (a' & [= <-] & Hsome). rewrite Ha in Hsome.
       eapply is_Some_None, Hsome. }
  assert (Ha' : heap w' !! a = Some f).
  { rewrite Hsame; [exact Ha |]. right. apply elem_of_cons. auto. }
  rewrite (VectorSource_addFeatures_cons _ _ _ _ _ Ha) in Hadd.
  rewrite (VectorSource_addFeatures_cons _ _ _ _ _ Ha').
  unfold bind in *. rewrite addToIndex__outcome in *.
  rewrite (idIndex__frame (heap w) (heap w') source) by auto.
  destruct (id_key (getId f)); repeat case_bool_decide;
    try discriminate; (eapply IH; [| exact Hadd]);
    intros b [Hb | Hb]; apply Hsame;
    try (apply elem_of_app in Hb as [Hb | ->%list_elem_of_singleton]);
    auto; right; apply elem_of_cons; auto.
Qed.

Lemma source_geometries_frame (h h' : gmap addr (Feature Geometry)) source :
  (forall b, b ∈ source -> h' !! b = h !! b) ->
  source_geometries h' source = source_geometries h source.
Proof.
  intros Hsame. unfold source_geometries.
  induction source as [| b rest IH]; [reflexivity |].
  cbn. rewrite (Hsame b) by (apply elem_of_cons; auto).
  rewrite IH by (intros c Hc; apply Hsame, elem_of_cons; auto).
  reflexivity.
Qed.

(** Adding the pivot marker, which carries its identifier, to the pivot
    source: it joins the source unless the source holds a feature with
    that identifier, the marker itself or another. *)
Lemma VectorSource_addFeature_marker source a g w :
  heap w !! a = Some (mkFeature (IdString PIVOTE_1_ID) g) ->
  VectorSource_addFeature source a w
  = Ok (if bool_decide (PIVOTE_1_ID ∈ idIndex_ (heap w) source) then source
        else source ++ [a])
      w.
Proof.
  intros Ha. unfold VectorSource_addFeature. unfold bind at 1, read.
  rewrite Ha. unfold bind. rewrite addToIndex__outcome.
  cbn [getId id_key property_key].
  case_bool_decide as Hin; [reflexivity |].
  case_bool_decide as Hheld; [| reflexivity].
  exfalso. apply Hin. apply elem_of_idIndex_. eauto.
Qed.

End VectorSource.

(** ** The pivot marker is left alone *)

Section PivotMarker.

Context {Geometry : Type} `{GeometryOps Geometry}.

Implicit Types (w : World Geometry) (f : Feature Geometry) (a : addr).

Lemma untouched_alter a f c d a' (g : Feature Geometry -> Feature Geometry) :
  a <> a' ->
  preserves (PIVOTE_1_ID_untouched a f c d) (modify (with_heap (alter g a'))).
Proof.
  intros Hne. apply preserves_modify. intros w (Ha & Hc & Hd).
  repeat split; simpl; [| assumption | assumption].
  rewrite lookup_alter_ne by congruence. exact Ha.
Qed.

Lemma untouched_feature_original a f c d key v :
  key <> PIVOTE_1_ID ->
  preserves (PIVOTE_1_ID_untouched a f c d)
    (modify (with_feature_original (insert key v))).
Proof.
  intros Hne. apply preserves_modify. intros w (Ha & Hc & Hd).
  repeat split; simpl; [assumption | | assumption].
  rewrite lookup_insert_ne by assumption. exact Hc.
Qed.

Lemma untouched_predioEdicionSelected a f c d key v :
  key <> PIVOTE_1_ID ->
  preserves (PIVOTE_1_ID_untouched a f c d)
    (modify (with_predioEdicionSelected (insert key v))).
Proof.
  intros Hne. apply preserves_modify. intros w (Ha & Hc & Hd).
  repeat split; simpl; [assumption | assumption |].
  rewrite lookup_insert_ne by assumption. exact Hd.
Qed.

Lemma handleDragEvent_body_untouched llaves angle centroide x a f c d :
  getId f = IdString PIVOTE_1_ID ->
  preserves (PIVOTE_1_ID_untouched a f c d)
    (handleDragEvent_body llaves angle centroide x).
Proof.
  intros Hid w (Ha & Hc & Hd). unfold handleDragEvent_body.
  destruct x as [a' |]; [| repeat split; assumption].
  unfold bind at 1. simpl. unfold bind at 1, read at 1.
  destruct (heap w !! a') as [f' |] eqn:Ha'; [| repeat split; assumption].
  destruct (is_PIVOTE_1_ID (getId f')) eqn:Hp; [repeat split; assumption |].
  assert (Hne : a <> a').
  { intros ->. rewrite Ha in Ha'. injection Ha' as <-.
    rewrite Hid in Hp. unfold is_PIVOTE_1_ID in Hp.
    rewrite bool_decide_eq_true_2 in Hp by reflexivity. discriminate. }
  pose proof (property_key_not_PIVOTE_1_ID _ Hp) as Hkey.
  match goal with
  | |- _ (final_world (?m w)) =>
      cut (preserves (PIVOTE_1_ID_untouched a f c d) m);
      [intros Hm; apply Hm; repeat split; assumption |]
  end.
  repeat preserves_step;
    auto using untouched_alter, untouched_feature_original,
      untouched_predioEdicionSelected.
Qed.

Lemma handleUpEvent_body_untouched x (c : option (Feature Geometry)) d :
  preserves (not_committed c d) (handleUpEvent_body x).
Proof.
  intros w [Hc Hd]. unfold handleUpEvent_body.
  destruct x as [a' |]; [| split; assumption].
  unfold bind at 1. simpl. unfold bind at 1, read at 1.
  destruct (heap w !! a') as [f' |] eqn:Ha'; [| split; assumption].
  destruct (is_PIVOTE_1_ID (getId f')) eqn:Hp; simpl; [split; assumption |].
  pose proof (property_key_not_PIVOTE_1_ID _ Hp) as Hkey.
  unfold bind, read. rewrite Ha'. split; simpl; [| assumption].
  rewrite lookup_insert_ne by assumption. exact Hc.
Qed.

(** A drag update leaves every feature with the identifier of the pivot
    marker as it was, and writes nothing under that identifier. *)
Lemma handleDragEvent_untouched event a f c d :
  getId f = IdString PIVOTE_1_ID ->
  preserves (PIVOTE_1_ID_untouched a f c d) (handleDragEvent event).
Proof.
  intros Hid. unfold handleDragEvent.
  apply preserves_bind; [preserves_step | intros w0].
  destruct (truthy (lastCoordinate_ (this w0))); [| preserves_step].
  repeat first
    [ apply preserves_for_in; intros ?;
      apply handleDragEvent_body_untouched; assumption
    | preserves_step
    | apply preserves_modify; intros ? (? & ? & ?); repeat split; assumption ].
Qed.

(** A release writes nothing under the identifier of the pivot marker
    and changes no feature. *)
Lemma handleUpEvent_untouched event (c : option (Feature Geometry)) d :
  preserves (not_committed c d) (handleUpEvent event).
Proof.
  unfold handleUpEvent, handleMoveEvent, classList_remove, classList_add,
    dispatchEvent.
  repeat first
    [ apply preserves_for_in; intros ?; apply handleUpEvent_body_untouched
    | preserves_step
    | apply preserves_modify; intros ? (? & ?); split; assumption ].
Qed.

(** C7.  A feature that carries the identifier of the pivot marker is
    skipped wherever it is, in the active collection or not: a drag
    update leaves the feature (its geometry included) as it was and stores
    nothing under that identifier, and a release writes nothing under
    that identifier into the snapshot cache and changes no feature. *)
Theorem PIVOTE_1_ID_is_skipped (event : MapBrowserEvent) w a f :
  heap w !! a = Some f ->
  getId f = IdString PIVOTE_1_ID ->
  heap (final_world (handleDragEvent event w)) !! a = Some f /\
  feature_original (final_world (handleDragEvent event w)) !! PIVOTE_1_ID
  = feature_original w !! PIVOTE_1_ID /\
  predioEdicionSelected (final_world (handleDragEvent event w))
    !! PIVOTE_1_ID
  = predioEdicionSelected w !! PIVOTE_1_ID /\
  feature_original (final_world (handleUpEvent event w)) !! PIVOTE_1_ID
  = feature_original w !! PIVOTE_1_ID /\
  heap (final_world (handleUpEvent event w)) = heap w.
Proof.
  intros Ha Hid.
  pose proof (handleDragEvent_untouched event a f _ _ Hid w
                (conj Ha (conj eq_refl eq_refl))) as (Hheap & Hc & Hd).
  pose proof (handleUpEvent_untouched event _ _ w (conj eq_refl eq_refl))
    as [Hup Hupheap].
  repeat split; assumption.
Qed.

End PivotMarker.

(** C7 on a collection that holds the pivot marker: the drag update to
    (2, 0) and the release leave the marker alone. *)
Lemma PIVOTE_1_ID_is_skipped_witness :
  heap (final_world (handleDragEvent (drag_to (Num 2, Num 0)) crowded_world))
    !! 0%nat
  = Some (pivote_at (Num 1, Num 1)) /\
  feature_original
    (final_world (handleUpEvent (drag_to (Num 2, Num 0)) crowded_world))
    !! PIVOTE_1_ID
  = None.
Proof.
  destruct (PIVOTE_1_ID_is_skipped (drag_to (Num 2, Num 0)) crowded_world
              0%nat (pivote_at (Num 1, Num 1)) eq_refl eq_refl)
    as (Hheap & _ & _ & Hup & _).
  split; [exact Hheap | exact Hup].
Defined.

Section PivotProperties.

Context {Geometry : Type} `{GeometryOps Geometry}.

Implicit Types (w : World Geometry) (f : Feature Geometry) (a : addr).

Lemma getCenterOfExtent_Num minX minY maxX maxY :
  getCenterOfExtent (Num minX, Num minY, Num maxX, Num maxY)
  = (Num (minX + (maxX - minX) / 2), Num (minY + (maxY - minY) / 2)).
Proof.
  unfold getCenterOfExtent. cbn [Number_sub].
  rewrite !Number_div_Num by lra. reflexivity.
Qed.

(** What [refreshFeaturesPivotes] does once the fresh source is
    filled. *)
Lemma refreshFeaturesPivotes_unfold w newsource :
  VectorSource_addFeatures [] (features_getArray (this w)) w
  = Ok newsource w ->
  refreshFeaturesPivotes w
  = (let punto1 :=
       Point (getCenterOfExtent
                (VectorSource_getExtent
                   (source_geometries (heap w) newsource))) in
     modify (with_heap
               (<[pivote_1 (this w) :=
                    mkFeature (IdString PIVOTE_1_ID) (Some punto1)]>)) ;;
     let* pivote1 := defined (source_cartodi_pivote_ w) in
     let* pivote1 := VectorSource_addFeature pivote1 (pivote_1 (this w)) in
     modify (with_source (fun _ => Some pivote1)) ;;
     let* w := get in
     if first_ (this w) then modify (with_this (set_first_ false))
     else ret tt) w.
Proof.
  intros Hadd. unfold refreshFeaturesPivotes.
  unfold bind at 1, get at 1. unfold bind at 1. rewrite Hadd. reflexivity.
Qed.

(** What [refreshFeaturesPivotes] leaves behind when the fresh source
    is filled and the pivot source is there. *)
Lemma refreshFeaturesPivotes_returns w newsource source :
  VectorSource_addFeatures [] (features_getArray (this w)) w
  = Ok newsource w ->
  source_cartodi_pivote_ w = Some source ->
  let marker :=
    mkFeature (IdString PIVOTE_1_ID)
      (Some (Point (getCenterOfExtent
                      (VectorSource_getExtent
                         (source_geometries (heap w) newsource))))) in
  let objects := <[pivote_1 (this w) := marker]> (heap w) in
  refreshFeaturesPivotes w
  = Ok tt
      (with_this (set_first_ false)
         (with_source
            (fun _ =>
               Some (if bool_decide (PIVOTE_1_ID ∈ idIndex_ objects source)
                     then source
                     else source ++ [pivote_1 (this w)]))
            (with_heap (fun _ => objects) w))).
Proof.
  intros Hadd Hsource marker objects.
  rewrite (refreshFeaturesPivotes_unfold _ _ Hadd). cbv zeta.
  unfold bind at 1, modify at 1. unfold bind at 1, defined.
  cbn [with_heap source_cartodi_pivote_]. rewrite Hsource.
  unfold ret at 1. unfold bind at 1.
  erewrite VectorSource_addFeature_marker by apply lookup_insert_eq.
  unfold bind, modify, get. cbn [with_source with_heap this heap].
  fold marker. fold objects.
  destruct (first_ (this w)) eqn:Hfirst; [reflexivity |].
  destruct w as [[? ? ? ? ? ? ? ? ? ? first] fo pe h s cl d].
  cbn in Hfirst. subst first. reflexivity.
Qed.

(** C9, as the code has it.  The fresh source takes in the features of
    the active array, but for a feature whose identifier it holds
    already.  When the geometries of the features it has taken in have
    the union extent [[minX, minY, maxX, maxY]], not empty, and binary64
    holds the width and the height of that extent, [getCenterOfExtent]
    gives the midpoint [(minX + (maxX - minX) / 2,
    minY + (maxY - minY) / 2)] as binary64 computes it, a coordinate
    within the extent, and [refreshFeaturesPivotes] makes the pivot
    marker a point at that midpoint; it returns normally when the pivot
    source is there. *)
Theorem refreshFeaturesPivotes_centre w newsource minX minY maxX maxY :
  VectorSource_addFeatures [] (features_getArray (this w)) w
  = Ok newsource w ->
  plain_ids w (features_getArray (this w)) ->
  VectorSource_getExtent (source_geometries (heap w) newsource)
  = (Num minX, Num minY, Num maxX, Num maxY) ->
  minX <= maxX -> minY <= maxY ->
  ~ overflows minX -> ~ overflows maxX ->
  ~ overflows minY -> ~ overflows maxY ->
  ~ overflows (maxX - minX) ->
  ~ overflows (maxY - minY) ->
  let centre :=
    (Overflow.add (Num minX)
       (Overflow.div (Overflow.sub (Num maxX) (Num minX)) (Num 2)),
     Overflow.add (Num minY)
       (Overflow.div (Overflow.sub (Num maxY) (Num minY)) (Num 2))) in
  Overflow.getCenterOfExtent (Num minX, Num minY, Num maxX, Num maxY)
  = centre /\
  (exists X Y : R,
      centre = (Num X, Num Y) /\ minX <= X <= maxX /\ minY <= Y <= maxY) /\
  heap (final_world (refreshFeaturesPivotes w)) !! pivote_1 (this w)
  = Some (mkFeature (IdString PIVOTE_1_ID) (Some (Point centre))) /\
  (forall source,
      source_cartodi_pivote_ w = Some source ->
      exists w', refreshFeaturesPivotes w = Ok tt w').
Proof.
  intros Hadd _ Hextent HX HY HminX HmaxX HminY HmaxY Hwidth Hheight centre.
  destruct (midpoint_in_range minX maxX HX HminX HmaxX) as [HmidX HinX].
  destruct (midpoint_in_range minY maxY HY HminY HmaxY) as [HmidY HinY].
  assert (Hcentre : centre = (Num (minX + (maxX - minX) / 2),
                              Num (minY + (maxY - minY) / 2))).
  { unfold centre. rewrite !Overflow_midpoint by assumption. reflexivity. }
  split; [reflexivity |].
  split; [eexists _, _; split; [exact Hcentre |]; split; assumption |].
  rewrite Hcentre. split.
  - destruct (source_cartodi_pivote_ w) as [source |] eqn:Hsource.
    + rewrite (refreshFeaturesPivotes_returns w newsource source Hadd Hsource).
      cbn [final_world with_this with_source with_heap heap].
      rewrite lookup_insert_eq, Hextent, getCenterOfExtent_Num. reflexivity.
    + rewrite (refreshFeaturesPivotes_unfold _ _ Hadd). cbv zeta.
      unfold bind, modify, defined. cbn [with_heap source_cartodi_pivote_].
      rewrite Hsource. cbn [final_world throw with_heap heap].
      rewrite lookup_insert_eq, Hextent, getCenterOfExtent_Num. reflexivity.
  - intros source Hsource.
    rewrite (refreshFeaturesPivotes_returns w newsource source Hadd Hsource).
    eauto.
Qed.

(** The body of the loop of a drag update on a feature whose
    identifier is among the keys, and on one whose identifier is not. *)
Lemma handleDragEvent_body_hit llaves angle centroide a f original g0 w :
  heap w !! a = Some f ->
  is_PIVOTE_1_ID (getId f) = false ->
  Array_includes llaves (getId f) = true ->
  feature_original w !! property_key (getId f) = Some original ->
  getGeometry original = Some g0 ->
  handleDragEvent_body llaves angle centroide (Some a) w
  = Ok tt
      (with_heap
         (<[a := mkFeature (getId f)
                   (Some (Geometry_rotate angle centroide g0))]>)
         (with_predioEdicionSelected (<[property_key (getId f) := a]>) w)).
Proof.
  intros Ha Hid Hhit Horiginal Hg0.
  unfold handleDragEvent_body. unfold bind at 1. cbn [defined ret].
  unfold bind at 1, read at 1. rewrite Ha, Hid, Hhit.
  unfold bind at 1. unfold bind at 1, get at 1. unfold bind at 1.
  rewrite Horiginal. cbn [defined ret]. unfold bind at 1. rewrite Hg0.
  cbn [defined ret modify]. unfold bind at 1, read at 1.
  cbn [with_heap heap]. rewrite lookup_alter_eq, Ha.
  cbn [fmap option_fmap option_map].
  unfold bind at 1. cbn [modify]. unfold bind at 1.
  cbn [Feature_setGeometry getGeometry defined ret modify].
  unfold modify. f_equal.
  unfold with_heap, with_predioEdicionSelected. cbn. f_equal.
  apply map_eq. intros i. destruct (decide (i = a)) as [-> | Hne].
  - rewrite lookup_insert_eq, !lookup_alter_eq, Ha. reflexivity.
  - rewrite lookup_insert_ne, !lookup_alter_ne by congruence. reflexivity.
Qed.

Lemma handleDragEvent_body_miss llaves angle centroide a f g w :
  heap w !! a = Some f ->
  is_PIVOTE_1_ID (getId f) = false ->
  Array_includes llaves (getId f) = false ->
  getGeometry f = Some g ->
  handleDragEvent_body llaves angle centroide (Some a) w
  = Ok tt
      (with_heap
         (<[a := mkFeature (getId f)
                   (Some (Geometry_rotate angle centroide g))]>)
         (with_predioEdicionSelected (<[property_key (getId f) := a]>)
            (with_feature_original
               (<[property_key (getId f) := Feature_clone f]>) w))).
Proof.
  intros Ha Hid Hmiss Hg.
  unfold handleDragEvent_body. unfold bind at 1. cbn [defined ret].
  unfold bind at 1, read at 1. rewrite Ha, Hid, Hmiss.
  unfold bind at 1. unfold bind at 1, read at 1. rewrite Ha.
  cbn [modify]. unfold bind at 1, read at 1. cbn [with_feature_original heap].
  rewrite Ha. unfold bind at 1. cbn [modify]. rewrite Hg.
  unfold bind at 1. cbn [defined ret modify].
  unfold modify. f_equal.
  unfold with_heap, with_predioEdicionSelected, with_feature_original. cbn.
  f_equal.
  apply map_eq. intros i. destruct (decide (i = a)) as [-> | Hne].
  - rewrite lookup_insert_eq, lookup_alter_eq, Ha. reflexivity.
  - rewrite lookup_insert_ne, lookup_alter_ne by congruence. reflexivity.
Qed.

(** A feature with the identifier of the pivot marker passes through both
    loop bodies untouched, whatever its reference. *)
Lemma handleDragEvent_body_skip llaves angle centroide a f w :
  heap w !! a = Some f ->
  getId f = IdString PIVOTE_1_ID ->
  handleDragEvent_body llaves angle centroide (Some a) w = Ok tt w.
Proof.
  intros Ha Hid. unfold handleDragEvent_body, bind, defined, ret, read.
  rewrite Ha, Hid. reflexivity.
Qed.

Lemma handleUpEvent_body_skip a f w :
  heap w !! a = Some f ->
  getId f = IdString PIVOTE_1_ID ->
  handleUpEvent_body (Some a) w = Ok tt w.
Proof.
  intros Ha Hid. unfold handleUpEvent_body, bind, defined, ret, read.
  rewrite Ha, Hid. reflexivity.
Qed.

(** C10.  The pivot marker gets the literal identifier PIVOTE_1_ID in
    [refreshFeaturesPivotes], and the loops tell it by that identifier
    alone: a feature of the caller (not the marker object) that is in the
    active collection and carries that identifier passes through the body
    of either loop without any effect, so a drag update does not rotate
    it and a release stores no baseline for it; under any other
    identifier, new to the cache, the same feature would be rotated. *)
Theorem homonym_of_PIVOTE_1_ID_is_excluded
    (event : MapBrowserEvent) w collection a f :
  features_ (this w) = Some collection ->
  a ∈ collection ->
  a <> pivote_1 (this w) ->
  heap w !! a = Some f ->
  getId f = IdString PIVOTE_1_ID ->
  (forall llaves angle centroide,
      handleDragEvent_body llaves angle centroide (Some a) w = Ok tt w) /\
  handleUpEvent_body (Some a) w = Ok tt w /\
  heap (final_world (handleDragEvent event w)) !! a = Some f /\
  feature_original (final_world (handleUpEvent event w)) !! PIVOTE_1_ID
  = feature_original w !! PIVOTE_1_ID /\
  (forall w',
      refreshFeaturesPivotes w = Ok tt w' ->
      exists p, heap w' !! pivote_1 (this w') = Some p /\
                getId p = IdString PIVOTE_1_ID) /\
  (forall llaves angle centroide id g,
      is_PIVOTE_1_ID id = false ->
      Array_includes llaves id = false ->
      exists w',
        handleDragEvent_body llaves angle centroide (Some a)
          (with_heap (<[a := mkFeature id (Some g)]>) w)
        = Ok tt w' /\
        heap w' !! a
        = Some (mkFeature id (Some (Geometry_rotate angle centroide g)))).
Proof.
  intros _ _ _ Ha Hid. split; [| split; [| split; [| split; [| split]]]].
  - intros. eapply handleDragEvent_body_skip; eassumption.
  - eapply handleUpEvent_body_skip; eassumption.
  - apply (handleDragEvent_untouched event a f _ _ Hid w
             (conj Ha (conj eq_refl eq_refl))).
  - apply (handleUpEvent_untouched event _ _ w (conj eq_refl eq_refl)).
  - intros w' Hrefresh.
    destruct (VectorSource_addFeatures [] (features_getArray (this w)) w)
      as [newsource w0 | w0 | w0] eqn:Hadd.
    2, 3: unfold refreshFeaturesPivotes in Hrefresh;
      unfold bind at 1, get at 1 in Hrefresh; unfold bind at 1 in Hrefresh;
      rewrite Hadd in Hrefresh; discriminate.
    apply VectorSource_addFeatures_world in Hadd as Hw0. subst w0.
    destruct (source_cartodi_pivote_ w) as [source |] eqn:Hsource.
    + rewrite (refreshFeaturesPivotes_returns w newsource source Hadd Hsource)
        in Hrefresh.
      injection Hrefresh as <-. eexists.
      split; [apply lookup_insert_eq | reflexivity].
    + rewrite (refreshFeaturesPivotes_unfold _ _ Hadd) in Hrefresh.
      unfold bind, modify, defined in Hrefresh.
      cbn [with_heap source_cartodi_pivote_] in Hrefresh.
      rewrite Hsource in Hrefresh. discriminate.
  - intros llaves angle centroide id g Hnp Hmiss. eexists. split.
    + apply (handleDragEvent_body_miss _ _ _ _ (mkFeature id (Some g)) g);
        [apply lookup_insert_eq | exact Hnp | exact Hmiss | reflexivity].
    + apply lookup_insert_eq.
Qed.

End PivotProperties.

(** Comparisons between numerals. *)
Ltac compare_numbers :=
  repeat (cbn;
          match goal with
          | |- context [Rlt_dec ?a ?b] => destruct (Rlt_dec a b); try lra
          end).

(** C9 on the world with the moved square, whose extent is
    [4, 0, 6, 2]: the pivot marker goes to a point within it. *)
Lemma refreshFeaturesPivotes_centre_witness :
  exists X Y : R,
    heap (final_world (refreshFeaturesPivotes idle_world)) !! 0%nat
    = Some (pivote_at (Num X, Num Y)) /\
    4 <= X <= 6 /\ 0 <= Y <= 2.
Proof.
  assert (Hadd : VectorSource_addFeatures []
                   (features_getArray (this idle_world)) idle_world
                 = Ok [1%nat] idle_world) by reflexivity.
  assert (Hplain : plain_ids idle_world (features_getArray (this idle_world))).
  { intros a f Ha%list_elem_of_singleton Hf. injection Ha as ->.
    injection Hf as <-. exact I. }
  assert (Hextent : VectorSource_getExtent
                      (source_geometries (heap idle_world) [1%nat])
                    = (Num 4, Num 0, Num 6, Num 2)).
  { change (source_geometries (heap idle_world) [1%nat])
      with [Some moved_square].
    compare_numbers. reflexivity. }
  assert (Hsmall : forall r, -10 <= r <= 10 -> ~ overflows r).
  { intros r Hr. apply small_in_range, Rabs_le. lra. }
  destruct (refreshFeaturesPivotes_centre idle_world _ 4 0 6 2
              Hadd Hplain Hextent ltac:(lra) ltac:(lra)
              (Hsmall 4 ltac:(lra)) (Hsmall 6 ltac:(lra))
              (Hsmall 0 ltac:(lra)) (Hsmall 2 ltac:(lra))
              (Hsmall (6 - 4) ltac:(lra)) (Hsmall (2 - 0) ltac:(lra)))
    as (_ & (X & Y & Hcentre & HX & HY) & Hmarker & _).
  exists X, Y. split; [| split; assumption].
  rewrite Hcentre in Hmarker. exact Hmarker.
Defined.

(** C9, counterexample.  The geometries of the crowded collection (the
    pivot marker at (1, 1), the square and the moved square) have the
    union extent [0, 0, 6, 2], whose midpoint is (3, 1); the fresh
    source leaves out the feature of the caller called PIVOTE_1_ID, for
    it holds the marker under that identifier, and
    [refreshFeaturesPivotes] puts the pivot at (1, 1).  And the centre
    of the extent [-2^1023, 0, 2^1023, 2], whose midpoint is (0, 1), lies
    at infinity. *)
Lemma refreshFeaturesPivotes_off_the_midpoint :
  source_geometries (heap crowded_world) [0%nat; 1%nat; 2%nat]
  = [Some (Point (Num 1, Num 1)); Some square; Some moved_square] /\
  VectorSource_getExtent
    [Some (Point (Num 1, Num 1)); Some square; Some moved_square]
  = (Num 0, Num 0, Num 6, Num 2) /\
  heap (final_world (refreshFeaturesPivotes crowded_world)) !! 0%nat
  = Some (pivote_at (Num (0 + (2 - 0) / 2), Num (0 + (2 - 0) / 2))) /\
  pivote_at (Num (0 + (2 - 0) / 2), Num (0 + (2 - 0) / 2))
  <> pivote_at (Num (0 + (6 - 0) / 2), Num (0 + (2 - 0) / 2)) /\
  Overflow.getCenterOfExtent (Num (- huge), Num 0, Num huge, Num 2)
  = (PInf, Num (0 + (2 - 0) / 2)).
Proof.
  split; [reflexivity |]. split; [compare_numbers; reflexivity |].
  split; [| split; [| apply Overflow_getCenterOfExtent_overflow]].
  - assert (Hadd : VectorSource_addFeatures []
                     (features_getArray (this crowded_world)) crowded_world
                   = Ok [0%nat; 1%nat] crowded_world) by reflexivity.
    rewrite (refreshFeaturesPivotes_returns crowded_world _ [0%nat] Hadd
               eq_refl).
    cbn [final_world with_this with_source with_heap heap].
    rewrite lookup_insert_eq.
    assert (Hextent : VectorSource_getExtent
                        (source_geometries (heap crowded_world)
                           [0%nat; 1%nat])
                      = (Num 0, Num 0, Num 2, Num 2)).
    { change (source_geometries (heap crowded_world) [0%nat; 1%nat])
        with [Some (Point (Num 1, Num 1)); Some square].
      compare_numbers. reflexivity. }
    rewrite Hextent, getCenterOfExtent_Num. reflexivity.
  - intros [= Hx]. lra.
Qed.

(** C10 on the collection that holds a feature of the caller called
    PIVOTE_1_ID: the drag update does not rotate it. *)
Lemma homonym_of_PIVOTE_1_ID_is_excluded_witness :
  heap (final_world (handleDragEvent (drag_to (Num 2, Num 0)) crowded_world))
    !! 2%nat
  = Some (mkFeature (IdString PIVOTE_1_ID) (Some moved_square)) /\
  handleUpEvent_body (Some 2%nat) crowded_world = Ok tt crowded_world.
Proof.
  assert (Hin : 2%nat ∈ [0%nat; 1%nat; 2%nat]) by repeat constructor.
  assert (Hne : 2%nat <> pivote_1 (this crowded_world)) by discriminate.
  destruct (homonym_of_PIVOTE_1_ID_is_excluded (drag_to (Num 2, Num 0))
              crowded_world [0%nat; 1%nat; 2%nat] 2%nat
              (mkFeature (IdString PIVOTE_1_ID) (Some moved_square))
              eq_refl Hin Hne eq_refl eq_refl)
    as (_ & Hup & Hdrag & _).
  split; [exact Hdrag | exact Hup].
Defined.

(** ** Events that are not consumed *)

Section NotConsumed.

Context {Geometry : Type} `{GeometryOps Geometry}.

Implicit Types (w : World Geometry) (f : Feature Geometry) (a : addr).

(** A press that passes the condition while a session is open is not
    consumed and dispatches nothing; what it does is overwrite
    [coordinate_] and [lastFeature_]. *)
Lemma handleDownEvent_open_session (event : MapBrowserEvent) w lc :
  lastCoordinate_ (this w) = Some lc ->
  originalEvent event = true ->
  condition_ (this w) event = true ->
  handleDownEvent event w
  = Ok false
      (with_this
         (fun r => set_lastFeature_ (featuresAtPixel_ r event)
                     (set_coordinate_ (Some (coordinate event)) r))
         w).
Proof.
  intros Hlc Horiginal Hcondition.
  unfold handleDownEvent, bind, get, modify, ret.
  rewrite Horiginal, Hcondition. cbn. rewrite Hlc. reflexivity.
Qed.



End NotConsumed.

Lemma moved_square_differs : moved_square <> square.
Proof. intros [= Heq _ _ _]. lra. Qed.

(** C2 (the code at the failing inputs).  No session is open in
    [idle_world]; a release there returns false, but it has reset
    [coordinate_] and [feature_] and has replaced the baseline of "a" in
    the snapshot cache by the present geometry.  On a freshly constructed
    interaction the release throws. *)
Theorem handleUpEvent_without_session :
  lastCoordinate_ (this idle_world) = None /\
  handleUpEvent release_event idle_world
  = Ok false
      (with_feature_original
         (<["a"%string := mkFeature IdUndefined (Some moved_square)]>)
         (with_this (fun r => set_feature_ js_null (set_coordinate_ None r))
            idle_world)) /\
  feature_original idle_world !! "a"%string
  = Some (mkFeature IdUndefined (Some square)) /\
  moved_square <> square /\
  coordinate_ (this idle_world) = Some (Num 9, Num 9) /\
  lastCoordinate_ (this fresh_world) = None /\
  handleUpEvent release_event fresh_world
  = TypeError
      (with_this (fun r => set_feature_ js_null (set_coordinate_ None r))
         fresh_world).
Proof.
  repeat split; try (vm_compute; reflexivity). apply moved_square_differs.
Qed.

(** C3 (the code at the failing input).  A session is open in
    [dragging_world]; a second press that passes the condition returns
    false, but it has replaced the press coordinate [coordinate_] and has
    reset [lastFeature_], after which the next drag update throws. *)
Theorem handleDownEvent_during_session :
  lastCoordinate_ (this dragging_world) = Some (Num 2, Num 2) /\
  condition_ (this dragging_world) second_press = true /\
  coordinate_ (this dragging_world) = Some (Num 2, Num 2) /\
  lastFeature_ (this dragging_world) = Some 1%nat /\
  handleDownEvent second_press dragging_world
  = Ok false
      (with_this
         (fun r => set_lastFeature_ None
                     (set_coordinate_ (Some (Num 2, Num 0)) r))
         dragging_world) /\
  handleDragEvent (drag_to (Num 2, Num 1))
    (with_this
       (fun r => set_lastFeature_ None
                   (set_coordinate_ (Some (Num 2, Num 0)) r))
       dragging_world)
  = TypeError
      (with_this
         (fun r => set_lastFeature_ None
                     (set_coordinate_ (Some (Num 2, Num 0)) r))
         dragging_world).
Proof. repeat split; vm_compute; reflexivity. Qed.

(** ** Rotation from the baseline, for string identifiers *)

Section SessionProperties.

Context {Geometry : Type} `{GeometryOps Geometry}.

Implicit Types (w : World Geometry) (f : Feature Geometry) (a : addr).

Lemma elem_of_Object_keys {A} (o : gmap string A) s :
  s ∈ Object_keys o <-> is_Some (o !! s).
Proof.
  unfold Object_keys. rewrite list_elem_of_fmap. split.
  - intros ([s' v] & -> & Hin). apply elem_of_map_to_list in Hin. eauto.
  - intros [v Hv]. exists (s, v). split; [reflexivity |].
    apply elem_of_map_to_list. exact Hv.
Qed.

Lemma loop_invariant_refl w :
  loop_invariant (Object_keys (feature_original w)) w w.
Proof.
  repeat split; intros; eauto.
  exfalso. match goal with Hn : _ ∉ _ |- _ => apply Hn end.
  apply elem_of_Object_keys. eauto.
Qed.

Lemma for_in_cons {A} (x : A) rest (body : A -> M Geometry unit) w w1 :
  body x w = Ok tt w1 ->
  for_in (x :: rest) body w = for_in rest body w1.
Proof. intros Hx. simpl. unfold bind. rewrite Hx. reflexivity. Qed.

(** The loop of a drag update over features with string identifiers:
    it ends normally, keeps the baselines it started with, and leaves
    every feature it visited whose identifier was among the keys with
    its baseline, rotated. *)
Lemma handleDragEvent_loop llaves angle centroide w0 array :
  Forall (processable llaves w0) array ->
  forall w,
    loop_invariant llaves w0 w ->
    exists w',
      for_in array (handleDragEvent_body llaves angle centroide) w = Ok tt w'
      /\ loop_invariant llaves w0 w'
      /\ forall a f0 s original g0,
           heap w0 !! a = Some f0 ->
           getId f0 = IdString s ->
           s <> PIVOTE_1_ID ->
           s ∈ llaves ->
           feature_original w0 !! s = Some original ->
           getGeometry original = Some g0 ->
           Some a ∈ array \/
           heap w !! a
           = Some (mkFeature (IdString s)
                     (Some (Geometry_rotate angle centroide g0))) ->
           heap w' !! a
           = Some (mkFeature (IdString s)
                     (Some (Geometry_rotate angle centroide g0))).
Proof.
  induction 1 as [| x rest (a1 & f1 & s1 & -> & Ha1 & Hid1 & Hcase) _ IH];
    intros w Hinv.
  { exists w. split; [reflexivity |]. split; [assumption |].
    intros a f0 s original g0 _ _ _ _ _ _ [Hin | Hdone]; [| assumption].
    inversion Hin. }
  destruct Hinv as (Hkeys & Hids & Hgeom & Hnew).
  assert (exists f, heap w !! a1 = Some f /\ getId f = IdString s1)
    as (f & Ha & Hid).
  { specialize (Hids a1). rewrite Ha1 in Hids. simpl in Hids.
    destruct (heap w !! a1) as [f |]; [| discriminate].
    exists f. split; [reflexivity |]. simpl in Hids. congruence. }
  assert (Hother : forall w1,
    loop_invariant llaves w0 w1 ->
    (forall a, a <> a1 -> heap w1 !! a = heap w !! a) ->
    (s1 <> PIVOTE_1_ID -> s1 ∈ llaves ->
     forall original g0,
       feature_original w0 !! s1 = Some original ->
       getGeometry original = Some g0 ->
       heap w1 !! a1
       = Some (mkFeature (IdString s1)
                 (Some (Geometry_rotate angle centroide g0)))) ->
    handleDragEvent_body llaves angle centroide (Some a1) w = Ok tt w1 ->
    exists w',
      for_in (Some a1 :: rest) (handleDragEvent_body llaves angle centroide) w
      = Ok tt w'
      /\ loop_invariant llaves w0 w'
      /\ forall a f0 s original g0,
           heap w0 !! a = Some f0 ->
           getId f0 = IdString s ->
           s <> PIVOTE_1_ID ->
           s ∈ llaves ->
           feature_original w0 !! s = Some original ->
           getGeometry original = Some g0 ->
           Some a ∈ Some a1 :: rest \/
           heap w !! a
           = Some (mkFeature (IdString s)
                     (Some (Geometry_rotate angle centroide g0))) ->
           heap w' !! a
           = Some (mkFeature (IdString s)
                     (Some (Geometry_rotate angle centroide g0)))).
  { intros w1 Hinv1 Hframe Hhere Hbody.
    destruct (IH w1 Hinv1) as (w' & Hrest & Hinv' & Hrot).
    exists w'. split; [rewrite (for_in_cons _ _ _ _ _ Hbody); exact Hrest |].
    split; [exact Hinv' |].
    intros a f0 s original g0 Hf0 Hs Hnp Hin Horig Hg0 Hvisit.
    apply (Hrot a f0 s original g0 Hf0 Hs Hnp Hin Horig Hg0).
    destruct (decide (a = a1)) as [-> | Hne].
    - right. rewrite Ha1 in Hf0. injection Hf0 as <-.
      rewrite Hid1 in Hs. injection Hs as <-.
      eapply Hhere; eassumption.
    - destruct Hvisit as [Hin' | Hdone].
      + left. apply elem_of_cons in Hin' as [[= Heq] | Hin']; [done | exact Hin'].
      + right. rewrite Hframe by exact Hne. exact Hdone. }
  destruct Hcase as [-> | [g Hg]].
  - (* the pivot marker or its homonym: skipped *)
    apply (Hother w).
    + repeat split; assumption.
    + reflexivity.
    + intros Hnp. done.
    + eapply handleDragEvent_body_skip; eassumption.
  - destruct (decide (s1 = PIVOTE_1_ID)) as [-> | Hnp].
    { apply (Hother w).
      + repeat split; assumption.
      + reflexivity.
      + intros Hnp. done.
      + eapply handleDragEvent_body_skip; eassumption. }
    assert (Hnotpivot : is_PIVOTE_1_ID (getId f) = false).
    { rewrite Hid. apply bool_decide_eq_false_2. exact Hnp. }
    unfold rotated_geometry in Hg.
    destruct (bool_decide (s1 ∈ llaves)) eqn:Hin.
    + (* the identifier is among the keys: the baseline is restored *)
      apply bool_decide_eq_true_1 in Hin as Hin'.
      destruct (feature_original w0 !! s1) as [original |] eqn:Horiginal;
        [| discriminate].
      simpl in Hg.
      eapply Hother;
        [| | | eapply (handleDragEvent_body_hit _ _ _ _ f original g);
               [exact Ha | exact Hnotpivot
               | rewrite Hid; exact Hin
               | rewrite Hid; simpl; rewrite Hkeys by exact Hin';
                 exact Horiginal
               | exact Hg]].
      * split; [| split; [| split]].
        -- intros s Hs. simpl. apply Hkeys, Hs.
        -- intros a. simpl. destruct (decide (a = a1)) as [-> | Hne].
           ++ rewrite lookup_insert_eq, Ha1. simpl. congruence.
           ++ rewrite lookup_insert_ne by congruence. apply Hids.
        -- intros a f0 Hf0 Hsome. simpl.
           destruct (decide (a = a1)) as [-> | Hne].
           ++ rewrite lookup_insert_eq. eexists. split; [reflexivity |].
              simpl. eauto.
           ++ rewrite lookup_insert_ne by congruence. eauto.
        -- intros s original' Hs Horiginal'. simpl in Horiginal'.
           eapply Hnew; eassumption.
      * intros a Hne. simpl. apply lookup_insert_ne. congruence.
      * intros _ _ original' g0 Horiginal' Hg0.
        simpl. rewrite lookup_insert_eq, Hid.
        injection Horiginal' as <-.
        rewrite Hg in Hg0. injection Hg0 as <-. reflexivity.
    + (* the identifier is not among the keys: the feature is stored *)
      apply bool_decide_eq_false_1 in Hin as Hin'.
      destruct (Hgeom a1 f1 Ha1 (ex_intro _ g Hg)) as (f' & Ha' & g' & Hg').
      rewrite Ha in Ha'. injection Ha' as <-.
      eapply Hother;
        [| | | eapply (handleDragEvent_body_miss _ _ _ _ f g');
               [exact Ha | exact Hnotpivot
               | rewrite Hid; exact Hin
               | exact Hg']].
      * split; [| split; [| split]].
        -- intros s Hs. simpl. rewrite Hid. simpl.
           rewrite lookup_insert_ne by (intros ->; done). apply Hkeys, Hs.
        -- intros a. simpl. destruct (decide (a = a1)) as [-> | Hne].
           ++ rewrite lookup_insert_eq, Ha1. simpl. congruence.
           ++ rewrite lookup_insert_ne by congruence. apply Hids.
        -- intros a f0 Hf0 Hsome. simpl.
           destruct (decide (a = a1)) as [-> | Hne].
           ++ rewrite lookup_insert_eq. eexists. split; [reflexivity |].
              simpl. eauto.
           ++ rewrite lookup_insert_ne by congruence. eauto.
        -- intros s original Hs Horiginal. simpl in Horiginal.
           rewrite Hid in Horiginal. simpl in Horiginal.
           destruct (decide (s = s1)) as [-> | Hne].
           ++ rewrite lookup_insert_eq in Horiginal.
              injection Horiginal as <-. simpl. eauto.
           ++ rewrite lookup_insert_ne in Horiginal by congruence.
              eapply Hnew; eassumption.
      * intros a Hne. simpl. apply lookup_insert_ne. congruence.
      * intros _ Hs. done.
Qed.

Lemma handleDragEvent_body_interaction llaves angle centroide x r d :
  preserves (interaction_is r d)
    (handleDragEvent_body llaves angle centroide x).
Proof.
  unfold handleDragEvent_body.
  repeat first
    [ preserves_step
    | apply preserves_modify; intros ? [? ?]; split; assumption ].
Qed.

(** One drag update in a session over features with string identifiers:
    it returns, leaves a session behind, keeps the pivot marker, the
    press coordinate and the baselines stored before, and gives every
    feature that had a baseline that baseline, rotated by the angle of
    the update. *)
Lemma handleDragEvent_session (event : MapBrowserEvent) w :
  session w ->
  exists w' angle centroide,
    drag_angle w event = Some (angle, centroide) /\
    handleDragEvent event w = Ok tt w' /\
    session w' /\
    this w' = set_lastCoordinate_ (Some (coordinate event)) (this w) /\
    heap w' !! pivote_1 (this w) = heap w !! pivote_1 (this w) /\
    (forall s, is_Some (feature_original w !! s) ->
               feature_original w' !! s = feature_original w !! s) /\
    (forall a f s original g0,
        Some a ∈ features_getArray (this w) ->
        heap w !! a = Some f ->
        getId f = IdString s ->
        s <> PIVOTE_1_ID ->
        feature_original w !! s = Some original ->
        getGeometry original = Some g0 ->
        heap w' !! a
        = Some (mkFeature (IdString s)
                  (Some (Geometry_rotate angle centroide g0)))).
Proof.
  intros ([lc Hlc] & [c0 Hc0] & (p & Hp & Hpid & punto & Hpunto) & Harray).
  set (llaves := Object_keys (feature_original w)) in *.
  set (centroide := getCoordinates punto).
  set (angle := angulo_en_radiane (getAzimut centroide c0)
                  (getAzimut centroide (coordinate event))).
  destruct (handleDragEvent_loop llaves angle centroide w _ Harray w
              (loop_invariant_refl w))
    as (wl & Hloop & (Hkeys & Hids & Hgeom & Hnew) & Hrot).
  assert (Hthis : interaction_is (this w) (dispatched w) wl).
  { pose proof (preserves_for_in (interaction_is (this w) (dispatched w))
                  (features_getArray (this w))
                  (handleDragEvent_body llaves angle centroide)
                  (fun x => handleDragEvent_body_interaction _ _ _ x _ _)
                  w (conj eq_refl eq_refl)) as Hframe.
    rewrite Hloop in Hframe. exact Hframe. }
  destruct Hthis as [Hthis Hdispatched].
  assert (Hpivote : heap wl !! pivote_1 (this w) = Some p).
  { pose proof (preserves_for_in
                  (PIVOTE_1_ID_untouched (pivote_1 (this w)) p
                     (feature_original w !! PIVOTE_1_ID)
                     (predioEdicionSelected w !! PIVOTE_1_ID))
                  (features_getArray (this w))
                  (handleDragEvent_body llaves angle centroide)
                  (fun x => handleDragEvent_body_untouched _ _ _ x _ _ _ _
                              Hpid)
                  w (conj Hp (conj eq_refl eq_refl))) as Hframe.
    rewrite Hloop in Hframe. apply Hframe. }
  exists (with_dispatched
            (fun log =>
               log ++ [mkRotateEvent ROTATING (features_getArray (this w))
                         (coordinate event) (startCoordinate_ (this w))
                         event])
            (with_this (set_lastCoordinate_ (Some (coordinate event))) wl)),
    angle, centroide.
  split; [| split; [| split; [| split; [| split; [| split]]]]].
  - unfold drag_angle. rewrite Hp. simpl. rewrite Hpunto. simpl.
    rewrite Hc0. reflexivity.
  - unfold handleDragEvent. unfold bind at 1, get at 1.
    rewrite Hlc. cbn [truthy]. unfold bind at 1, read at 1. rewrite Hp.
    unfold bind at 1. rewrite Hpunto. cbn [defined ret].
    unfold bind at 1. rewrite Hc0. cbn [defined ret].
    unfold bind at 1. fold llaves centroide angle. rewrite Hloop.
    unfold bind, modify, get, dispatchEvent, modify. cbn.
    rewrite Hthis. reflexivity.
  - split; [| split; [| split]]; cbn.
    + eauto.
    + rewrite Hthis. cbn. rewrite Hc0. eauto.
    + rewrite Hthis. cbn. exists p. eauto.
    + rewrite Hthis.
      replace (features_getArray
                 (set_lastCoordinate_ (Some (coordinate event)) (this w)))
        with (features_getArray (this w)) by reflexivity.
      eapply Forall_impl; [exact Harray |].
      intros x (a & f0 & s & -> & Ha & Hid & Hcase).
      assert (exists f, heap wl !! a = Some f /\ getId f = IdString s)
        as (f & Ha' & Hid').
      { specialize (Hids a). rewrite Ha in Hids. simpl in Hids.
        destruct (heap wl !! a) as [f |]; [| discriminate].
        exists f. split; [reflexivity |]. simpl in Hids. congruence. }
      exists a, f, s. repeat split; [exact Ha' | exact Hid' |].
      destruct Hcase as [-> | Hsome]; [left; reflexivity | right].
      unfold rotated_geometry in *. cbn. fold llaves in Hsome.
      destruct (bool_decide (s ∈ Object_keys (feature_original wl)))
        eqn:Hin'.
      * apply bool_decide_eq_true_1, elem_of_Object_keys in Hin'
          as [original Horiginal].
        rewrite Horiginal. simpl.
        destruct (bool_decide (s ∈ llaves)) eqn:Hin.
        -- apply bool_decide_eq_true_1 in Hin.
           rewrite <- (Hkeys s Hin), Horiginal in Hsome. exact Hsome.
        -- apply bool_decide_eq_false_1 in Hin. eapply Hnew; eassumption.
      * destruct (bool_decide (s ∈ llaves)) eqn:Hin.
        -- apply bool_decide_eq_true_1 in Hin.
           apply bool_decide_eq_false_1 in Hin'. exfalso. apply Hin'.
           apply elem_of_Object_keys. rewrite (Hkeys s Hin).
           apply elem_of_Object_keys. exact Hin.
        -- destruct (Hgeom a f0 Ha Hsome) as (f' & Hf' & Hg').
           rewrite Ha' in Hf'. injection Hf' as <-. exact Hg'.
  - cbn. rewrite Hthis. reflexivity.
  - cbn. rewrite Hpivote, Hp. reflexivity.
  - intros s Hs. cbn. apply Hkeys. apply elem_of_Object_keys. exact Hs.
  - intros a f s original g0 Hin Ha Hid Hnp Horiginal Hg0. cbn.
    eapply Hrot; try eassumption.
    + apply elem_of_Object_keys. eauto.
    + left. exact Hin.
Qed.

(** The angle of an update depends on the pivot marker, the press
    coordinate and the pointer alone, and a drag update keeps the first
    two. *)
Lemma drag_angle_kept (event event' : MapBrowserEvent) w w' :
  this w' = set_lastCoordinate_ (Some (coordinate event)) (this w) ->
  heap w' !! pivote_1 (this w) = heap w !! pivote_1 (this w) ->
  drag_angle w' event' = drag_angle w event'.
Proof.
  intros Hthis Hheap. unfold drag_angle. rewrite Hthis. cbn.
  rewrite Hheap. reflexivity.
Qed.

(** No drift, for string identifiers.  In a session over features with
    string identifiers, drag to A, then to B, then back to A: the three
    updates return, and every feature whose identifier had a baseline in
    the cache has after the third update the geometry it had after the
    first, which is that baseline rotated by the angle of A. *)
Lemma string_identifier_replay (eventA eventB : MapBrowserEvent) w :
  session w ->
  exists wA wB wA' angle centroide,
    drag_angle w eventA = Some (angle, centroide) /\
    handleDragEvent eventA w = Ok tt wA /\
    handleDragEvent eventB wA = Ok tt wB /\
    handleDragEvent eventA wB = Ok tt wA' /\
    forall a f s original g0,
      Some a ∈ features_getArray (this w) ->
      heap w !! a = Some f ->
      getId f = IdString s ->
      s <> PIVOTE_1_ID ->
      feature_original w !! s = Some original ->
      getGeometry original = Some g0 ->
      heap wA !! a
      = Some (mkFeature (IdString s)
                (Some (Geometry_rotate angle centroide g0))) /\
      heap wA' !! a = heap wA !! a.
Proof.
  intros Hw.
  destruct (handleDragEvent_session eventA w Hw)
    as (wA & angle & centroide & Hangle & HA & HwA & HthisA & HpA & HkA & HrA).
  destruct (handleDragEvent_session eventB wA HwA)
    as (wB & angleB & centroideB & _ & HB & HwB & HthisB & HpB & HkB & HrB).
  destruct (handleDragEvent_session eventA wB HwB)
    as (wA' & angle' & centroide' & Hangle' & HA' & _ & _ & _ & _ & HrA').
  assert (HpivA : pivote_1 (this wA) = pivote_1 (this w))
    by (rewrite HthisA; reflexivity).
  assert (HarrA : features_getArray (this wA) = features_getArray (this w))
    by (rewrite HthisA; reflexivity).
  assert (HarrB : features_getArray (this wB) = features_getArray (this w))
    by (rewrite HthisB, <- HarrA; reflexivity).
  rewrite (drag_angle_kept eventB eventA wA wB HthisB HpB) in Hangle'.
  rewrite (drag_angle_kept eventA eventA w wA HthisA HpA) in Hangle'.
  rewrite Hangle in Hangle'. injection Hangle' as <- <-.
  exists wA, wB, wA', angle, centroide.
  repeat (split; [assumption |]).
  intros a f s original g0 Hin Ha Hid Hnp Horiginal Hg0.
  pose proof (HrA a f s original g0 Hin Ha Hid Hnp Horiginal Hg0) as HaA.
  split; [exact HaA |].
  assert (HoA : feature_original wA !! s = Some original)
    by (rewrite HkA by eauto; exact Horiginal).
  assert (HaB : heap wB !! a
                = Some (mkFeature (IdString s)
                          (Some (Geometry_rotate angleB centroideB g0)))).
  { eapply HrB; try eassumption; [rewrite HarrA; exact Hin | reflexivity]. }
  assert (HoB : feature_original wB !! s = Some original)
    by (rewrite HkB by eauto; exact HoA).
  rewrite HaA. eapply HrA'; try eassumption;
    [rewrite HarrB; exact Hin | reflexivity].
Qed.

End SessionProperties.

(** The replay on the crowded session with a baseline of "a" in the
    cache: whatever the live geometry, after A, B, A the feature shows
    the baseline, rotated by the angle of A. *)
Lemma string_identifier_replay_example :
  exists wA wB wA' angle centroide,
    handleDragEvent (drag_to (Num 2, Num 0)) cached_world = Ok tt wA /\
    handleDragEvent (drag_to (Num 0, Num 0)) wA = Ok tt wB /\
    handleDragEvent (drag_to (Num 2, Num 0)) wB = Ok tt wA' /\
    heap wA' !! 1%nat
    = Some (mkFeature (IdString "a")
              (Some (Geometry_rotate angle centroide square))).
Proof.
  assert (Hsession : session cached_world).
  { split; [eexists; reflexivity |]. split; [eexists; reflexivity |].
    split; [eexists; repeat split; eexists; reflexivity |].
    repeat constructor.
    - exists 0%nat, (pivote_at (Num 1, Num 1)), PIVOTE_1_ID.
      do 3 (split; [reflexivity |]). left. reflexivity.
    - exists 1%nat, (mkFeature (IdString "a") (Some moved_square)),
        "a"%string.
      do 3 (split; [reflexivity |]). right. vm_compute. eauto.
    - exists 2%nat, (mkFeature (IdString PIVOTE_1_ID) (Some moved_square)),
        PIVOTE_1_ID.
      do 3 (split; [reflexivity |]). left. reflexivity. }
  destruct (string_identifier_replay (drag_to (Num 2, Num 0))
              (drag_to (Num 0, Num 0)) cached_world Hsession)
    as (wA & wB & wA' & angle & centroide & _ & HA & HB & HA' & Hreplay).
  exists wA, wB, wA', angle, centroide. repeat (split; [assumption |]).
  assert (Hin : Some 1%nat ∈ features_getArray (this cached_world))
    by repeat constructor.
  assert (Hnp : "a"%string <> PIVOTE_1_ID) by discriminate.
  destruct (Hreplay 1%nat (mkFeature (IdString "a") (Some moved_square))
              "a"%string (mkFeature IdUndefined (Some square))
              square Hin eq_refl eq_refl Hnp eq_refl eq_refl)
    as [Hfirst Hthird].
  exact (eq_trans Hthird Hfirst).
Qed.

(** ** Drift, for numeric identifiers *)

Section DragProperties.

Context {Geometry : Type} `{GeometryOps Geometry}.

Implicit Types (w : World Geometry) (f : Feature Geometry) (a : addr).

(** A drag update over a single feature whose identifier is not among
    the keys of the cache: the feature is stored as the baseline, and its
    live geometry is rotated. *)
Lemma handleDragEvent_miss (event : MapBrowserEvent) w a f g p punto c0 lc :
  features_getArray (this w) = [Some a] ->
  lastCoordinate_ (this w) = Some lc ->
  heap w !! pivote_1 (this w) = Some p ->
  getGeometry p = Some punto ->
  coordinate_ (this w) = Some c0 ->
  heap w !! a = Some f ->
  is_PIVOTE_1_ID (getId f) = false ->
  Array_includes (Object_keys (feature_original w)) (getId f) = false ->
  getGeometry f = Some g ->
  let centroide := getCoordinates punto in
  let angle :=
    angulo_en_radiane (getAzimut centroide c0)
      (getAzimut centroide (coordinate event)) in
  handleDragEvent event w
  = Ok tt
      (with_dispatched
         (fun log =>
            log ++ [mkRotateEvent ROTATING [Some a] (coordinate event)
                      (startCoordinate_ (this w)) event])
         (with_this (set_lastCoordinate_ (Some (coordinate event)))
            (with_heap
               (alter (Feature_setGeometry
                         (Geometry_rotate angle centroide g)) a)
               (with_predioEdicionSelected (<[property_key (getId f) := a]>)
                  (with_feature_original
                     (<[property_key (getId f) := Feature_clone f]>) w))))).
Proof.
  intros Harray Hlast Hp Hpunto Hc0 Ha Hid Hmiss Hg centroide angle.
  unfold handleDragEvent. unfold bind at 1, get at 1.
  rewrite Hlast. cbn [truthy]. unfold bind at 1, read at 1. rewrite Hp.
  unfold bind at 1. rewrite Hpunto. cbn [defined ret].
  unfold bind at 1. rewrite Hc0. cbn [defined ret].
  rewrite Harray. cbn [for_in]. unfold bind at 1. unfold bind at 1.
  unfold handleDragEvent_body at 1. unfold bind at 1. cbn [defined ret].
  unfold bind at 1, read at 1. rewrite Ha, Hid, Hmiss.
  unfold bind at 1. unfold bind at 1, read at 1. rewrite Ha.
  cbn [modify]. unfold bind at 1, read at 1. cbn [with_feature_original heap].
  rewrite Ha. unfold bind at 1. cbn [modify]. rewrite Hg.
  unfold bind at 1. cbn [defined ret modify]. reflexivity.
Qed.

End DragProperties.

Lemma rotate_coordinate_Num angle ax ay x y :
  rotate_coordinate (Num angle) (Num ax, Num ay) (Num x, Num y)
  = (Num (ax + (x - ax) * cos angle - (y - ay) * sin angle),
     Num (ay + (x - ax) * sin angle + (y - ay) * cos angle)).
Proof. reflexivity. Qed.

(** No turn: the pointer is at the azimuth of the press. *)
Lemma rotate_by_0 (s : R) ax ay x y :
  rotate_coordinate (angulo_en_radiane (Num s) (Num s)) (Num ax, Num ay)
    (Num x, Num y)
  = (Num x, Num y).
Proof.
  rewrite angulo_en_radiane_Num, rotate_coordinate_Num.
  replace ((s - s) * -1 * PI / -180) with 0 by (unfold Rdiv; ring).
  rewrite cos_0, sin_0. f_equal; f_equal; ring.
Qed.

(** From azimuth 45 to azimuth 135: a quarter turn, clockwise. *)
Lemma rotate_by_quarter x y :
  rotate_coordinate (angulo_en_radiane (Num 45) (Num 135)) (Num 0, Num 0)
    (Num x, Num y)
  = (Num y, Num (- x)).
Proof.
  rewrite angulo_en_radiane_Num, rotate_coordinate_Num.
  replace ((45 - 135) * -1 * PI / -180) with (- (PI / 2))
    by (field; apply PI_neq0).
  rewrite cos_neg, sin_neg, cos_PI2, sin_PI2. f_equal; f_equal; ring.
Qed.

Lemma turned_segment_differs : turned_segment <> segment.
Proof. intros [= Heq _ _]. lra. Qed.

(** C6 (the code at the failing input).  Feature 1 has the numeric
    identifier 5.  Dragging to the press coordinate shows the segment as
    it was; dragging on to (1, -1) turns it by a quarter, the cache then
    holding the segment as the baseline under the key of 5; dragging back
    to the press coordinate leaves the segment turned, for the baseline
    is not found and the present geometry is stored over it, whereas the
    baseline rotated by the angle of that update is the segment as it
    was. *)
Theorem numeric_identifier_drifts :
  handleDragEvent (drag_to (Num 1, Num 1)) numeric_world
  = Ok tt numeric_world_first /\
  handleDragEvent (drag_to (Num 1, Num (-1))) numeric_world_first
  = Ok tt numeric_world_second /\
  handleDragEvent (drag_to (Num 1, Num 1)) numeric_world_second
  = Ok tt numeric_world_third /\
  heap numeric_world_first !! 1%nat
  = Some (mkFeature (IdNumber 5) (Some segment)) /\
  feature_original numeric_world_second !! property_key (IdNumber 5)
  = Some (mkFeature IdUndefined (Some segment)) /\
  heap numeric_world_third !! 1%nat
  = Some (mkFeature (IdNumber 5) (Some turned_segment)) /\
  turned_segment <> segment /\
  Geometry_rotate
    (angulo_en_radiane (getAzimut (Num 0, Num 0) (Num 1, Num 1))
       (getAzimut (Num 0, Num 0) (Num 1, Num 1)))
    (Num 0, Num 0) segment
  = segment.
Proof.
  split; [| split; [| split]].
  - rewrite (handleDragEvent_miss _ numeric_world 1%nat
               (mkFeature (IdNumber 5) (Some segment)) segment
               (pivote_at (Num 0, Num 0)) (Point (Num 0, Num 0))
               (Num 1, Num 1) (Num 1, Num 1))
      by reflexivity.
    cbn [getCoordinates Point FlatGeometryOps hd drag_to coordinate].
    rewrite getAzimut_45.
    cbn [Geometry_rotate FlatGeometryOps segment fmap list_fmap].
    rewrite !rotate_by_0. vm_compute. reflexivity.
  - rewrite (handleDragEvent_miss _ numeric_world_first 1%nat
               (mkFeature (IdNumber 5) (Some segment)) segment
               (pivote_at (Num 0, Num 0)) (Point (Num 0, Num 0))
               (Num 1, Num 1) (Num 1, Num 1))
      by reflexivity.
    cbn [getCoordinates Point FlatGeometryOps hd drag_to coordinate].
    rewrite getAzimut_45, getAzimut_135.
    cbn [Geometry_rotate FlatGeometryOps segment fmap list_fmap].
    rewrite !rotate_by_quarter.
    replace (Ropp (-1)) with 1 by lra. vm_compute. reflexivity.
  - rewrite (handleDragEvent_miss _ numeric_world_second 1%nat
               (mkFeature (IdNumber 5) (Some turned_segment)) turned_segment
               (pivote_at (Num 0, Num 0)) (Point (Num 0, Num 0))
               (Num 1, Num 1) (Num 1, Num (-1)))
      by reflexivity.
    cbn [getCoordinates Point FlatGeometryOps hd drag_to coordinate].
    rewrite getAzimut_45.
    cbn [Geometry_rotate FlatGeometryOps turned_segment fmap list_fmap].
    rewrite !rotate_by_0. vm_compute. reflexivity.
  - split; [vm_compute; reflexivity |]. split; [vm_compute; reflexivity |].
    split; [vm_compute; reflexivity |].
    split; [apply turned_segment_differs |].
    rewrite getAzimut_45.
    cbn [Geometry_rotate FlatGeometryOps segment fmap list_fmap].
    rewrite !rotate_by_0. reflexivity.
Qed.

(** * Further properties *)

(** ** The azimuth as a function of the direction *)

(** X1.  Unless both differences overflow, the azimuth is a number of
    degrees from 0 to 360. *)
Theorem getAzimut_range (x1 y1 x2 y2 : R) :
  ~ (overflows (x2 - x1) /\ overflows (y2 - y1)) ->
  exists a : R,
    Overflow.getAzimut (Num x1, Num y1) (Num x2, Num y2) = Num a /\
    0 <= a <= 360.
Proof. apply Overflow_getAzimut_Num. Qed.

Lemma getAzimut_range_witness :
  exists a : R,
    Overflow.getAzimut (Num (- huge), Num 0) (Num huge, Num 1) = Num a /\
    0 <= a <= 360.
Proof.
  apply getAzimut_range. intros [_ Hy].
  revert Hy. apply small_in_range, Rabs_le. lra.
Defined.

(** The azimuth is a function of the two differences. *)
Lemma getAzimut_differences x1 y1 x2 y2 x1' y1' x2' y2' :
  x2' - x1' = x2 - x1 ->
  y2' - y1' = y2 - y1 ->
  getAzimut (Num x1', Num y1') (Num x2', Num y2')
  = getAzimut (Num x1, Num y1) (Num x2, Num y2).
Proof.
  intros Hx Hy. unfold getAzimut. cbn [fst snd Number_sub].
  rewrite Hx, Hy. reflexivity.
Qed.

(** X2.  Moving both coordinates by the same vector keeps the azimuth. *)
Theorem getAzimut_translation (x1 y1 x2 y2 tx ty : R) :
  getAzimut (Num (x1 + tx), Num (y1 + ty)) (Num (x2 + tx), Num (y2 + ty))
  = getAzimut (Num x1, Num y1) (Num x2, Num y2).
Proof. apply getAzimut_differences; ring. Qed.

(** ** Hit testing *)

Lemma featuresAtPixel_callback_Some r feature layer a :
  layerFilter_ r layer = true /\
  featuresAtPixel_callback r feature layer = Some a
  <-> rotable r (feature, layer) a.
Proof.
  unfold rotable, featuresAtPixel_callback. cbn [fst snd]. split.
  - intros [Hlayer Hcallback]. destruct feature as [| a']; [discriminate |].
    destruct (filter_ r a' layer) eqn:Hfilter; [| discriminate].
    cbn [negb] in Hcallback.
    destruct (features_ r) as [collection |].
    + destruct (bool_decide (a' ∈ collection)) eqn:Hin; [| discriminate].
      injection Hcallback as <-. apply bool_decide_eq_true_1 in Hin.
      repeat split; try assumption. intros ? [= <-]. exact Hin.
    + injection Hcallback as <-. repeat split; try assumption.
      discriminate.
  - intros (-> & Hlayer & Hfilter & Hin). split; [exact Hlayer |].
    rewrite Hfilter. cbn [negb].
    destruct (features_ r) as [collection |]; [| reflexivity].
    rewrite bool_decide_eq_true_2 by (apply Hin; reflexivity). reflexivity.
Qed.

Lemma forEachFeatureAtPixel_first r before candidate after a :
  none_rotable r before ->
  rotable r candidate a ->
  forEachFeatureAtPixel (before ++ candidate :: after) (layerFilter_ r)
    (featuresAtPixel_callback r)
  = Some a.
Proof.
  intros Hbefore Hcandidate.
  induction Hbefore as [| [feature layer] before Hno _ IH]; simpl.
  - destruct candidate as [feature layer].
    apply featuresAtPixel_callback_Some in Hcandidate as [-> ->].
    reflexivity.
  - destruct (layerFilter_ r layer) eqn:Hlayer; [| exact IH].
    destruct (featuresAtPixel_callback r feature layer) as [b |] eqn:Hb;
      [| exact IH].
    exfalso. apply (Hno b). apply featuresAtPixel_callback_Some. auto.
Qed.

Lemma forEachFeatureAtPixel_rotable r candidates :
  match forEachFeatureAtPixel candidates (layerFilter_ r)
          (featuresAtPixel_callback r) with
  | Some a =>
      exists before candidate after,
        candidates = before ++ candidate :: after /\
        none_rotable r before /\ rotable r candidate a
  | None => none_rotable r candidates
  end.
Proof.
  induction candidates as [| [feature layer] rest IH]; simpl.
  - constructor.
  - assert (Hskip :
      (forall b, ~ rotable r (feature, layer) b) ->
      match forEachFeatureAtPixel rest (layerFilter_ r)
              (featuresAtPixel_callback r) with
      | Some a =>
          exists before candidate after,
            (feature, layer) :: rest = before ++ candidate :: after /\
            none_rotable r before /\ rotable r candidate a
      | None => none_rotable r ((feature, layer) :: rest)
      end).
    { intros Hno.
      destruct (forEachFeatureAtPixel rest _ _) as [a |].
      - destruct IH as (before & candidate & after & -> & Hbefore & Ha).
        exists ((feature, layer) :: before), candidate, after.
        split; [reflexivity |]. split; [constructor |]; assumption.
      - constructor; assumption. }
    destruct (layerFilter_ r layer) eqn:Hlayer.
    + destruct (featuresAtPixel_callback r feature layer) as [a |] eqn:Ha.
      * exists [], (feature, layer), rest. split; [reflexivity |].
        split; [constructor |]. apply featuresAtPixel_callback_Some. auto.
      * apply Hskip. intros b Hb.
        apply featuresAtPixel_callback_Some in Hb as [_ Hb]. congruence.
    + apply Hskip. intros b Hb.
      apply featuresAtPixel_callback_Some in Hb as [Hb _]. congruence.
Qed.

(** X10.  [featuresAtPixel_] returns the first candidate under the
    pointer that is a feature on an accepted layer, passes the filter
    and belongs to the collection when there is one; it returns nothing
    exactly when no candidate is such. *)
Theorem featuresAtPixel_first_rotable (r : Rotate) (event : MapBrowserEvent) :
  (forall a,
      featuresAtPixel_ r event = Some a <->
      exists before candidate after,
        atPixel event = before ++ candidate :: after /\
        none_rotable r before /\ rotable r candidate a) /\
  (featuresAtPixel_ r event = None <-> none_rotable r (atPixel event)).
Proof.
  unfold featuresAtPixel_.
  pose proof (forEachFeatureAtPixel_rotable r (atPixel event)) as Hfound.
  split; [intros a |]; split.
  - intros Ha. rewrite Ha in Hfound. exact Hfound.
  - intros (before & candidate & after & -> & Hbefore & Ha).
    apply forEachFeatureAtPixel_first; assumption.
  - intros Hnone. rewrite Hnone in Hfound. exact Hfound.
  - intros Hnone.
    destruct (forEachFeatureAtPixel _ _ _) as [a |]; [| reflexivity].
    destruct Hfound as (before & candidate & after & Heq & _ & Ha).
    exfalso. unfold none_rotable in Hnone. rewrite Heq in Hnone.
    apply Forall_app in Hnone as [_ Hnone].
    apply Forall_cons in Hnone as [Hnone _]. exact (Hnone a Ha).
Qed.

(** ** The cursor *)

(** Removing one class and adding another. *)
Lemma classList_swap (removed added : string) (l : list string) :
  removed <> added ->
  let l1 := filter (fun c => bool_decide (c ∈ [removed]) = false) l in
  let l2 := if bool_decide (added ∈ l1) then l1 else l1 ++ [added] in
  added ∈ l2 /\ (removed ∉ l2) /\
  forall c, c <> removed -> c <> added -> c ∈ l2 <-> c ∈ l.
Proof.
  intros Hne l1 l2.
  assert (Hl1 : forall c, c ∈ l1 <-> c <> removed /\ c ∈ l).
  { intros c. unfold l1.
    rewrite list_elem_of_filter, bool_decide_eq_false, list_elem_of_singleton.
    reflexivity. }
  assert (Hl2 : forall c, c ∈ l2 <-> c ∈ l1 \/ c = added).
  { intros c. unfold l2. destruct (bool_decide (added ∈ l1)) eqn:Hin.
    - apply bool_decide_eq_true_1 in Hin. split; [auto |].
      intros [Hc | ->]; assumption.
    - rewrite elem_of_app, list_elem_of_singleton. reflexivity. }
  split; [apply Hl2; auto |]. split.
  - rewrite Hl2, Hl1. intros [[Hc _] | Hc]; congruence.
  - intros c Hr Ha. rewrite Hl2, Hl1. intuition.
Qed.

Section Cursor.

Context {Geometry : Type} `{GeometryOps Geometry}.

Implicit Types (w : World Geometry) (event : MapBrowserEvent).

(** [handleMoveEvent] always returns, and changes the class list of the
    viewport alone. *)
Lemma handleMoveEvent_classes event w :
  exists classes,
    handleMoveEvent event w = Ok tt (with_classList (fun _ => classes) w) /\
    (("ol-grabbing" : string) ∈ classes <->
     is_Some (featuresAtPixel_ (this w) event) /\
     is_Some (lastCoordinate_ (this w))) /\
    (("ol-grab" : string) ∈ classes <->
     is_Some (featuresAtPixel_ (this w) event) /\
     lastCoordinate_ (this w) = None) /\
    (forall c : string,
        c <> "ol-grab" -> c <> "ol-grabbing" ->
        c ∈ classes <-> c ∈ classList w).
Proof.
  unfold handleMoveEvent, bind, get, classList_remove, classList_add, modify.
  destruct (featuresAtPixel_ (this w) event) as [a |]; cbn [truthy].
  - destruct (lastCoordinate_ (this w)) as [lc |]; cbn [truthy];
      (eexists; split; [reflexivity |]); cbn [with_classList classList].
    + destruct (classList_swap "ol-grab" "ol-grabbing" (classList w))
        as (Hadded & Hremoved & Hother); [discriminate |].
      split; [split; [eauto | intros _; exact Hadded] |].
      split; [split; [intros Hin; contradiction | intros [_ [=]]] |].
      intros c Hgrab Hgrabbing. apply Hother; assumption.
    + destruct (classList_swap "ol-grabbing" "ol-grab" (classList w))
        as (Hadded & Hremoved & Hother); [discriminate |].
      split; [split; [intros Hin; contradiction | intros [_ [? [=]]]] |].
      split; [split; [eauto | intros _; exact Hadded] |].
      intros c Hgrab Hgrabbing. apply Hother; assumption.
  - eexists. split; [reflexivity |]. cbn [with_classList classList].
    assert (Hl : forall c : string,
      c ∈ filter (fun c => bool_decide (c ∈ ["ol-grab"; "ol-grabbing"]) = false)
            (classList w)
      <-> (c <> "ol-grab" /\ c <> "ol-grabbing") /\ c ∈ classList w).
    { intros c.
      rewrite list_elem_of_filter, bool_decide_eq_false, !elem_of_cons,
        elem_of_nil.
      intuition. }
    split; [split; [intros Hin%Hl; intuition | intros [[? [=]] _]] |].
    split; [split; [intros Hin%Hl; intuition | intros [[? [=]] _]] |].
    intros c Hgrab Hgrabbing. rewrite Hl. intuition.
Qed.

(** X11.  [handleMoveEvent] always returns and changes nothing but the
    class list of the viewport, which then holds [ol-grabbing] exactly
    when a rotable feature lies under the pointer during a session,
    [ol-grab] exactly when one lies there outside a session, and every
    other class as before. *)
Theorem handleMoveEvent_cursor event w :
  exists classes,
    handleMoveEvent event w = Ok tt (with_classList (fun _ => classes) w) /\
    (("ol-grabbing" : string) ∈ classes <->
     is_Some (featuresAtPixel_ (this w) event) /\
     is_Some (lastCoordinate_ (this w))) /\
    (("ol-grab" : string) ∈ classes <->
     is_Some (featuresAtPixel_ (this w) event) /\
     lastCoordinate_ (this w) = None) /\
    (forall c : string,
        c <> "ol-grab" -> c <> "ol-grabbing" ->
        c ∈ classes <-> c ∈ classList w).
Proof. apply handleMoveEvent_classes. Qed.

End Cursor.

(** ** Presses *)

Section Presses.

Context {Geometry : Type} `{GeometryOps Geometry}.

Implicit Types (w : World Geometry) (event : MapBrowserEvent).

(** A press that the gate turns down. *)
Lemma handleDownEvent_gate event w :
  originalEvent event = false \/ condition_ (this w) event = false ->
  handleDownEvent event w = Ok false w.
Proof.
  intros Hgate. unfold handleDownEvent, bind, get, ret.
  destruct Hgate as [-> | ->]; [reflexivity |].
  rewrite orb_true_r. reflexivity.
Qed.

(** The two writes that precede the test for a session. *)
Lemma handleDownEvent_hit_test event w :
  originalEvent event = true ->
  condition_ (this w) event = true ->
  handleDownEvent event w
  = (let* w := get in
     if negb (truthy (lastCoordinate_ (this w)))
        && truthy (lastFeature_ (this w)) then
       modify (with_this (set_startCoordinate_ (Some (coordinate event)))) ;;
       modify (with_this (set_lastCoordinate_ (Some (coordinate event)))) ;;
       handleMoveEvent event ;;
       let* w := get in
       let features := features_getArray (this w) in
       dispatchEvent
         (mkRotateEvent ROTATESTART features (coordinate event)
            (startCoordinate_ (this w)) event) ;;
       ret true
     else ret false)
      (with_this
         (fun r => set_lastFeature_ (featuresAtPixel_ (this w) event)
                     (set_coordinate_ (Some (coordinate event)) r))
         w).
Proof.
  intros Horiginal Hcondition. unfold handleDownEvent.
  unfold bind at 1, get at 1. rewrite Horiginal, Hcondition. cbn [negb orb].
  unfold bind at 1, modify at 1. unfold bind at 1, modify at 1.
  reflexivity.
Qed.

(** A press outside a session that hits no rotable feature. *)
Lemma handleDownEvent_no_hit event w :
  originalEvent event = true ->
  condition_ (this w) event = true ->
  featuresAtPixel_ (this w) event = None ->
  handleDownEvent event w
  = Ok false
      (with_this
         (fun r => set_lastFeature_ None
                     (set_coordinate_ (Some (coordinate event)) r))
         w).
Proof.
  intros Horiginal Hcondition Hhit.
  rewrite handleDownEvent_hit_test, Hhit by assumption.
  unfold bind, get. cbn. rewrite andb_false_r. reflexivity.
Qed.

(** A press outside a session that hits the rotable feature [a]. *)
Lemma handleDownEvent_accept event w a :
  originalEvent event = true ->
  condition_ (this w) event = true ->
  lastCoordinate_ (this w) = None ->
  featuresAtPixel_ (this w) event = Some a ->
  exists classes,
    handleDownEvent event w
    = Ok true
        (with_dispatched
           (fun log =>
              log ++ [mkRotateEvent ROTATESTART
                        (features_getArray (set_lastFeature_ (Some a) (this w)))
                        (coordinate event) (Some (coordinate event)) event])
           (with_classList (fun _ => classes)
              (with_this
                 (fun r =>
                    set_lastCoordinate_ (Some (coordinate event))
                      (set_startCoordinate_ (Some (coordinate event))
                         (set_lastFeature_ (Some a)
                            (set_coordinate_ (Some (coordinate event)) r))))
                 w))) /\
    ("ol-grabbing" : string) ∈ classes /\
    (("ol-grab" : string) ∉ classes) /\
    (forall c : string,
        c <> "ol-grab" -> c <> "ol-grabbing" ->
        c ∈ classes <-> c ∈ classList w).
Proof.
  intros Horiginal Hcondition Hlast Hhit.
  set (w1 := with_this
               (fun r =>
                  set_lastCoordinate_ (Some (coordinate event))
                    (set_startCoordinate_ (Some (coordinate event))
                       (set_lastFeature_ (Some a)
                          (set_coordinate_ (Some (coordinate event)) r))))
               w).
  destruct (handleMoveEvent_classes event w1)
    as (classes & Hmove & Hgrabbing & Hgrab & Hother).
  change (featuresAtPixel_ (this w1) event)
    with (featuresAtPixel_ (this w) event) in Hgrabbing, Hgrab.
  rewrite Hhit in Hgrabbing, Hgrab.
  exists classes. split; [| split; [| split]].
  - rewrite handleDownEvent_hit_test, Hhit by assumption.
    unfold bind at 1, get at 1.
    cbn [with_this this set_lastFeature_ lastCoordinate_ lastFeature_
           set_coordinate_].
    rewrite Hlast. cbn [truthy negb andb].
    unfold bind at 1, modify at 1. unfold bind at 1, modify at 1.
    unfold bind at 1.
    match goal with
    | |- context [handleMoveEvent event ?w'] => change w' with w1
    end.
    rewrite Hmove. reflexivity.
  - apply Hgrabbing. split; eexists; reflexivity.
  - intros Hin. apply Hgrab in Hin as [_ Hnone]. discriminate.
  - exact Hother.
Qed.

(** X12.  [handleDownEvent] always returns; it consumes the press
    exactly when the event has an original event, the condition holds,
    no session is open and a rotable feature lies under the pointer; it
    never touches a feature, the two dictionaries or the pivot source;
    and a press that is not consumed dispatches nothing and leaves the
    session fields and the cursor as they were. *)
Theorem handleDownEvent_consumed event w :
  exists (consumed : bool) w',
    handleDownEvent event w = Ok consumed w' /\
    (consumed = true <->
     originalEvent event = true /\ condition_ (this w) event = true /\
     lastCoordinate_ (this w) = None /\
     is_Some (featuresAtPixel_ (this w) event)) /\
    heap w' = heap w /\
    feature_original w' = feature_original w /\
    predioEdicionSelected w' = predioEdicionSelected w /\
    source_cartodi_pivote_ w' = source_cartodi_pivote_ w /\
    (consumed = false ->
     dispatched w' = dispatched w /\ classList w' = classList w /\
     lastCoordinate_ (this w') = lastCoordinate_ (this w) /\
     startCoordinate_ (this w') = startCoordinate_ (this w)).
Proof.
  destruct (originalEvent event) eqn:Horiginal.
  2: { exists false, w. rewrite handleDownEvent_gate by auto.
       split; [reflexivity |].
       split; [split; [discriminate | intros (? & _); discriminate] |].
       repeat split; reflexivity. }
  destruct (condition_ (this w) event) eqn:Hcondition.
  2: { exists false, w. rewrite handleDownEvent_gate by auto.
       split; [reflexivity |].
       split; [split; [discriminate | intros (_ & ? & _); discriminate] |].
       repeat split; reflexivity. }
  destruct (lastCoordinate_ (this w)) as [lc |] eqn:Hlast.
  { eexists false, _.
    rewrite (handleDownEvent_open_session event w lc) by assumption.
    split; [reflexivity |].
    split; [split; [discriminate | intros (_ & _ & ? & _); discriminate] |].
    repeat split; try reflexivity. cbn. rewrite Hlast. reflexivity. }
  destruct (featuresAtPixel_ (this w) event) as [a |] eqn:Hhit.
  - destruct (handleDownEvent_accept event w a Horiginal Hcondition Hlast Hhit)
      as (classes & -> & _).
    eexists true, _. split; [reflexivity |].
    split; [split; [intros _; repeat split; eauto | reflexivity] |].
    repeat split; discriminate.
  - eexists false, _.
    rewrite handleDownEvent_no_hit by assumption.
    split; [reflexivity |].
    split; [split; [discriminate
                   | intros (_ & _ & _ & ?); exfalso;
                     eapply is_Some_None; eassumption] |].
    repeat split; try reflexivity. cbn. rewrite Hlast. reflexivity.
Qed.

(** X13.  A press that is consumed opens the session at the coordinate
    of the press: that coordinate becomes [coordinate_],
    [startCoordinate_] and [lastCoordinate_], the feature under the
    pointer becomes [lastFeature_], the cursor goes to [ol-grabbing], and
    exactly one event, a ROTATESTART with the active features and the
    coordinate of the press, is dispatched. *)
Theorem handleDownEvent_opens_session event w a :
  originalEvent event = true ->
  condition_ (this w) event = true ->
  lastCoordinate_ (this w) = None ->
  featuresAtPixel_ (this w) event = Some a ->
  exists w',
    handleDownEvent event w = Ok true w' /\
    lastCoordinate_ (this w') = Some (coordinate event) /\
    startCoordinate_ (this w') = Some (coordinate event) /\
    coordinate_ (this w') = Some (coordinate event) /\
    lastFeature_ (this w') = Some a /\
    features_ (this w') = features_ (this w) /\
    dispatched w'
    = dispatched w ++
      [mkRotateEvent ROTATESTART
         (match features_ (this w) with
          | Some collection => Some <$> collection
          | None => [Some a]
          end)
         (coordinate event) (Some (coordinate event)) event] /\
    ("ol-grabbing" : string) ∈ classList w' /\
    (("ol-grab" : string) ∉ classList w').
Proof.
  intros Horiginal Hcondition Hlast Hhit.
  destruct (handleDownEvent_accept event w a Horiginal Hcondition Hlast Hhit)
    as (classes & -> & Hgrabbing & Hgrab & _).
  eexists. split; [reflexivity |].
  repeat split; assumption.
Qed.

End Presses.

(** X13 on the idle world: a press on feature 1. *)
Lemma handleDownEvent_opens_session_witness :
  exists w',
    handleDownEvent (press_on 1%nat (Num 2, Num 2)) idle_world = Ok true w' /\
    lastCoordinate_ (this w') = Some (Num 2, Num 2) /\
    dispatched w'
    = [mkRotateEvent ROTATESTART [Some 1%nat] (Num 2, Num 2)
         (Some (Num 2, Num 2)) (press_on 1%nat (Num 2, Num 2))].
Proof.
  destruct (handleDownEvent_opens_session (press_on 1%nat (Num 2, Num 2))
              idle_world 1%nat eq_refl eq_refl eq_refl eq_refl)
    as (w' & Hdown & Hlast & _ & _ & _ & _ & Hdispatched & _).
  exists w'. split; [exact Hdown |]. split; [exact Hlast |].
  exact Hdispatched.
Defined.

(** ** Releases *)

Section Releases.

Context {Geometry : Type} `{GeometryOps Geometry}.

Implicit Types (w : World Geometry) (event : MapBrowserEvent).

Lemma with_feature_original_id w :
  with_feature_original (fun _ => feature_original w) w = w.
Proof. destruct w. reflexivity. Qed.

(** The body of the commit loop on a feature, and on anything else. *)
Lemma handleUpEvent_body_feature a f w :
  heap w !! a = Some f ->
  handleUpEvent_body (Some a) w
  = Ok tt
      (if is_PIVOTE_1_ID (getId f) then w
       else with_feature_original
              (<[property_key (getId f) := Feature_clone f]>) w).
Proof.
  intros Ha. unfold handleUpEvent_body, bind, defined, ret, read, modify.
  rewrite Ha. destruct (is_PIVOTE_1_ID (getId f)); cbn [negb]; [reflexivity |].
  rewrite Ha. reflexivity.
Qed.

Lemma handleUpEvent_body_throws x w :
  ~ (exists a, x = Some a /\ is_Some (heap w !! a)) ->
  handleUpEvent_body x w = TypeError w.
Proof.
  intros Hno. unfold handleUpEvent_body, bind, defined, ret, read, throw.
  destruct x as [a |]; [| reflexivity].
  destruct (heap w !! a) as [f |] eqn:Ha; [| reflexivity].
  exfalso. apply Hno. exists a. rewrite Ha. eauto.
Qed.

(** The commit loop: it ends normally exactly when every element of the
    array is a feature, and then it has changed the cache alone. *)
Lemma handleUpEvent_loop array :
  forall w,
    (all_features w array /\
     exists cache,
       for_in array handleUpEvent_body w
       = Ok tt (with_feature_original (fun _ => cache) w) /\
       committed w array cache) \/
    (~ all_features w array /\
     exists w', for_in array handleUpEvent_body w = TypeError w').
Proof.
  induction array as [| x rest IH]; intros w.
  { left. split; [constructor |]. exists (feature_original w).
    split; [simpl; unfold ret; rewrite with_feature_original_id; reflexivity |].
    intros s. left. split; [reflexivity |].
    intros f (a & Hin & _). inversion Hin. }
  destruct x as [a |].
  2: { right. split.
       - intros Hall. apply Forall_cons in Hall as [(a & [=] & _) _].
       - exists w. simpl. unfold bind.
         rewrite handleUpEvent_body_throws; [reflexivity |].
         intros (a & [=] & _). }
  destruct (heap w !! a) as [f |] eqn:Ha.
  2: { right. split.
       - intros Hall. apply Forall_cons in Hall as [(a' & [= <-] & Hsome) _].
         rewrite Ha in Hsome. eapply is_Some_None, Hsome.
       - exists w. simpl. unfold bind.
         rewrite handleUpEvent_body_throws; [reflexivity |].
         intros (a' & [= <-] & Hsome).
         rewrite Ha in Hsome. eapply is_Some_None, Hsome. }
  set (w1 := if is_PIVOTE_1_ID (getId f) then w
             else with_feature_original
                    (<[property_key (getId f) := Feature_clone f]>) w).
  assert (Hheap : heap w1 = heap w)
    by (unfold w1; destruct (is_PIVOTE_1_ID (getId f)); reflexivity).
  assert (Hloop : for_in (Some a :: rest) handleUpEvent_body w
                  = for_in rest handleUpEvent_body w1).
  { simpl. unfold bind. rewrite (handleUpEvent_body_feature a f w Ha).
    reflexivity. }
  assert (Hall : all_features w1 rest <-> all_features w (Some a :: rest)).
  { unfold all_features. rewrite Forall_cons, Hheap. split.
    - intros Hrest. split; [| exact Hrest]. exists a. rewrite Ha. eauto.
    - intros [_ Hrest]. exact Hrest. }
  rewrite Hloop.
  destruct (IH w1) as [[Hrest (cache & Hfor & Hcache)] | [Hrest Hthrow]].
  2: { right. split; [| exact Hthrow]. intros Hw. apply Hrest, Hall, Hw. }
  left. split; [apply Hall, Hrest |]. exists cache. split.
  { rewrite Hfor. unfold w1.
    destruct (is_PIVOTE_1_ID (getId f)); reflexivity. }
  assert (Hcommits : forall s f',
            commits w (Some a :: rest) s f' <->
            (f' = f /\ is_PIVOTE_1_ID (getId f) = false /\
             property_key (getId f) = s) \/ commits w1 rest s f').
  { intros s f'. unfold commits. rewrite Hheap. split.
    - intros (a' & Hin & Ha' & Hnp & Hkey).
      apply elem_of_cons in Hin as [[= ->] | Hin].
      + left. rewrite Ha in Ha'. injection Ha' as <-. auto.
      + right. exists a'. auto.
    - intros [(-> & Hnp & Hkey) | (a' & Hin & Ha' & Hnp & Hkey)].
      + exists a. split; [apply elem_of_cons; auto |]. auto.
      + exists a'. split; [apply elem_of_cons; auto |]. auto. }
  intros s. destruct (Hcache s) as [[Hsame Hnone] | (f' & Hf' & Hstored)].
  2: { right. exists f'. split; [apply Hcommits; auto | exact Hstored]. }
  destruct (is_PIVOTE_1_ID (getId f)) eqn:Hnp.
  { left. split; [exact Hsame |]. intros f' Hf'.
    apply Hcommits in Hf' as [(_ & [=] & _) | Hf'].
    exact (Hnone f' Hf'). }
  destruct (decide (property_key (getId f) = s)) as [Hkey | Hkey].
  - right. exists f. split; [apply Hcommits; auto |].
    rewrite Hsame. unfold w1. cbn. rewrite Hkey. apply lookup_insert_eq.
  - left. split.
    + rewrite Hsame. unfold w1. cbn. apply lookup_insert_ne. exact Hkey.
    + intros f' Hf'. apply Hcommits in Hf' as [(_ & _ & Hs) | Hf'];
        [contradiction | exact (Hnone f' Hf')].
Qed.

(** A release during a session over an array of features. *)
Lemma handleUpEvent_session event w lc :
  lastCoordinate_ (this w) = Some lc ->
  all_features w (features_getArray (this w)) ->
  exists cache classes,
    handleUpEvent event w
    = Ok true
        (with_this (set_startCoordinate_ None)
           (with_dispatched
              (fun log =>
                 log ++ [mkRotateEvent ROTATEEND (features_getArray (this w))
                           (coordinate event) (startCoordinate_ (this w))
                           event])
              (with_classList (fun _ => classes)
                 (with_this (set_lastCoordinate_ None)
                    (with_feature_original (fun _ => cache)
                       (with_this
                          (fun r => set_feature_ js_null
                                      (set_coordinate_ None r))
                          w)))))) /\
    committed w (features_getArray (this w)) cache /\
    (("ol-grabbing" : string) ∉ classes).
Proof.
  intros Hlast Hall.
  set (w0 := with_this (fun r => set_feature_ js_null (set_coordinate_ None r))
               w).
  destruct (handleUpEvent_loop (features_getArray (this w)) w0)
    as [[_ (cache & Hloop & Hcache)] | [Hno _]]; [| contradiction].
  set (w1 := with_this (set_lastCoordinate_ None)
               (with_feature_original (fun _ => cache) w0)).
  destruct (handleMoveEvent_classes event w1)
    as (classes & Hmove & Hgrabbing & _).
  exists cache, classes. split; [| split].
  - unfold handleUpEvent.
    unfold bind at 1, modify at 1. unfold bind at 1, modify at 1.
    unfold bind at 1, get at 1.
    change (with_this (set_feature_ js_null)
              (with_this (set_coordinate_ None) w)) with w0.
    change (features_getArray (this w0)) with (features_getArray (this w)).
    unfold bind at 1. rewrite Hloop.
    unfold bind at 1, get at 1. cbn [with_feature_original this].
    change (lastCoordinate_ (this w0)) with (lastCoordinate_ (this w)).
    rewrite Hlast. cbn [truthy].
    unfold bind at 1, modify at 1. unfold bind at 1.
    match goal with
    | |- context [handleMoveEvent event ?w'] => change w' with w1
    end.
    rewrite Hmove. reflexivity.
  - exact Hcache.
  - intros Hin. apply Hgrabbing in Hin as [_ [? [=]]].
Qed.

(** X14.  A release during a session over an array of features is
    consumed and closes the session: [lastCoordinate_],
    [startCoordinate_] and [coordinate_] are reset, the cursor leaves
    [ol-grabbing], no feature changes, and exactly one event, a
    ROTATEEND with the active features and the start coordinate of the
    session, is dispatched. *)
Theorem handleUpEvent_closes_session event w lc :
  lastCoordinate_ (this w) = Some lc ->
  all_features w (features_getArray (this w)) ->
  exists w',
    handleUpEvent event w = Ok true w' /\
    lastCoordinate_ (this w') = None /\
    startCoordinate_ (this w') = None /\
    coordinate_ (this w') = None /\
    heap w' = heap w /\
    predioEdicionSelected w' = predioEdicionSelected w /\
    dispatched w'
    = dispatched w ++
      [mkRotateEvent ROTATEEND (features_getArray (this w))
         (coordinate event) (startCoordinate_ (this w)) event] /\
    (("ol-grabbing" : string) ∉ classList w').
Proof.
  intros Hlast Hall.
  destruct (handleUpEvent_session event w lc Hlast Hall)
    as (cache & classes & -> & _ & Hgrabbing).
  eexists. split; [reflexivity |]. repeat split. exact Hgrabbing.
Qed.


End Releases.

(** X14 on the open session of the examples. *)
Lemma handleUpEvent_closes_session_witness :
  exists w',
    handleUpEvent release_event dragging_world = Ok true w' /\
    lastCoordinate_ (this w') = None /\
    dispatched w'
    = [mkRotateEvent ROTATEEND [Some 1%nat] (Num 9, Num 9)
         (Some (Num 2, Num 2)) release_event].
Proof.
  assert (Hall : all_features dragging_world
                   (features_getArray (this dragging_world))).
  { constructor; [| constructor].
    exists 1%nat. split; [reflexivity |]. eexists. reflexivity. }
  destruct (handleUpEvent_closes_session release_event dragging_world
              (Num 2, Num 2) eq_refl Hall)
    as (w' & Hup & Hlast & _ & _ & _ & _ & Hdispatched & _).
  exists w'. split; [exact Hup |]. split; [exact Hlast |]. exact Hdispatched.
Defined.


(** ** A press and its release *)

Section Cycle.

Context {Geometry : Type} `{GeometryOps Geometry}.

Implicit Types (w : World Geometry) (event : MapBrowserEvent).

(** X16.  A press on a rotable feature outside a session, followed by a
    release: both are consumed, the session is closed again, no feature
    has changed, and exactly two events have been dispatched, a
    ROTATESTART and a ROTATEEND over the same features, both with the
    coordinate of the press as the start coordinate. *)
Theorem press_then_release event event' w a :
  originalEvent event = true ->
  condition_ (this w) event = true ->
  lastCoordinate_ (this w) = None ->
  featuresAtPixel_ (this w) event = Some a ->
  all_features w (features_getArray (set_lastFeature_ (Some a) (this w))) ->
  exists w1 w2,
    handleDownEvent event w = Ok true w1 /\
    handleUpEvent event' w1 = Ok true w2 /\
    lastCoordinate_ (this w2) = None /\
    startCoordinate_ (this w2) = None /\
    heap w2 = heap w /\
    dispatched w2
    = dispatched w ++
      [mkRotateEvent ROTATESTART
         (features_getArray (set_lastFeature_ (Some a) (this w)))
         (coordinate event) (Some (coordinate event)) event;
       mkRotateEvent ROTATEEND
         (features_getArray (set_lastFeature_ (Some a) (this w)))
         (coordinate event') (Some (coordinate event)) event'].
Proof.
  intros Horiginal Hcondition Hlast Hhit Hall.
  destruct (handleDownEvent_accept event w a Horiginal Hcondition Hlast Hhit)
    as (classes & Hdown & _).
  match type of Hdown with _ = Ok true ?w' => set (w1 := w') in * end.
  destruct (handleUpEvent_session event' w1 (coordinate event) eq_refl Hall)
    as (cache & classes' & Hup & _).
  exists w1. eexists. split; [exact Hdown |].
  split; [exact Hup |]. repeat split.
  cbn. rewrite <- app_assoc. reflexivity.
Qed.

End Cycle.

(** X16 on the idle world: a press on feature 1 and its release. *)
Lemma press_then_release_witness :
  exists w1 w2,
    handleDownEvent (press_on 1%nat (Num 2, Num 2)) idle_world = Ok true w1 /\
    handleUpEvent release_event w1 = Ok true w2 /\
    lastCoordinate_ (this w2) = None /\
    heap w2 = heap idle_world.
Proof.
  assert (Hall : all_features idle_world
                   (features_getArray
                      (set_lastFeature_ (Some 1%nat) (this idle_world)))).
  { constructor; [| constructor].
    exists 1%nat. split; [reflexivity |]. eexists. reflexivity. }
  destruct (press_then_release (press_on 1%nat (Num 2, Num 2)) release_event
              idle_world 1%nat eq_refl eq_refl eq_refl eq_refl Hall)
    as (w1 & w2 & Hdown & Hup & Hlast & _ & Hheap & _).
  exists w1, w2. repeat split; assumption.
Defined.

(** ** What a drag update keeps *)

Section DragFrame.

Context {Geometry : Type} `{GeometryOps Geometry}.

Implicit Types (w : World Geometry) (event : MapBrowserEvent).

Lemma preserves_for_in_elem {A} P (array : list A)
    (body : A -> M Geometry unit) :
  (forall x, x ∈ array -> preserves P (body x)) ->
  preserves P (for_in array body).
Proof.
  induction array as [| x rest IH]; intros Hbody; simpl.
  - intros w HP. exact HP.
  - apply preserves_bind.
    + apply Hbody. apply elem_of_cons. auto.
    + intros _. apply IH. intros y Hy. apply Hbody, elem_of_cons. auto.
Qed.

Lemma drag_frame_refl w : drag_frame w w.
Proof. repeat split; auto. Qed.

Lemma drag_frame_setGeometry w0 a g :
  Some a ∈ features_getArray (this w0) ->
  preserves (drag_frame w0)
    (modify (with_heap (alter (Feature_setGeometry g) a))).
Proof.
  intros Hin. apply preserves_modify.
  intros w (Hthis & Hlog & Hclasses & Hsource & Hout & Hids & Hfo & Hpe).
  repeat split; try assumption; cbn.
  - intros b Hb. rewrite lookup_alter_ne by (intros ->; contradiction).
    apply Hout, Hb.
  - intros a'. rewrite <- Hids. destruct (decide (a' = a)) as [-> | Hne].
    + rewrite lookup_alter_eq. destruct (heap w !! a); reflexivity.
    + rewrite lookup_alter_ne by congruence. reflexivity.
Qed.

Lemma drag_frame_feature_original w0 key (v : Feature Geometry) :
  preserves (drag_frame w0) (modify (with_feature_original (insert key v))).
Proof.
  apply preserves_modify.
  intros w (Hthis & Hlog & Hclasses & Hsource & Hout & Hids & Hfo & Hpe).
  repeat split; try assumption; cbn.
  intros s Hs. destruct (decide (s = key)) as [-> | Hne].
  - rewrite lookup_insert_eq. eauto.
  - rewrite lookup_insert_ne by congruence. apply Hfo, Hs.
Qed.

Lemma drag_frame_predioEdicionSelected w0 key (v : addr) :
  preserves (drag_frame w0)
    (modify (with_predioEdicionSelected (insert key v))).
Proof.
  apply preserves_modify.
  intros w (Hthis & Hlog & Hclasses & Hsource & Hout & Hids & Hfo & Hpe).
  repeat split; try assumption; cbn.
  intros s Hs. destruct (decide (s = key)) as [-> | Hne].
  - rewrite lookup_insert_eq. eauto.
  - rewrite lookup_insert_ne by congruence. apply Hpe, Hs.
Qed.

Lemma handleDragEvent_body_frame w0 llaves angle centroide x :
  x ∈ features_getArray (this w0) ->
  preserves (drag_frame w0) (handleDragEvent_body llaves angle centroide x).
Proof.
  intros Hin. unfold handleDragEvent_body.
  destruct x as [a |]; [| cbn [defined]; intros w Hw; exact Hw].
  intros w Hw. unfold bind at 1. cbn [defined ret].
  match goal with
  | |- _ (final_world (?m w)) =>
      cut (preserves (drag_frame w0) m); [intros Hm; apply Hm, Hw |]
  end.
  repeat first
    [ preserves_step
    | apply drag_frame_setGeometry; exact Hin
    | apply drag_frame_feature_original
    | apply drag_frame_predioEdicionSelected ].
Qed.

Lemma handleDragEvent_body_asserts_nothing llaves angle centroide x :
  asserts_nothing
    (handleDragEvent_body (Geometry := Geometry) llaves angle centroide x).
Proof. unfold handleDragEvent_body. repeat asserts_nothing_step. Qed.

(** The three ways a drag update can go: outside a session it is the
    identity; in a session it either throws, with the frame of the loop
    kept, or it returns, and then it has moved [lastCoordinate_] and
    dispatched one event on top of what the loop did. *)
Lemma handleDragEvent_outcomes event w :
  (lastCoordinate_ (this w) = None /\ handleDragEvent event w = Ok tt w) \/
  (is_Some (lastCoordinate_ (this w)) /\
   exists wl,
     drag_frame w wl /\
     (handleDragEvent event w = TypeError wl \/
      handleDragEvent event w
      = Ok tt
          (with_dispatched
             (fun log =>
                log ++ [mkRotateEvent ROTATING (features_getArray (this w))
                          (coordinate event) (startCoordinate_ (this w))
                          event])
             (with_this (set_lastCoordinate_ (Some (coordinate event))) wl)))).
Proof.
  remember (handleDragEvent event w) as outcome eqn:Hrun.
  unfold handleDragEvent in Hrun. unfold bind at 1, get at 1 in Hrun.
  destruct (lastCoordinate_ (this w)) as [lc |] eqn:Hlast;
    cbn [truthy] in Hrun;
    [right; split; [eauto |] | left; split; [reflexivity | exact Hrun]].
  unfold bind at 1, read at 1 in Hrun.
  destruct (heap w !! pivote_1 (this w)) as [p |];
    [| exists w; split; [apply drag_frame_refl | left; exact Hrun]].
  unfold bind at 1 in Hrun.
  destruct (getGeometry p) as [punto |]; cbn [defined ret throw] in Hrun;
    [| exists w; split; [apply drag_frame_refl | left; exact Hrun]].
  unfold bind at 1 in Hrun.
  destruct (coordinate_ (this w)) as [c0 |]; cbn [defined ret throw] in Hrun;
    [| exists w; split; [apply drag_frame_refl | left; exact Hrun]].
  unfold bind at 1 in Hrun.
  match type of Hrun with
  | context [for_in ?array ?body w] =>
      pose proof (preserves_for_in_elem (drag_frame w) array body
                    (fun x Hx => handleDragEvent_body_frame w _ _ _ x Hx)
                    w (drag_frame_refl w)) as Hframe;
      pose proof (asserts_nothing_for_in array body
                    (handleDragEvent_body_asserts_nothing _ _ _) w)
        as Hassert;
      destruct (for_in array body w) as [[] wl | wl | wl]
  end; cbn [final_world] in Hframe; exists wl; (split; [exact Hframe |]).
  - right. destruct Hframe as (Hthis & _).
    unfold bind, modify, get, dispatchEvent, modify in Hrun. cbn in Hrun.
    rewrite Hthis in Hrun. exact Hrun.
  - left. exact Hrun.
  - exfalso. eapply Hassert. reflexivity.
Qed.

(** X17.  Whatever its outcome, a drag update leaves alone the cursor,
    the pivot source, every field of the interaction but
    [lastCoordinate_], and every feature outside the active array; it
    creates and deletes no feature, changes no identifier, and removes
    no key from the two dictionaries. *)
Theorem handleDragEvent_frame event w :
  let w' := final_world (handleDragEvent event w) in
  classList w' = classList w /\
  source_cartodi_pivote_ w' = source_cartodi_pivote_ w /\
  this w' = set_lastCoordinate_ (lastCoordinate_ (this w')) (this w) /\
  (forall b, Some b ∉ features_getArray (this w) ->
             heap w' !! b = heap w !! b) /\
  (forall a, getId <$> heap w' !! a = getId <$> heap w !! a) /\
  (forall s, is_Some (feature_original w !! s) ->
             is_Some (feature_original w' !! s)) /\
  (forall s, is_Some (predioEdicionSelected w !! s) ->
             is_Some (predioEdicionSelected w' !! s)).
Proof.
  assert (Hsame : forall r : Rotate, r = set_lastCoordinate_ (lastCoordinate_ r) r)
    by (intros []; reflexivity).
  destruct (handleDragEvent_outcomes event w)
    as [[_ ->] | [_ (wl & Hframe & [-> | ->])]]; cbn [final_world].
  - repeat split; auto.
  - destruct Hframe
      as (Hthis & Hlog & Hclasses & Hsource & Hout & Hids & Hfo & Hpe).
    repeat split; try assumption. rewrite Hthis. apply Hsame.
  - destruct Hframe
      as (Hthis & Hlog & Hclasses & Hsource & Hout & Hids & Hfo & Hpe).
    repeat split; try assumption. cbn. rewrite Hthis. reflexivity.
Qed.

(** X18.  A drag update dispatches one ROTATING event, with the active
    features, the coordinate of the pointer and the start coordinate of
    the session, and moves [lastCoordinate_] to the pointer, when it
    returns during a session; outside a session it does nothing at all;
    and when it throws it has dispatched nothing and [lastCoordinate_]
    is where it was. *)
Theorem handleDragEvent_dispatches event w :
  (lastCoordinate_ (this w) = None -> handleDragEvent event w = Ok tt w) /\
  (forall w',
      is_Some (lastCoordinate_ (this w)) ->
      handleDragEvent event w = Ok tt w' ->
      lastCoordinate_ (this w') = Some (coordinate event) /\
      dispatched w'
      = dispatched w ++
        [mkRotateEvent ROTATING (features_getArray (this w))
           (coordinate event) (startCoordinate_ (this w)) event]) /\
  (forall w',
      handleDragEvent event w = TypeError w' ->
      this w' = this w /\ dispatched w' = dispatched w).
Proof.
  destruct (handleDragEvent_outcomes event w)
    as [[Hlast ->] | [Hlast (wl & Hframe & [-> | ->])]];
    (split; [| split]); try discriminate.
  - reflexivity.
  - intros w' Hsome. rewrite Hlast in Hsome.
    exfalso. eapply is_Some_None, Hsome.
  - intros Hnone. rewrite Hnone in Hlast.
    exfalso. eapply is_Some_None, Hlast.
  - intros w' [= <-]. destruct Hframe as (Hthis & Hlog & _). auto.
  - intros Hnone. rewrite Hnone in Hlast.
    exfalso. eapply is_Some_None, Hlast.
  - intros w' _ [= <-]. destruct Hframe as (Hthis & Hlog & _).
    cbn. rewrite Hlog. auto.
Qed.

End DragFrame.

(** ** Placing the pivot marker *)

Section Pivot.

Context {Geometry : Type} `{GeometryOps Geometry}.

Implicit Types (w : World Geometry) (event : MapBrowserEvent).

Lemma PIVOTE_1_ID_in_idIndex_ w source :
  PIVOTE_1_ID ∈ idIndex_ (heap w) source <-> holds_PIVOTE_1_ID w source.
Proof.
  rewrite elem_of_idIndex_. unfold holds_PIVOTE_1_ID. split.
  - intros (b & f & Hb & Hf & Hkey). exists b, f.
    split; [exact Hb |]. split; [exact Hf |].
    destruct (getId f) as [| s | n] eqn:Hid; [discriminate | |].
    + injection Hkey as ->. reflexivity.
    + exfalso. injection Hkey as Hkey.
      apply (property_key_not_PIVOTE_1_ID (IdNumber n) eq_refl Hkey).
  - intros (b & f & Hb & Hf & Hid). exists b, f.
    split; [exact Hb |]. split; [exact Hf |]. rewrite Hid. reflexivity.
Qed.

(** The three outcomes of [refreshFeaturesPivotes] before it reaches the
    pivot source. *)
Lemma refreshFeaturesPivotes_throws w :
  (forall w', VectorSource_addFeatures [] (features_getArray (this w)) w
              = TypeError w' ->
              refreshFeaturesPivotes w = TypeError w') /\
  (forall w', VectorSource_addFeatures [] (features_getArray (this w)) w
              = AssertionError w' ->
              refreshFeaturesPivotes w = AssertionError w').
Proof.
  split; intros w' Hadd; unfold refreshFeaturesPivotes;
    unfold bind at 1, get at 1; unfold bind at 1; rewrite Hadd; reflexivity.
Qed.

(** X19.  [refreshFeaturesPivotes] returns normally exactly when every
    element of the active array is a feature, no feature without
    identifier occurs twice in the array, and the pivot source was
    given.  When every element is a feature and one without identifier
    occurs twice, it fails the [assert] of the fresh source and changes
    nothing. *)
Theorem refreshFeaturesPivotes_returns_iff w :
  ((exists w', refreshFeaturesPivotes w = Ok tt w') <->
   all_features w (features_getArray (this w)) /\
   NoDup (without_identifier w (features_getArray (this w))) /\
   is_Some (source_cartodi_pivote_ w)) /\
  (all_features w (features_getArray (this w)) ->
   ~ NoDup (without_identifier w (features_getArray (this w))) ->
   refreshFeaturesPivotes w = AssertionError w).
Proof.
  pose proof (VectorSource_addFeatures_outcome (features_getArray (this w))
                [] w) as Hout.
  pose proof (final_world_VectorSource_addFeatures (features_getArray (this w))
                [] w) as Hw.
  destruct (refreshFeaturesPivotes_throws w) as [Htype Hassert].
  destruct (VectorSource_addFeatures [] (features_getArray (this w)) w)
    as [newsource w' | w' | w'] eqn:Hadd; cbn in Hw; subst w'.
  - destruct Hout as (Hall & Hnodup & _).
    split; [| intros _ Hdup; contradiction].
    destruct (source_cartodi_pivote_ w) as [source |] eqn:Hsource.
    + rewrite (refreshFeaturesPivotes_returns w newsource source Hadd Hsource).
      split; eauto.
    + split; [| intros (_ & _ & Hsome); exfalso; eapply is_Some_None, Hsome].
      intros (w' & Hreturns). exfalso.
      rewrite (refreshFeaturesPivotes_unfold _ _ Hadd) in Hreturns.
      unfold bind, modify, defined in Hreturns.
      cbn [with_heap source_cartodi_pivote_] in Hreturns.
      rewrite Hsource in Hreturns. discriminate.
  - rewrite (Htype w eq_refl).
    split; [| intros Hall; contradiction].
    split; [intros (? & [=]) | intros (Hall & _); contradiction].
  - rewrite (Hassert w eq_refl). split; [| reflexivity].
    split; [intros (? & [=]) |]. intros (Hall & Hnodup & _). exfalso.
    apply (Hout Hall). split; [exact Hnodup |].
    intros a _ Ha. inversion Ha.
Qed.

(** X20.  When it returns, [refreshFeaturesPivotes] has changed the
    pivot marker, the pivot source and the flag [first_] alone: every
    other feature, the two dictionaries, the cursor, the events and the
    other fields are as before.  The pivot source holds what it held,
    and the pivot marker at its end unless the source held a feature
    with the identifier PIVOTE_1_ID, the marker itself or another. *)
Theorem refreshFeaturesPivotes_frame w source :
  all_features w (features_getArray (this w)) ->
  NoDup (without_identifier w (features_getArray (this w))) ->
  source_cartodi_pivote_ w = Some source ->
  exists w',
    refreshFeaturesPivotes w = Ok tt w' /\
    (forall b, b <> pivote_1 (this w) -> heap w' !! b = heap w !! b) /\
    feature_original w' = feature_original w /\
    predioEdicionSelected w' = predioEdicionSelected w /\
    classList w' = classList w /\
    dispatched w' = dispatched w /\
    this w' = set_first_ false (this w) /\
    (holds_PIVOTE_1_ID w' source ->
     source_cartodi_pivote_ w' = Some source) /\
    (~ holds_PIVOTE_1_ID w' source ->
     source_cartodi_pivote_ w' = Some (source ++ [pivote_1 (this w)]) /\
     pivote_1 (this w) ∉ source).
Proof.
  intros Hall Hnodup Hsource.
  destruct (proj2 (VectorSource_addFeatures_returns _ w) (conj Hall Hnodup))
    as (newsource & Hadd).
  rewrite (refreshFeaturesPivotes_returns w newsource source Hadd Hsource).
  eexists. split; [reflexivity |].
  split; [intros b Hb; cbn; apply lookup_insert_ne; congruence |].
  do 5 (split; [reflexivity |]).
  cbn [source_cartodi_pivote_ with_this with_source].
  match goal with
  | |- context [idIndex_ ?h source] => set (objects := h)
  end.
  match goal with
  | |- (holds_PIVOTE_1_ID ?w1 _ -> _) /\ _ => set (w' := w1)
  end.
  assert (Hiff : PIVOTE_1_ID ∈ idIndex_ objects source
                 <-> holds_PIVOTE_1_ID w' source)
    by apply (PIVOTE_1_ID_in_idIndex_ w').
  case_bool_decide as Hin.
  - split; [reflexivity |]. intros Hno. exfalso. apply Hno, Hiff, Hin.
  - split; [intros Hyes; exfalso; apply Hin, Hiff, Hyes |].
    intros Hno. split; [reflexivity |]. intros Hmember. apply Hno.
    eexists _, _. split; [exact Hmember |].
    split; [apply lookup_insert_eq | reflexivity].
Qed.

(** X21.  When the pivot marker is not itself in the active array,
    [refreshFeaturesPivotes] is idempotent: where a first call returns,
    a second call returns and changes nothing. *)
Theorem refreshFeaturesPivotes_idempotent w source :
  all_features w (features_getArray (this w)) ->
  NoDup (without_identifier w (features_getArray (this w))) ->
  source_cartodi_pivote_ w = Some source ->
  Some (pivote_1 (this w)) ∉ features_getArray (this w) ->
  exists w',
    refreshFeaturesPivotes w = Ok tt w' /\
    refreshFeaturesPivotes w' = Ok tt w'.
Proof.
  intros Hall Hnodup Hsource Hpivot.
  destruct (proj2 (VectorSource_addFeatures_returns _ w) (conj Hall Hnodup))
    as (newsource & Hadd).
  pose proof (VectorSource_addFeatures_outcome (features_getArray (this w))
                [] w) as Hout.
  rewrite Hadd in Hout. destruct Hout as (_ & _ & _ & _ & Hfrom).
  assert (Hnew : forall b, b ∈ newsource -> b <> pivote_1 (this w)).
  { intros b Hb ->. destruct (Hfrom _ Hb) as [Hnil | Harray];
      [inversion Hnil | contradiction]. }
  rewrite (refreshFeaturesPivotes_returns w newsource source Hadd Hsource).
  cbv zeta.
  set (marker := mkFeature (IdString PIVOTE_1_ID) _).
  set (objects := <[pivote_1 (this w) := marker]> (heap w)).
  set (source' := if bool_decide (PIVOTE_1_ID ∈ idIndex_ objects source)
                  then source else source ++ [pivote_1 (this w)]).
  eexists. split; [reflexivity |].
  match goal with |- refreshFeaturesPivotes ?w1 = _ => set (w' := w1) end.
  assert (Hadd' : VectorSource_addFeatures [] (features_getArray (this w')) w'
                  = Ok newsource w').
  { apply (VectorSource_addFeatures_frame _ _ _ w); [| exact Hadd].
    intros b [Hb | Hb]; [inversion Hb |].
    apply lookup_insert_ne. intros <-. contradiction. }
  rewrite (refreshFeaturesPivotes_returns w' newsource source' Hadd' eq_refl).
  cbv zeta.
  assert (Hgeometries : source_geometries (heap w') newsource
                        = source_geometries (heap w) newsource).
  { apply source_geometries_frame. intros b Hb.
    apply lookup_insert_ne. intros <-. exact (Hnew _ Hb eq_refl). }
  rewrite Hgeometries.
  change (pivote_1 (this w')) with (pivote_1 (this w)).
  change (heap w') with objects. fold marker.
  assert (Hobjects : <[pivote_1 (this w) := marker]> objects = objects)
    by apply insert_insert_eq.
  rewrite Hobjects.
  assert (Hin : bool_decide (PIVOTE_1_ID ∈ idIndex_ objects source') = true).
  { apply bool_decide_eq_true_2. unfold source'.
    case_bool_decide as Hin; [exact Hin |].
    apply elem_of_idIndex_. exists (pivote_1 (this w)), marker.
    split; [apply elem_of_app; right; apply list_elem_of_singleton;
            reflexivity |].
    split; [apply lookup_insert_eq | reflexivity]. }
  rewrite Hin. reflexivity.
Qed.


End Pivot.

Lemma idle_world_all_features :
  all_features idle_world (features_getArray (this idle_world)).
Proof.
  constructor; [| constructor].
  exists 1%nat. split; [reflexivity |]. eexists. reflexivity.
Qed.

Lemma idle_world_identifiers :
  NoDup (without_identifier idle_world (features_getArray (this idle_world))).
Proof. constructor. Qed.

(** X20 on the idle world, whose pivot source holds the marker. *)
Lemma refreshFeaturesPivotes_frame_witness :
  exists w',
    refreshFeaturesPivotes idle_world = Ok tt w' /\
    heap w' !! 1%nat = heap idle_world !! 1%nat /\
    feature_original w' = feature_original idle_world /\
    source_cartodi_pivote_ w' = Some [0%nat].
Proof.
  destruct (refreshFeaturesPivotes_frame idle_world [0%nat]
              idle_world_all_features idle_world_identifiers eq_refl)
    as (w' & Hrefresh & Hheap & Hcache & _ & _ & _ & _ & Hheld & _).
  exists w'. split; [exact Hrefresh |].
  split; [apply Hheap; discriminate |]. split; [exact Hcache |].
  apply Hheld. exists 0%nat.
  pose proof (f_equal final_world Hrefresh) as Hw'. cbn in Hw'. subst w'.
  eexists. split; [apply list_elem_of_singleton; reflexivity |].
  split; reflexivity.
Defined.


(** X21 on the idle world. *)
Lemma refreshFeaturesPivotes_idempotent_witness :
  exists w',
    refreshFeaturesPivotes idle_world = Ok tt w' /\
    refreshFeaturesPivotes w' = Ok tt w'.
Proof.
  apply (refreshFeaturesPivotes_idempotent idle_world [0%nat]
           idle_world_all_features idle_world_identifiers eq_refl).
  intros Hin. apply list_elem_of_singleton in Hin. discriminate.
Defined.

Lemma cached_world_session : session cached_world.
Proof.
  split; [eexists; reflexivity |]. split; [eexists; reflexivity |].
  split; [eexists; repeat split; eexists; reflexivity |].
  repeat constructor.
  - exists 0%nat, (pivote_at (Num 1, Num 1)), PIVOTE_1_ID.
    do 3 (split; [reflexivity |]). left. reflexivity.
  - exists 1%nat, (mkFeature (IdString "a") (Some moved_square)),
      "a"%string.
    do 3 (split; [reflexivity |]). right. vm_compute. eauto.
  - exists 2%nat, (mkFeature (IdString PIVOTE_1_ID) (Some moved_square)),
      PIVOTE_1_ID.
    do 3 (split; [reflexivity |]). left. reflexivity.
Qed.

(** X18 on the crowded session: the update returns and dispatches one
    event. *)
Lemma handleDragEvent_dispatches_witness :
  exists w',
    handleDragEvent (drag_to (Num 2, Num 0)) cached_world = Ok tt w' /\
    lastCoordinate_ (this w') = Some (Num 2, Num 0) /\
    length (dispatched w') = 1%nat.
Proof.
  destruct (handleDragEvent_session (drag_to (Num 2, Num 0)) cached_world
              cached_world_session) as (w' & _ & _ & _ & Hdrag & _).
  destruct (handleDragEvent_dispatches (drag_to (Num 2, Num 0)) cached_world)
    as (_ & Hreturns & _).
  destruct (Hreturns w' (ex_intro _ _ eq_refl) Hdrag) as [Hlast Hlog].
  exists w'. split; [exact Hdrag |]. split; [exact Hlast |].
  rewrite Hlog. reflexivity.
Defined.

(** ** Rotation from the baseline *)

Section Baseline.

Context {Geometry : Type} `{GeometryOps Geometry}.

Implicit Types (w : World Geometry) (event : MapBrowserEvent).

(** X22.  A drag update in a session over features with string
    identifiers returns and leaves a session behind; it keeps the pivot
    marker, the press coordinate and every baseline stored before, and
    gives every feature of the active array that had a baseline that
    baseline, rotated about the pivot by the angle between the azimuths
    of the press and of the pointer. *)
Theorem handleDragEvent_rotates_baselines event w :
  session w ->
  exists w' angle centroide,
    drag_angle w event = Some (angle, centroide) /\
    handleDragEvent event w = Ok tt w' /\
    session w' /\
    this w' = set_lastCoordinate_ (Some (coordinate event)) (this w) /\
    heap w' !! pivote_1 (this w) = heap w !! pivote_1 (this w) /\
    (forall s, is_Some (feature_original w !! s) ->
               feature_original w' !! s = feature_original w !! s) /\
    (forall a f s original g0,
        Some a ∈ features_getArray (this w) ->
        heap w !! a = Some f ->
        getId f = IdString s ->
        s <> PIVOTE_1_ID ->
        feature_original w !! s = Some original ->
        getGeometry original = Some g0 ->
        heap w' !! a
        = Some (mkFeature (IdString s)
                  (Some (Geometry_rotate angle centroide g0)))).
Proof. apply handleDragEvent_session. Qed.

(** X23.  No drift, for string identifiers.  In a session over features
    with string identifiers, drag to A, then to B, then back to A: the
    three updates return, and every feature whose identifier had a
    baseline in the cache has after the third update the geometry it
    had after the first, which is that baseline rotated by the angle
    of A. *)
Theorem handleDragEvent_no_drift (eventA eventB : MapBrowserEvent) w :
  session w ->
  exists wA wB wA' angle centroide,
    drag_angle w eventA = Some (angle, centroide) /\
    handleDragEvent eventA w = Ok tt wA /\
    handleDragEvent eventB wA = Ok tt wB /\
    handleDragEvent eventA wB = Ok tt wA' /\
    forall a f s original g0,
      Some a ∈ features_getArray (this w) ->
      heap w !! a = Some f ->
      getId f = IdString s ->
      s <> PIVOTE_1_ID ->
      feature_original w !! s = Some original ->
      getGeometry original = Some g0 ->
      heap wA !! a
      = Some (mkFeature (IdString s)
                (Some (Geometry_rotate angle centroide g0))) /\
      heap wA' !! a = heap wA !! a.
Proof. apply string_identifier_replay. Qed.

End Baseline.

(** X22 on the crowded session with a baseline of "a" in the cache. *)
Lemma handleDragEvent_rotates_baselines_witness :
  exists w' angle centroide,
    handleDragEvent (drag_to (Num 2, Num 0)) cached_world = Ok tt w' /\
    heap w' !! 1%nat
    = Some (mkFeature (IdString "a")
              (Some (Geometry_rotate angle centroide square))).
Proof.
  destruct (handleDragEvent_rotates_baselines (drag_to (Num 2, Num 0))
              cached_world cached_world_session)
    as (w' & angle & centroide & _ & Hdrag & _ & _ & _ & _ & Hrotated).
  exists w', angle, centroide. split; [exact Hdrag |].
  assert (Hin : Some 1%nat ∈ features_getArray (this cached_world))
    by repeat constructor.
  assert (Hnp : "a"%string <> PIVOTE_1_ID) by discriminate.
  exact (Hrotated 1%nat (mkFeature (IdString "a") (Some moved_square))
           "a"%string (mkFeature IdUndefined (Some square)) square
           Hin eq_refl eq_refl Hnp eq_refl eq_refl).
Defined.

(** X23 on the same session. *)
Lemma handleDragEvent_no_drift_witness :
  exists wA wB wA',
    handleDragEvent (drag_to (Num 2, Num 0)) cached_world = Ok tt wA /\
    handleDragEvent (drag_to (Num 0, Num 0)) wA = Ok tt wB /\
    handleDragEvent (drag_to (Num 2, Num 0)) wB = Ok tt wA' /\
    heap wA' !! 1%nat = heap wA !! 1%nat.
Proof.
  destruct (handleDragEvent_no_drift (drag_to (Num 2, Num 0))
              (drag_to (Num 0, Num 0)) cached_world cached_world_session)
    as (wA & wB & wA' & angle & centroide & _ & HA & HB & HA' & Hreplay).
  exists wA, wB, wA'. repeat (split; [assumption |]).
  assert (Hin : Some 1%nat ∈ features_getArray (this cached_world))
    by repeat constructor.
  assert (Hnp : "a"%string <> PIVOTE_1_ID) by discriminate.
  exact (proj2 (Hreplay 1%nat (mkFeature (IdString "a") (Some moved_square))
                  "a"%string (mkFeature IdUndefined (Some square)) square
                  Hin eq_refl eq_refl Hnp eq_refl eq_refl)).
Defined.

(** ** The centre of an extent *)

(** X24.  The centre of an extent that is not empty, whose bounds are
    doubles and whose width and height binary64 holds, is a coordinate
    within the extent. *)
Theorem getCenterOfExtent_midpoint (minX minY maxX maxY : R) :
  minX <= maxX -> minY <= maxY ->
  ~ overflows minX -> ~ overflows maxX ->
  ~ overflows minY -> ~ overflows maxY ->
  ~ overflows (maxX - minX) -> ~ overflows (maxY - minY) ->
  exists X Y : R,
    Overflow.getCenterOfExtent (Num minX, Num minY, Num maxX, Num maxY)
    = (Num X, Num Y) /\
    minX <= X <= maxX /\
    minY <= Y <= maxY.
Proof.
  intros HX HY HminX HmaxX HminY HmaxY Hwidth Hheight.
  destruct (midpoint_in_range minX maxX HX HminX HmaxX) as [HmidX HinX].
  destruct (midpoint_in_range minY maxY HY HminY HmaxY) as [HmidY HinY].
  eexists _, _.
  split; [apply Overflow_getCenterOfExtent_Num; assumption |].
  split; assumption.
Qed.

(** X24 on the extent of the moved square. *)
Lemma getCenterOfExtent_midpoint_witness :
  exists X Y : R,
    Overflow.getCenterOfExtent (Num 4, Num 0, Num 6, Num 2) = (Num X, Num Y) /\
    4 <= X <= 6 /\ 0 <= Y <= 2.
Proof.
  assert (Hsmall : forall r, -10 <= r <= 10 -> ~ overflows r).
  { intros r Hr. apply small_in_range, Rabs_le. lra. }
  apply (getCenterOfExtent_midpoint 4 0 6 2); try lra; apply Hsmall; lra.
Defined.

(** ** Construction *)

(** X25.  Which candidates an interaction built from [options] lets
    through: with the [features] option, the features of the collection,
    whatever [layers] and [filter] say; without it, the features on a
    layer of the [layers] array, or that the [layers] function accepts,
    that the [filter] accepts, an absent option accepting everything. *)
Theorem Rotate_fields_rotable (options : Options) (pivote : addr)
    (feature : FeatureLike) (layer : Layer) (a : addr) :
  rotable (Rotate_fields options pivote) (feature, layer) a <->
  feature = FeatureRef a /\
  match options_features options with
  | Some collection => a ∈ collection
  | None =>
      match options_layers options with
      | Some (LayersFunction layerFilter) => layerFilter layer = true
      | Some (LayersArray layers) => layer ∈ layers
      | None => True
      end /\
      match options_filter options with
      | Some filter => filter a layer = true
      | None => True
      end
  end.
Proof.
  unfold rotable, Rotate_fields. cbn [fst snd layerFilter_ filter_ features_].
  destruct (options_features options) as [collection |]; cbn [truthy negb].
  - split.
    + intros (-> & _ & _ & Hin). split; [reflexivity |].
      apply Hin. reflexivity.
    + intros (-> & Hin). split; [reflexivity |].
      split; [destruct (options_layers options); reflexivity |].
      split; [destruct (options_filter options); reflexivity |].
      intros ? [= <-]. exact Hin.
  - split.
    + intros (-> & Hlayer & Hfilter & _). split; [reflexivity |]. split.
      * destruct (options_layers options) as [[layerFilter | layers] |];
          [exact Hlayer | apply bool_decide_eq_true in Hlayer; exact Hlayer
          | exact I].
      * destruct (options_filter options); [exact Hfilter | exact I].
    + intros (-> & Hlayer & Hfilter). split; [reflexivity |].
      split; [| split; [| discriminate]].
      * destruct (options_layers options) as [[layerFilter | layers] |];
          [exact Hlayer | apply bool_decide_eq_true; exact Hlayer
          | reflexivity].
      * destruct (options_filter options); [exact Hfilter | reflexivity].
Qed.

(** X25 on options with a collection: feature 1 is let through although
    the [layers] and [filter] options accept nothing. *)
Lemma Rotate_fields_rotable_witness :
  rotable (Rotate_fields collection_and_filters 0%nat)
    (FeatureRef 1%nat, 0%nat) 1%nat.
Proof.
  apply (Rotate_fields_rotable collection_and_filters 0%nat).
  split; [reflexivity |]. cbn. repeat constructor.
Defined.

(** ** From construction to the first rotation *)

Section FirstRotation.

Context {Geometry : Type} `{GeometryOps Geometry}.

Implicit Types (w : World Geometry) (event : MapBrowserEvent).




End FirstRotation.

